(** * UX Pilot: the design token generator and the code around it

    A shallow embedding of the deterministic parts of the repository and
    the properties proved of them:

    - knowledge/design-tokens.ts: [generateTypeScale], [hslToHex],
      [generateColorScale], [generateSpacingScale] and the table of
      breakpoints, with the JavaScript primitives they call;
    - core/ux-ui-pilot.ts: the routing of a request, [analyzeRequest];
    - mcp/server.ts: [parseWcagLevel] and [transformInput], followed through
      the [validateInput] of each capability;
    - capabilities: the rules an audit lists, the summary of its findings,
      the overall score of a critique, the order and the cells of the
      reports, the component tree and the component inventory.

    Numbers.  A JavaScript number is embedded twice.  Module [JS] takes it
    as an exact rational or [NaN]: products, quotients and powers are exact
    there, and what is proved over it is what no rounding changes (which
    steps and stops are returned, what is printed of a value, what is passed
    to what).  Module [Binary64] takes it as an IEEE-754 double: a finite
    double is the rational it holds, every operation returns the double
    nearest to the exact result (ties to even, an infinity on overflow), and
    what rounding and overflow decide is proved there.  The sign of zero is
    not represented; no function embedded here can tell the two zeros apart.

    Strings.  A string is a sequence of characters of one byte; the letter
    case and the white space of [toLowerCase], [toUpperCase] and [trim] are
    those of ASCII. *)

From Stdlib Require Import ZArith QArith Qround Qabs Qminmax Qpower.
From Stdlib Require Import Reals Psatz.
From Stdlib Require Import Lia List Bool Ascii String.
From Stdlib Require Import Sorting.Sorted Sorting.Permutation.
From Stdlib Require Import Morphisms.
From Stdlib Require Qcanon.
Import ListNotations.

Local Open Scope Z_scope.
Local Open Scope Q_scope.
Local Open Scope string_scope.

(* ------------------------------------------------------------------ *)
(** ** The JavaScript primitives used by the generators               *)
(* ------------------------------------------------------------------ *)

Module JS.

(** A number: a finite value or not-a-number. *)
Inductive number : Type :=
| NaN : number
| Fin : Q -> number.

Definition of_Z (z : Z) : number := Fin (inject_Z z).

(** Binary arithmetic; [NaN] is absorbing. *)
Definition lift2 (op : Q -> Q -> Q) (a b : number) : number :=
  match a, b with
  | Fin x, Fin y => Fin (op x y)
  | _, _ => NaN
  end.

Definition mul : number -> number -> number := lift2 Qmult.
Definition add : number -> number -> number := lift2 Qplus.
Definition sub : number -> number -> number := lift2 Qminus.

(** [a / b].  Every divisor in the source is a non-zero literal; a zero
    divisor (an infinity in JavaScript) is mapped to [NaN]. *)
Definition div (a b : number) : number :=
  match a, b with
  | Fin x, Fin y => if Qeq_bool y 0 then NaN else Fin (x / y)
  | _, _ => NaN
  end.

(** Truncation toward zero. *)
Definition Qtrunc (x : Q) : Z := Z.quot (Qnum x) (Zpos (Qden x)).

(** [a % b]: the remainder has the sign of the dividend. *)
Definition rem (a b : number) : number :=
  match a, b with
  | Fin x, Fin y =>
      if Qeq_bool y 0 then NaN else Fin (x - y * inject_Z (Qtrunc (x / y)))
  | _, _ => NaN
  end.

(** [a === b] and [a < b], [a > b] on numbers; comparisons with [NaN] are false. *)
Definition strict_eq (a b : number) : bool :=
  match a, b with
  | Fin x, Fin y => Qeq_bool x y
  | _, _ => false
  end.

Definition lt (a b : number) : bool :=
  match a, b with
  | Fin x, Fin y => negb (Qle_bool y x)
  | _, _ => false
  end.

Definition gt (a b : number) : bool := lt b a.

(** [Math.round]: the nearest integer, ties toward +infinity. *)
Definition Math_round (a : number) : number :=
  match a with
  | NaN => NaN
  | Fin x => of_Z (Qfloor (x + (1 # 2)))
  end.

Definition Math_min : number -> number -> number := lift2 Qmin.
Definition Math_max : number -> number -> number := lift2 Qmax.

(** [Math.pow(a, e)] at an integer exponent.  [Math.pow(x, 0)] is [1] for
    every [x], [NaN] included. *)
Definition Math_pow (a : number) (e : Z) : number :=
  if (e =? 0)%Z then of_Z 1
  else match a with
       | NaN => NaN
       | Fin x => Fin (x ^ e)
       end.

(** *** Strings *)

Definition digit_char (d : Z) : ascii :=
  nth (Z.to_nat d) (list_ascii_of_string "0123456789abcdef") "?"%char.

(** Digits of a non-negative integer in the given radix, most significant
    first, accumulated in front of [acc]. *)
Fixpoint Z_digits (radix : Z) (fuel : nat) (n : Z) (acc : string) : string :=
  match fuel with
  | O => acc
  | S fuel' =>
      let acc' := String (digit_char (n mod radix)) acc in
      if (n / radix =? 0)%Z then acc'
      else Z_digits radix fuel' (n / radix) acc'
  end.

Definition nat_string (radix : Z) (n : Z) : string :=
  Z_digits radix (S (Z.to_nat (Z.log2 n))) n "".

(** An integer with its sign, as [Number.prototype.toString(radix)] prints it. *)
Definition int_string (radix : Z) (n : Z) : string :=
  if (n <? 0)%Z then "-" ++ nat_string radix (- n) else nat_string radix n.

(** [String.prototype.padStart(len, "0")]. *)
Fixpoint zeros (n : nat) : string :=
  match n with
  | O => ""
  | S n' => String "0" (zeros n')
  end.

Definition padStart0 (s : string) (len : nat) : string :=
  zeros (len - String.length s) ++ s.

(** [s.replace(/0+$/, "")]: drop the zeros the string ends with. *)
Fixpoint strip_trailing_zeros (s : string) : string :=
  match s with
  | "" => ""
  | String c rest =>
      match strip_trailing_zeros rest with
      | "" => if Ascii.eqb c "0" then "" else String c ""
      | rest' => String c rest'
      end
  end.

(** [s.replace(/\.$/, "")]: drop one final point. *)
Fixpoint strip_final_point (s : string) : string :=
  match s with
  | "" => ""
  | String c "" => if Ascii.eqb c "." then "" else s
  | String c rest => String c (strip_final_point rest)
  end.

(** [s.replace(pat, by)] with a string pattern: the first occurrence only. *)
Fixpoint replace_first (pat by_ s : string) : string :=
  if String.prefix pat s
  then by_ ++ substring (String.length pat) (String.length s - String.length pat) s
  else match s with
       | "" => ""
       | String c rest => String c (replace_first pat by_ rest)
       end.

(** *** Numbers to strings *)

(** The decimal exponent [n] of a positive rational: [10^(n-1) <= q < 10^n]. *)
Fixpoint small_exponent (fuel : nat) (q : Q) (n : Z) : Z :=
  match fuel with
  | O => n
  | S fuel' =>
      if Qle_bool 1 (q * 10) then n else small_exponent fuel' (q * 10) (n - 1)
  end.

Definition decimal_exponent (q : Q) : Z :=
  if Qle_bool 1 q
  then Z.of_nat (String.length (nat_string 10 (Qfloor q)))
  else small_exponent (Pos.to_nat (Pos.size (Qden q))) q 0.

(** The significant decimal digits of a positive rational, without the
    zeros they end with.  At most 21 digits are produced: a value whose
    expansion is longer (or does not end) is cut there, where JavaScript
    prints the shortest decimal that reads back as the same double. *)
Definition significant_digits (q : Q) : string :=
  strip_trailing_zeros
    (nat_string 10 (Qfloor (q * 10 ^ (21 - decimal_exponent q)))).

(** [Number::toString] in radix 10 on a positive value, case by case as the
    language standard lists them. *)
Definition positive_toString (q : Q) : string :=
  let n := decimal_exponent q in
  let s := significant_digits q in
  let k := Z.of_nat (String.length s) in
  if ((k <=? n) && (n <=? 21))%Z%bool then
    s ++ zeros (Z.to_nat (n - k))
  else if ((0 <? n) && (n <=? 21))%Z%bool then
    substring 0 (Z.to_nat n) s ++ "." ++ substring (Z.to_nat n) (Z.to_nat (k - n)) s
  else if ((-6 <? n) && (n <=? 0))%Z%bool then
    "0." ++ zeros (Z.to_nat (- n)) ++ s
  else
    let e := (n - 1)%Z in
    let sign := if (e <? 0)%Z then "-" else "+" in
    let mantissa :=
      if (k =? 1)%Z then s
      else substring 0 1 s ++ "." ++ substring 1 (Z.to_nat (k - 1)) s in
    mantissa ++ "e" ++ sign ++ nat_string 10 (Z.abs e).

(** [String(x)], [`${x}`] and [x.toString()]. *)
Definition Number_toString (a : number) : string :=
  match a with
  | NaN => "NaN"
  | Fin q =>
      if Qeq_bool q 0 then "0"
      else if Qle_bool 0 q then positive_toString q
      else "-" ++ positive_toString (- q)
  end.

(** [x.toString(16)] as the source applies it, to the integer
    [Math.round] returned. *)
Definition Number_toString16 (a : number) : string :=
  match a with
  | NaN => "NaN"
  | Fin q => int_string 16 (Qfloor q)
  end.

(** [x.toFixed(f)]: the integer [n] nearest to [x * 10^f] (the larger one
    on a tie), printed with [f] decimals; a value of [10^21] or more is
    printed by [Number::toString]. *)
Definition Number_toFixed (a : number) (f : nat) : string :=
  match a with
  | NaN => "NaN"
  | Fin q =>
      let s := if Qle_bool 0 q then "" else "-" in
      let x := Qabs q in
      let m :=
        if Qle_bool (10 ^ 21) x then Number_toString (Fin x)
        else
          let n := Qfloor (x * 10 ^ Z.of_nat f + (1 # 2)) in
          let m := if (n =? 0)%Z then "0" else nat_string 10 n in
          match f with
          | O => m
          | _ =>
              let m := padStart0 m (f + 1) in
              let k := String.length m in
              substring 0 (k - f) m ++ "." ++ substring (k - f) f m
          end in
      s ++ m
  end.

End JS.

Import JS.

(* ------------------------------------------------------------------ *)
(** ** Type scale                                                      *)
(* ------------------------------------------------------------------ *)

(** The eight names of the type [TypeScaleRatio].  The type exists at
    compile time only: at run time a ratio is the string [ratio_name]
    gives. *)
Inductive TypeScaleRatio : Type :=
| minor_second | major_second | minor_third | major_third
| perfect_fourth | augmented_fourth | perfect_fifth | golden_ratio.

Definition all_ratios : list TypeScaleRatio :=
  [minor_second; major_second; minor_third; major_third;
   perfect_fourth; augmented_fourth; perfect_fifth; golden_ratio].

Definition ratio_name (r : TypeScaleRatio) : string :=
  match r with
  | minor_second => "minor-second"
  | major_second => "major-second"
  | minor_third => "minor-third"
  | major_third => "major-third"
  | perfect_fourth => "perfect-fourth"
  | augmented_fourth => "augmented-fourth"
  | perfect_fifth => "perfect-fifth"
  | golden_ratio => "golden-ratio"
  end.

(** The object [TYPE_SCALE_RATIOS], its own properties in source order. *)
Definition TYPE_SCALE_RATIOS : list (string * Q) :=
  [ ("minor-second", 1.067);
    ("major-second", 1.125);
    ("minor-third", 1.200);
    ("major-third", 1.250);
    ("perfect-fourth", 1.333);
    ("augmented-fourth", 1.414);
    ("perfect-fifth", 1.500);
    ("golden-ratio", 1.618) ].

(** [obj[key]]: the value of the property, [None] for [undefined]. *)
Fixpoint get_property {A : Type} (obj : list (string * A)) (key : string) : option A :=
  match obj with
  | [] => None
  | (k, v) :: rest => if String.eqb k key then Some v else get_property rest key
  end.

(** The conversion [Math.pow] applies to its first argument.  [undefined]
    becomes [NaN]; so does every property a key outside the table could
    reach through the prototype of the object (they are functions and
    objects). *)
Definition ToNumber (v : option Q) : number :=
  match v with
  | Some q => Fin q
  | None => NaN
  end.

Module TypeScaleStep.
Record t : Type := mk {
  name : string;
  factor : number;
  rem : string;
  px : number;
  suggestedWeight : Z;
  suggestedLineHeight : string
}.
End TypeScaleStep.

(** A row of the local table [steps] of [generateTypeScale]. *)
Module StepSpec.
Record t : Type := mk {
  name : string;
  exponent : Z;
  weight : Z;
  lineHeight : string
}.
End StepSpec.

Definition steps : list StepSpec.t :=
  [ StepSpec.mk "xs" (-2) 400 "1.5";
    StepSpec.mk "sm" (-1) 400 "1.5";
    StepSpec.mk "base" 0 400 "1.5";
    StepSpec.mk "lg" 1 400 "1.45";
    StepSpec.mk "xl" 2 500 "1.4";
    StepSpec.mk "2xl" 3 600 "1.35";
    StepSpec.mk "3xl" 4 600 "1.3";
    StepSpec.mk "4xl" 5 700 "1.2";
    StepSpec.mk "5xl" 6 700 "1.15";
    StepSpec.mk "display" 7 800 "1.1" ].

(** [`${(px / 16).toFixed(4).replace(/0+$/, '').replace(/\.$/, '')}rem`],
    the expression [generateTypeScale] and [generateSpacingScale] share. *)
Definition rem_string (px : number) : string :=
  strip_final_point (strip_trailing_zeros (Number_toFixed (div px (of_Z 16)) 4))
  ++ "rem".

Definition type_step (baseSizePx r : number) (step : StepSpec.t) : TypeScaleStep.t :=
  let px :=
    div (Math_round (mul (mul baseSizePx (Math_pow r (StepSpec.exponent step)))
                         (of_Z 100)))
        (of_Z 100) in
  let rem := rem_string px in
  {| TypeScaleStep.name := StepSpec.name step;
     TypeScaleStep.factor := Math_pow r (StepSpec.exponent step);
     TypeScaleStep.rem := rem;
     TypeScaleStep.px := px;
     TypeScaleStep.suggestedWeight := StepSpec.weight step;
     TypeScaleStep.suggestedLineHeight := StepSpec.lineHeight step |}.

Definition generateTypeScale (baseSizePx : number) (ratio : string)
  : list TypeScaleStep.t :=
  let r := ToNumber (get_property TYPE_SCALE_RATIOS ratio) in
  map (type_step baseSizePx r) steps.

(* ------------------------------------------------------------------ *)
(** ** Color scale                                                     *)
(* ------------------------------------------------------------------ *)

Module ColorScaleStop.
Record t : Type := mk { shade : Z; lightness : Z }.
End ColorScaleStop.

Definition STANDARD_COLOR_SHADES : list ColorScaleStop.t :=
  [ ColorScaleStop.mk 50 97;
    ColorScaleStop.mk 100 93;
    ColorScaleStop.mk 200 85;
    ColorScaleStop.mk 300 74;
    ColorScaleStop.mk 400 62;
    ColorScaleStop.mk 500 50;
    ColorScaleStop.mk 600 41;
    ColorScaleStop.mk 700 33;
    ColorScaleStop.mk 800 24;
    ColorScaleStop.mk 900 15 ].

Module ColorScaleConfig.
Record t : Type := mk { name : string; hue : number; saturation : number }.
End ColorScaleConfig.

Module GeneratedColorStop.
Record t : Type := mk { shade : Z; hsl : string; hex : string }.
End GeneratedColorStop.

(** The inner function [f] of [hslToHex]. *)
Definition hsl_channel (h lNorm a n : number) : string :=
  let k := JS.rem (add n (div h (of_Z 30))) (of_Z 12) in
  let color :=
    sub lNorm
        (mul a (Math_max (Math_min (Math_min (sub k (of_Z 3)) (sub (of_Z 9) k))
                                   (of_Z 1))
                         (of_Z (-1)))) in
  padStart0 (Number_toString16 (Math_round (mul (of_Z 255) color))) 2.

Definition hslToHex (h s l : number) : string :=
  let lNorm := div l (of_Z 100) in
  let a := mul (div s (of_Z 100)) (Math_min lNorm (sub (of_Z 1) lNorm)) in
  let f := hsl_channel h lNorm a in
  "#" ++ f (of_Z 0) ++ f (of_Z 8) ++ f (of_Z 4).

(** [satAdjust] of [generateColorScale] for one stop. *)
Definition satAdjust (config : ColorScaleConfig.t) (stop : ColorScaleStop.t) : number :=
  if ((ColorScaleStop.lightness stop >? 90) || (ColorScaleStop.lightness stop <? 20))%Z%bool
  then mul (ColorScaleConfig.saturation config) (Fin 0.7)
  else ColorScaleConfig.saturation config.

Definition color_stop (config : ColorScaleConfig.t) (stop : ColorScaleStop.t)
  : GeneratedColorStop.t :=
  let satAdjust := satAdjust config stop in
  {| GeneratedColorStop.shade := ColorScaleStop.shade stop;
     GeneratedColorStop.hsl :=
       "hsl(" ++ Number_toString (ColorScaleConfig.hue config) ++ ", "
       ++ Number_toString (Math_round satAdjust) ++ "%, "
       ++ Number_toString (of_Z (ColorScaleStop.lightness stop)) ++ "%)";
     GeneratedColorStop.hex :=
       hslToHex (ColorScaleConfig.hue config) (Math_round satAdjust)
                (of_Z (ColorScaleStop.lightness stop)) |}.

Definition generateColorScale (config : ColorScaleConfig.t)
  : list GeneratedColorStop.t :=
  map (color_stop config) STANDARD_COLOR_SHADES.

(* ------------------------------------------------------------------ *)
(** ** Spacing scale                                                   *)
(* ------------------------------------------------------------------ *)

Module SpacingStep.
Record t : Type := mk { name : string; px : number; rem : string }.
End SpacingStep.

Definition multipliers : list Q :=
  [0; 0.5; 1; 1.5; 2; 2.5; 3; 4; 5; 6; 7; 8; 10; 12; 14; 16; 20; 24; 28; 32].

Definition spacing_step (baseUnit : number) (mult : Q) : SpacingStep.t :=
  let px := mul baseUnit (Fin mult) in
  let rem := rem_string px in
  let name :=
    if strict_eq (Fin mult) (of_Z 0) then "0"
    else if lt (Fin mult) (of_Z 1)
         then replace_first "0." "0." (Number_toString (Fin mult))
         else Number_toString (Fin mult) in
  {| SpacingStep.name := name; SpacingStep.px := px; SpacingStep.rem := rem |}.

(** [generateSpacingScale(baseUnit = 4)]: [None] is the omitted argument. *)
Definition generateSpacingScale (baseUnit : option number) : list SpacingStep.t :=
  let baseUnit := match baseUnit with Some b => b | None => of_Z 4 end in
  map (spacing_step baseUnit) multipliers.

(* ------------------------------------------------------------------ *)
(** ** The conversion and the contrast formula as the specification    *)
(**    words them                                                      *)
(* ------------------------------------------------------------------ *)

Module Standard.

(** The remainder of the mathematical division: [0 <= Qmod x m < m]. *)
Definition Qmod (x m : Q) : Q := x - m * inject_Z (Qfloor (x / m)).

(** The nearest integer (the upper one half-way between two). *)
Definition nearest (x : Q) : Z := Qfloor (x + (1 # 2)).




End Standard.

Module Contrast.

Local Open Scope R_scope.

(** A colour as three 8-bit channels. *)
Record rgb : Type := mk_rgb { red : N; green : N; blue : N }.

(** Modelled from the spec: the gamma correction of one channel in the WCAG
    relative-luminance formula.  No function of the repository computes it:
    the design-system capability asks the hosted model for the contrast
    ratios and passes the numbers of its reply through. *)
Definition linear (c : N) : R :=
  let v := IZR (Z.of_N c) / 255 in
  if Rle_dec v 0.03928 then v / 12.92
  else Rpower ((v + 0.055) / 1.055) 2.4.

(** Modelled from the spec: the relative luminance, the gamma-corrected
    channels weighted by 0.2126, 0.7152 and 0.0722 and summed; missing from
    the sources like [linear]. *)
Definition relativeLuminance (c : rgb) : R :=
  0.2126 * linear (red c) + 0.7152 * linear (green c) + 0.0722 * linear (blue c).

Record ContrastResult : Type := mk_result {
  ratio : R;
  passesAA : bool;
  passesAAA : bool;
  passesAALargeText : bool
}.

Definition at_least (threshold x : R) : bool :=
  if Rle_dec threshold x then true else false.

(** Modelled from the spec: the contrast evaluator of section 4.5,
    [ratio = (L_lighter + 0.05) / (L_darker + 0.05)] classified against
    4.5, 7.0 and 3.0.  The sources hold no [evaluateContrast]; only the
    shape of its result is declared (the entries of [contrastReport]). *)
Definition evaluateContrast (x y : rgb) : ContrastResult :=
  let lx := relativeLuminance x in
  let ly := relativeLuminance y in
  let ratio := (Rmax lx ly + 0.05) / (Rmin lx ly + 0.05) in
  {| ratio := ratio;
     passesAA := at_least 4.5 ratio;
     passesAAA := at_least 7.0 ratio;
     passesAALargeText := at_least 3.0 ratio |}.

End Contrast.

(* ------------------------------------------------------------------ *)
(** ** JavaScript numbers as doubles, and the generators on them      *)
(* ------------------------------------------------------------------ *)

Module Binary64.

(** A number: not-a-number, an infinity, or a finite double, held as the
    rational it stands for.  The two zeros are the one rational 0. *)
Inductive number : Type :=
| NaN : number
| Infinity (negative : bool) : number
| Fin (q : Q) : number.

(** *** Rounding to the nearest double *)

Definition pow2 (e : Z) : Q := 2 ^ e.

(** The exponent of the unit in the last place of the doubles around
    [x >= 0]: [2^(u+52) <= x < 2^(u+53)] with 53 bits of significand, and
    [-1074] below the smallest normal double [2^-1022]. *)
Definition ulp_exponent (x : Q) : Z :=
  let N := Qfloor (x * pow2 1074) in
  if (N <? 2 ^ 52)%Z then (-1074)%Z else (Z.log2 N - 52 - 1074)%Z.

(** The nearest integer, the even one half-way between two. *)
Definition round_half_even (m : Q) : Z :=
  let f := Qfloor m in
  match Qcompare (m - inject_Z f) (1 # 2) with
  | Lt => f
  | Gt => (f + 1)%Z
  | Eq => if Z.even f then f else (f + 1)%Z
  end.

Definition negative (q : Q) : bool := (Qnum q <? 0)%Z.

(** The multiple of the unit in the last place nearest to [x >= 0]. *)
Definition nearest64 (x : Q) : Q :=
  let u := ulp_exponent x in
  inject_Z (round_half_even (x / pow2 u)) * pow2 u.

(** The same on both signs: the value an operation of exact result [q]
    returns while it does not overflow. *)
Definition rounded (q : Q) : Q :=
  if negative q then - nearest64 (- q) else nearest64 q.

(** The double an operation of exact result [q] returns: a result of
    [2^1024] or more in magnitude is an infinity. *)
Definition round64 (q : Q) : number :=
  let y := rounded q in
  if Qle_bool (pow2 1024) (Qabs y) then Infinity (negative q) else Fin (Qred y).

(** The rationals a double holds. *)
Definition double (q : Q) : Prop := round64 q = Fin q.

Definition of_Z (z : Z) : number := round64 (inject_Z z).

Definition is_zero (q : Q) : bool := (Qnum q =? 0)%Z.

(** *** Arithmetic *)

Definition mul (a b : number) : number :=
  match a, b with
  | NaN, _ | _, NaN => NaN
  | Infinity s, Infinity t => Infinity (xorb s t)
  | Infinity s, Fin y | Fin y, Infinity s =>
      if is_zero y then NaN else Infinity (xorb s (negative y))
  | Fin x, Fin y => round64 (x * y)
  end.

Definition add (a b : number) : number :=
  match a, b with
  | NaN, _ | _, NaN => NaN
  | Infinity s, Infinity t => if Bool.eqb s t then Infinity s else NaN
  | Infinity s, Fin _ | Fin _, Infinity s => Infinity s
  | Fin x, Fin y => round64 (x + y)
  end.

Definition neg (a : number) : number :=
  match a with
  | NaN => NaN
  | Infinity s => Infinity (negb s)
  | Fin x => Fin (Qred (- x))
  end.

Definition sub (a b : number) : number := add a (neg b).

(** [a / b].  A zero divisor is taken as the positive zero; every divisor
    of the source is a non-zero literal or a sum tested to be above 0. *)
Definition div (a b : number) : number :=
  match a, b with
  | NaN, _ | _, NaN => NaN
  | Infinity _, Infinity _ => NaN
  | Infinity s, Fin y => Infinity (xorb s (negative y))
  | Fin _, Infinity _ => Fin 0
  | Fin x, Fin y =>
      if is_zero y then (if is_zero x then NaN else Infinity (negative x))
      else round64 (x / y)
  end.

(** [a < b], [a > b] and [a === b]; comparisons with [NaN] are false. *)
Definition lt (a b : number) : bool :=
  match a, b with
  | NaN, _ | _, NaN => false
  | Infinity s, Infinity t => s && negb t
  | Infinity s, Fin _ => s
  | Fin _, Infinity t => negb t
  | Fin x, Fin y => negb (Qle_bool y x)
  end.

Definition gt (a b : number) : bool := lt b a.

Definition strict_eq (a b : number) : bool :=
  match a, b with
  | Infinity s, Infinity t => Bool.eqb s t
  | Fin x, Fin y => Qeq_bool x y
  | _, _ => false
  end.

Definition Math_min (a b : number) : number :=
  match a, b with
  | NaN, _ | _, NaN => NaN
  | _, _ => if lt b a then b else a
  end.

Definition Math_max (a b : number) : number :=
  match a, b with
  | NaN, _ | _, NaN => NaN
  | _, _ => if lt a b then b else a
  end.

(** [Math.round]: the nearest integer, ties toward +infinity.  The nearest
    integer of a double is a double. *)
Definition Math_round (a : number) : number :=
  match a with
  | Fin x => Fin (inject_Z (Qfloor (x + (1 # 2))))
  | _ => a
  end.

(** [a % b]: the remainder has the sign of the dividend and is exact. *)
Definition rem (a b : number) : number :=
  match a, b with
  | NaN, _ | _, NaN => NaN
  | Infinity _, _ => NaN
  | Fin x, Infinity _ => a
  | Fin x, Fin y =>
      if is_zero y then NaN else Fin (Qred (x - y * inject_Z (JS.Qtrunc (x / y))))
  end.

(** The double a decimal literal of the source denotes. *)
Definition literal (q : Q) : number := round64 q.

(** [Math.pow(a, e)] at an integer exponent, correctly rounded.  The
    language leaves the precision of [Math.pow] to the implementation, and
    fixes [Math.pow(x, 0)] to [1] for every [x], [NaN] included. *)
Definition Math_pow_nearest (a : number) (e : Z) : number :=
  if (e =? 0)%Z then of_Z 1
  else match a with
       | NaN => NaN
       | Infinity s =>
           if (e <? 0)%Z then of_Z 0 else Infinity (s && Z.odd e)
       | Fin x =>
           if is_zero x then (if (e <? 0)%Z then Infinity false else of_Z 0)
           else round64 (x ^ e)
       end.

(** *** Numbers to strings *)

Definition name_of_infinity (negative : bool) : string :=
  if negative then "-Infinity" else "Infinity".

(** Whether the decimal [s * 10^(n - k)] reads back as the double [v]. *)
Definition reads_back (v : Q) (k s n : Z) : bool :=
  match round64 (inject_Z s * 10 ^ (n - k)) with
  | Fin y => Qeq_bool y v
  | _ => false
  end.

(** The decimal of [k] digits that reads back as [v], if there is one: the
    digits [s] and the exponent [n] of [Number::toString], where
    [10^(k-1) <= s < 10^k] and the double nearest to [s * 10^(n-k)] is [v].
    Of two such decimals the closer to [v] is taken, the even one when they
    are as close. *)
Definition decimal_of_length (v : Q) (n k : Z) : option (Z * Z) :=
  let scaled := v / 10 ^ (n - k) in
  let lo := Qfloor scaled in
  let hi := (lo + 1)%Z in
  let '(hs, hn) :=
    if (hi =? 10 ^ k)%Z then ((10 ^ (k - 1))%Z, (n + 1)%Z) else (hi, n) in
  match reads_back v k lo n, reads_back v k hs hn with
  | true, true =>
      match Qcompare (scaled - inject_Z lo) (inject_Z hi - scaled) with
      | Lt => Some (lo, n)
      | Gt => Some (hs, hn)
      | Eq => if Z.even lo then Some (lo, n) else Some (hs, hn)
      end
  | true, false => Some (lo, n)
  | false, true => Some (hs, hn)
  | false, false => None
  end.

(** The shortest such decimal: [k] as small as possible. *)
Fixpoint shortest_decimal (fuel : nat) (v : Q) (n k : Z) : Z * Z :=
  match fuel with
  | O => (Qfloor (v / 10 ^ (n - k) + (1 # 2)), n)
  | S fuel' =>
      match decimal_of_length v n k with
      | Some d => d
      | None => shortest_decimal fuel' v n (k + 1)
      end
  end.

(** [Number::toString] in radix 10 on a positive double, case by case as
    the language standard lists them. *)
Definition positive_toString (v : Q) : string :=
  let '(digits, n) := shortest_decimal 16 v (JS.decimal_exponent v) 1 in
  let s := JS.nat_string 10 digits in
  let k := Z.of_nat (String.length s) in
  if ((k <=? n) && (n <=? 21))%Z%bool then
    s ++ JS.zeros (Z.to_nat (n - k))
  else if ((0 <? n) && (n <=? 21))%Z%bool then
    substring 0 (Z.to_nat n) s ++ "." ++ substring (Z.to_nat n) (Z.to_nat (k - n)) s
  else if ((-6 <? n) && (n <=? 0))%Z%bool then
    "0." ++ JS.zeros (Z.to_nat (- n)) ++ s
  else
    let e := (n - 1)%Z in
    let sign := if (e <? 0)%Z then "-" else "+" in
    let mantissa :=
      if (k =? 1)%Z then s
      else substring 0 1 s ++ "." ++ substring 1 (Z.to_nat (k - 1)) s in
    mantissa ++ "e" ++ sign ++ JS.nat_string 10 (Z.abs e).

(** [String(x)], [`${x}`] and [x.toString()]. *)
Definition Number_toString (a : number) : string :=
  match a with
  | NaN => "NaN"
  | Infinity s => name_of_infinity s
  | Fin q =>
      if is_zero q then "0"
      else if negative q then "-" ++ positive_toString (- q)
      else positive_toString q
  end.

(** [x.toString(16)] as the source applies it, to the integer
    [Math.round] returned. *)
Definition Number_toString16 (a : number) : string :=
  match a with
  | NaN => "NaN"
  | Infinity s => name_of_infinity s
  | Fin q => JS.int_string 16 (Qfloor q)
  end.

(** [x.toFixed(f)]: computed on the exact value of the double; a value of
    [10^21] or more is printed by [Number::toString]. *)
Definition Number_toFixed (a : number) (f : nat) : string :=
  match a with
  | NaN => "NaN"
  | Infinity s => name_of_infinity s
  | Fin q =>
      if Qle_bool (10 ^ 21) (Qabs q) then Number_toString a
      else JS.Number_toFixed (JS.Fin q) f
  end.

(** *** The generators of knowledge/design-tokens.ts on doubles *)

(** [TYPE_SCALE_RATIOS[ratio]] as [Math.pow] receives it: the double of the
    literal, [NaN] for [undefined]. *)
Definition ToNumber (v : option Q) : number :=
  match v with
  | Some q => literal q
  | None => NaN
  end.

Module TypeScaleStep.
Record t : Type := mk {
  name : string;
  factor : number;
  rem : string;
  px : number;
  suggestedWeight : Z;
  suggestedLineHeight : string
}.
End TypeScaleStep.

Definition rem_string (px : number) : string :=
  JS.strip_final_point
    (JS.strip_trailing_zeros (Number_toFixed (div px (of_Z 16)) 4))
  ++ "rem".

Section TypeScale.

(** The [Math.pow] of the engine. *)
Variable Math_pow : number -> Z -> number.

Definition type_step (baseSizePx r : number) (step : StepSpec.t) : TypeScaleStep.t :=
  let px :=
    div (Math_round (mul (mul baseSizePx (Math_pow r (StepSpec.exponent step)))
                         (of_Z 100)))
        (of_Z 100) in
  let rem := rem_string px in
  {| TypeScaleStep.name := StepSpec.name step;
     TypeScaleStep.factor := Math_pow r (StepSpec.exponent step);
     TypeScaleStep.rem := rem;
     TypeScaleStep.px := px;
     TypeScaleStep.suggestedWeight := StepSpec.weight step;
     TypeScaleStep.suggestedLineHeight := StepSpec.lineHeight step |}.

Definition generateTypeScale (baseSizePx : number) (ratio : string)
  : list TypeScaleStep.t :=
  let r := ToNumber (get_property TYPE_SCALE_RATIOS ratio) in
  map (type_step baseSizePx r) steps.

End TypeScale.

(** The step of a scale with a given name. *)
Definition type_step_named (n : string) (l : list TypeScaleStep.t)
  : option TypeScaleStep.t :=
  find (fun st => String.eqb (TypeScaleStep.name st) n) l.

Module ColorScaleConfig.
Record t : Type := mk { name : string; hue : number; saturation : number }.
End ColorScaleConfig.

(** The inner function [f] of [hslToHex]. *)
Definition hsl_channel (h lNorm a n : number) : string :=
  let k := rem (add n (div h (of_Z 30))) (of_Z 12) in
  let color :=
    sub lNorm
        (mul a (Math_max (Math_min (Math_min (sub k (of_Z 3)) (sub (of_Z 9) k))
                                   (of_Z 1))
                         (of_Z (-1)))) in
  JS.padStart0 (Number_toString16 (Math_round (mul (of_Z 255) color))) 2.

Definition hslToHex (h s l : number) : string :=
  let lNorm := div l (of_Z 100) in
  let a := mul (div s (of_Z 100)) (Math_min lNorm (sub (of_Z 1) lNorm)) in
  let f := hsl_channel h lNorm a in
  "#" ++ f (of_Z 0) ++ f (of_Z 8) ++ f (of_Z 4).

(** [satAdjust] of [generateColorScale] for one stop. *)
Definition satAdjust (config : ColorScaleConfig.t) (stop : ColorScaleStop.t) : number :=
  if ((ColorScaleStop.lightness stop >? 90) || (ColorScaleStop.lightness stop <? 20))%Z%bool
  then mul (ColorScaleConfig.saturation config) (literal 0.7)
  else ColorScaleConfig.saturation config.

Definition color_stop (config : ColorScaleConfig.t) (stop : ColorScaleStop.t)
  : GeneratedColorStop.t :=
  let satAdjust := satAdjust config stop in
  {| GeneratedColorStop.shade := ColorScaleStop.shade stop;
     GeneratedColorStop.hsl :=
       "hsl(" ++ Number_toString (ColorScaleConfig.hue config) ++ ", "
       ++ Number_toString (Math_round satAdjust) ++ "%, "
       ++ Number_toString (of_Z (ColorScaleStop.lightness stop)) ++ "%)";
     GeneratedColorStop.hex :=
       hslToHex (ColorScaleConfig.hue config) (Math_round satAdjust)
                (of_Z (ColorScaleStop.lightness stop)) |}.

Definition generateColorScale (config : ColorScaleConfig.t)
  : list GeneratedColorStop.t :=
  map (color_stop config) STANDARD_COLOR_SHADES.

Module SpacingStep.
Record t : Type := mk { name : string; px : number; rem : string }.
End SpacingStep.

Definition spacing_step (baseUnit : number) (mult : Q) : SpacingStep.t :=
  let mult := literal mult in
  let px := mul baseUnit mult in
  let rem := rem_string px in
  let name :=
    if strict_eq mult (of_Z 0) then "0"
    else if lt mult (of_Z 1)
         then JS.replace_first "0." "0." (Number_toString mult)
         else Number_toString mult in
  {| SpacingStep.name := name; SpacingStep.px := px; SpacingStep.rem := rem |}.

(** [generateSpacingScale(baseUnit = 4)]: [None] is the omitted argument. *)
Definition generateSpacingScale (baseUnit : option number) : list SpacingStep.t :=
  let baseUnit := match baseUnit with Some b => b | None => of_Z 4 end in
  map (spacing_step baseUnit) multipliers.

(** *** The overall score of capabilities/design-critique.ts on doubles *)

Module HeuristicScore.
Record t : Type := mk {
  heuristicId : number;
  heuristicName : string;
  score : number;
  maxScore : number
}.
End HeuristicScore.

Definition calculateOverallScore (scores : list HeuristicScore.t) : number :=
  if (List.length scores =? 0)%nat then of_Z 0
  else
    let total := fold_left (fun sum s => add sum (HeuristicScore.score s)) scores (of_Z 0) in
    let max := fold_left (fun sum s => add sum (HeuristicScore.maxScore s)) scores (of_Z 0) in
    if gt max (of_Z 0) then Math_round (mul (div total max) (of_Z 100)) else of_Z 0.

End Binary64.

(* ------------------------------------------------------------------ *)
(** ** Auxiliary definitions used by the statements                    *)
(* ------------------------------------------------------------------ *)

(** The constant of a ratio name, as a function on the enumeration. *)
Definition ratio_value (r : TypeScaleRatio) : Q :=
  match r with
  | minor_second => 1.067
  | major_second => 1.125
  | minor_third => 1.200
  | major_third => 1.250
  | perfect_fourth => 1.333
  | augmented_fourth => 1.414
  | perfect_fifth => 1.500
  | golden_ratio => 1.618
  end.

(** The step of a type scale with the given name. *)
Definition type_step_named (n : string) (l : list TypeScaleStep.t)
  : option TypeScaleStep.t :=
  find (fun st => String.eqb (TypeScaleStep.name st) n) l.


(** A stop is one of the extremes of the ramp. *)
Definition extreme (stop : ColorScaleStop.t) : bool :=
  ((ColorScaleStop.lightness stop >? 90) || (ColorScaleStop.lightness stop <? 20))%Z%bool.

(** [x] rounded to a multiple of [1 / scale], the upper one half-way between
    two: what [Math.round(x * 100) / 100] and [toFixed(4)] compute. *)
Definition round_at (scale : Z) (x : Q) : Q :=
  inject_Z (Qfloor (x * inject_Z scale + (1 # 2))) / inject_Z scale.

(** *** Reading a rem string back *)

(** The digit a character stands for. *)
Definition digit_of (c : ascii) : option Z :=
  let n := nat_of_ascii c in
  if ((48 <=? n) && (n <=? 57))%nat%bool then Some (Z.of_nat (n - 48)) else None.

(** The integer a string of decimal digits denotes, read after [acc]. *)
Fixpoint digits_value (acc : Z) (s : string) : option Z :=
  match s with
  | "" => Some acc
  | String c rest =>
      match digit_of c with
      | Some d => digits_value (10 * acc + d) rest
      | None => None
      end
  end.

(** The number a decimal numeral denotes: digits, then possibly a point and
    more digits. *)
Fixpoint numeral_value (acc : Z) (s : string) : option Q :=
  match s with
  | "" => Some (inject_Z acc)
  | String c rest =>
      if Ascii.eqb c "."
      then match digits_value 0 rest with
           | Some f => Some (inject_Z acc + inject_Z f / inject_Z (10 ^ Z.of_nat (String.length rest)))
           | None => None
           end
      else match digit_of c with
           | Some d => numeral_value (10 * acc + d) rest
           | None => None
           end
  end.

Definition decimal_value (s : string) : option Q :=
  match s with
  | String "-" rest => option_map Qopp (numeral_value 0 rest)
  | _ => numeral_value 0 s
  end.





(* ------------------------------------------------------------------ *)
(** ** The orchestrator (core/ux-ui-pilot.ts)                          *)
(* ------------------------------------------------------------------ *)

(** [Array.prototype.sort(compare)]: the sort is stable, so with a
    consistent comparator its result is the one of an insertion sort that
    moves an element only past those it has to come after. *)
Fixpoint sort_insert {A : Type} (compare : A -> A -> Z) (x : A) (l : list A) : list A :=
  match l with
  | [] => [x]
  | y :: rest =>
      if (0 <? compare x y)%Z then y :: sort_insert compare x rest
      else x :: y :: rest
  end.

Definition Array_sort {A : Type} (compare : A -> A -> Z) (l : list A) : list A :=
  fold_right (sort_insert compare) [] l.

(** [String.prototype.toLowerCase] on the letters A to Z. *)
Definition lower_char (c : ascii) : ascii :=
  let n := nat_of_ascii c in
  if ((65 <=? n) && (n <=? 90))%nat%bool then ascii_of_nat (n + 32) else c.

Fixpoint toLowerCase (s : string) : string :=
  match s with
  | "" => ""
  | String c rest => String (lower_char c) (toLowerCase rest)
  end.

(** [s.includes(sub)]. *)
Fixpoint includes (s sub : string) : bool :=
  if String.prefix sub s then true
  else match s with
       | "" => false
       | String _ rest => includes rest sub
       end.

(** [s.split(sep).length] for a separator of one character. *)
Fixpoint split_length (sep : ascii) (s : string) : nat :=
  match s with
  | "" => 1
  | String c rest =>
      if Ascii.eqb c sep then S (split_length sep rest) else split_length sep rest
  end.

Inductive CapabilityId : Type :=
| design_system | component_architecture | accessibility_audit
| user_flow | wireframe | design_critique.

(** [CAPABILITY_KEYWORDS], its entries in the order [Object.entries] lists
    them. *)
Definition CAPABILITY_KEYWORDS : list (CapabilityId * list string) :=
  [ (design_system,
     ["design system"; "tokens"; "color palette"; "typography"; "spacing"; "brand"; "theme"]);
    (component_architecture,
     ["component"; "architecture"; "props"; "state"; "composition"; "breakdown"]);
    (accessibility_audit,
     ["accessibility"; "a11y"; "wcag"; "aria"; "screen reader"; "contrast"]);
    (user_flow,
     ["user flow"; "journey"; "flowchart"; "navigation path"; "user journey"; "steps"]);
    (wireframe,
     ["wireframe"; "layout"; "page structure"; "information hierarchy"; "content zones"]);
    (design_critique,
     ["critique"; "review"; "evaluate"; "heuristic"; "usability"; "feedback"]) ].

Module Match.
Record t : Type := mk { id : CapabilityId; score : nat }.
End Match.

(** The inner loop of [analyzeRequest]: the score of one capability. *)
Definition keyword_score (lower : string) (keywords : list string) : nat :=
  fold_left
    (fun score keyword =>
       if includes lower keyword then (score + split_length " " keyword)%nat else score)
    keywords 0%nat.

(** The outer loop: the capabilities with a positive score, as pushed. *)
Definition collect_matches (lower : string) : list Match.t :=
  fold_left
    (fun matches entry =>
       let score := keyword_score lower (snd entry) in
       if (0 <? score)%nat then (matches ++ [Match.mk (fst entry) score])%list else matches)
    CAPABILITY_KEYWORDS [].

Definition analyzeRequest (request : string) : list CapabilityId :=
  let lower := toLowerCase request in
  let matches := collect_matches lower in
  let sorted :=
    Array_sort (fun a b => (Z.of_nat (Match.score b) - Z.of_nat (Match.score a))%Z) matches in
  map Match.id sorted.

(** The place of a capability in the table, and its keywords. *)
Definition rank (id : CapabilityId) : nat :=
  match id with
  | design_system => 0
  | component_architecture => 1
  | accessibility_audit => 2
  | user_flow => 3
  | wireframe => 4
  | design_critique => 5
  end.

Definition keywords_of (id : CapabilityId) : list string :=
  nth (rank id) (map snd CAPABILITY_KEYWORDS) [].

(** [a] is listed before [b]: a higher score, or the same score and an
    earlier place in the table. *)
Definition ranked_before (lower : string) (a b : CapabilityId) : Prop :=
  (keyword_score lower (keywords_of b) < keyword_score lower (keywords_of a))%nat \/
  (keyword_score lower (keywords_of a) = keyword_score lower (keywords_of b) /\
   (rank a < rank b)%nat).
(** The order a stable sort by [key] puts elements in: by key, and by
    their place [pos] in the input among those of one key. *)
Definition stable_before {A : Type} (key : A -> Z) (pos : A -> nat) (a b : A) : Prop :=
  (key a < key b)%Z \/ (key a = key b /\ (pos a < pos b)%nat).

(* ------------------------------------------------------------------ *)
(** ** The MCP server (mcp/server.ts) and the input validation         *)
(* ------------------------------------------------------------------ *)

(** The values the arguments of a tool call and the inputs built from them
    hold: strings, arrays, objects and [undefined]. *)
#[warnings="-register-all"]
Inductive value : Type :=
| Undefined : value
| Str : string -> value
| Arr : list value -> value
| Obj : list (string * value) -> value.

(** An object, as the list of its properties. *)
Definition object : Type := list (string * value).

(** [obj.key]; a property that is not there reads as [undefined]. *)
Definition get (obj : object) (key : string) : value :=
  match get_property obj key with
  | Some v => v
  | None => Undefined
  end.

(** [obj.key = v]. *)
Fixpoint set (obj : object) (key : string) (v : value) : object :=
  match obj with
  | [] => [(key, v)]
  | (k, w) :: rest =>
      if String.eqb k key then (k, v) :: rest else (k, w) :: set rest key v
  end.

(** The condition of [if (v)]: [undefined] and the empty string are false. *)
Definition truthy (v : value) : bool :=
  match v with
  | Undefined => false
  | Str "" => false
  | _ => true
  end.

(** [/-(A{1,3})$/.exec(s)?.[1]]: the search tries every position from the
    left; at a position the pattern matches when a dash is followed by one
    to three letters A and the end of the string. *)
Fixpoint exec_level (s : string) : option string :=
  match s with
  | "" => None
  | String c rest =>
      if (Ascii.eqb c "-"
          && (String.eqb rest "A" || String.eqb rest "AA" || String.eqb rest "AAA"))%bool
      then Some rest
      else exec_level rest
  end.

(** The string a value is converted to where a string is expected. *)
Fixpoint ToString (v : value) : string :=
  match v with
  | Undefined => "undefined"
  | Str s => s
  | Arr l =>
      (fix join (l : list value) : string :=
         match l with
         | [] => ""
         | x :: rest =>
             let element := match x with Undefined => "" | _ => ToString x end in
             match rest with
             | [] => element
             | _ => element ++ "," ++ join rest
             end
         end) l
  | Obj _ => "[object Object]"
  end.

Definition parseWcagLevel (standard : value) : value :=
  if negb (truthy standard) then Undefined
  else match exec_level (ToString standard) with
       | Some level => Str level
       | None => Undefined
       end.

Definition transformInput (capabilityId : CapabilityId) (args : object) : object :=
  match capabilityId with
  | design_system =>
      let input := [("brandName", Str "Design System")] in
      let input := if truthy (get args "brandColors")
                   then set input "colors" (get args "brandColors") else input in
      let input := if truthy (get args "typography")
                   then set input "typographyPreferences"
                            (Obj [("headingFont", get args "typography")])
                   else input in
      let input := if truthy (get args "targetPlatform")
                   then set input "targetPlatform" (get args "targetPlatform") else input in
      let input := if truthy (get args "requirements")
                   then set input "additionalContext" (get args "requirements") else input in
      input
  | component_architecture =>
      let input := [] in
      let input := if truthy (get args "description")
                   then set input "description" (get args "description") else input in
      let input := if truthy (get args "code")
                   then set input "existingCode" (get args "code") else input in
      let input := if truthy (get args "framework")
                   then set input "framework" (get args "framework") else input in
      input
  | accessibility_audit =>
      let input := [] in
      let input :=
        if truthy (get args "code")
        then set (set input "target" (get args "code")) "targetType" (Str "component-code")
        else if truthy (get args "html")
        then set (set input "target" (get args "html")) "targetType" (Str "html")
        else if truthy (get args "description")
        then set (set input "target" (get args "description")) "targetType" (Str "description")
        else input in
      let input := if truthy (get args "standard")
                   then set input "wcagLevel" (parseWcagLevel (get args "standard"))
                   else input in
      input
  | user_flow =>
      let input := [] in
      let input := if truthy (get args "feature")
                   then set input "featureDescription" (get args "feature") else input in
      let input := if truthy (get args "userType")
                   then set input "userPersona" (get args "userType") else input in
      let input := if truthy (get args "context")
                   then set input "additionalContext" (get args "context") else input in
      input
  | wireframe =>
      let input := [] in
      let input := if truthy (get args "feature")
                   then set input "requirements" (get args "feature") else input in
      let input := if truthy (get args "platform")
                   then set input "targetDevices" (Arr [get args "platform"]) else input in
      let input := if truthy (get args "constraints")
                   then set input "additionalContext" (get args "constraints") else input in
      input
  | design_critique =>
      let input := [] in
      let input :=
        if truthy (get args "code")
        then set (set input "target" (get args "code")) "targetType" (Str "component-code")
        else if truthy (get args "description")
        then set (set input "target" (get args "description")) "targetType" (Str "ui-description")
        else if truthy (get args "screenshot")
        then set (set input "target" (get args "screenshot")) "targetType" (Str "design-spec")
        else input in
      input
  end.

(** [String.prototype.trim] on the white space of ASCII: tab, line feed,
    vertical tab, form feed, carriage return and space. *)
Definition is_space (c : ascii) : bool :=
  let n := nat_of_ascii c in ((9 <=? n) && (n <=? 13) || (n =? 32))%nat%bool.

Fixpoint trimStart (s : string) : string :=
  match s with
  | "" => ""
  | String c rest => if is_space c then trimStart rest else s
  end.

Fixpoint trimEnd (s : string) : string :=
  match s with
  | "" => ""
  | String c rest =>
      match trimEnd rest with
      | "" => if is_space c then "" else String c ""
      | rest' => String c rest'
      end
  end.

Definition trim (s : string) : string := trimEnd (trimStart s).

(** How a validation ends: it returns, it throws a [UXPilotError] with the
    code INVALID_INPUT for a field, or a [TypeError] is thrown because
    [trim] is read off a value that is not a string. *)
Inductive validation : Type :=
| Valid : validation
| InvalidInput (fields : list string) : validation
| NotAString : validation.

(** [!v?.trim()] on a property [v]: [Some true] when the condition holds,
    [None] when [v.trim] is not a function. *)
Definition missing (v : value) : option bool :=
  match v with
  | Undefined => Some true
  | Str s => Some (String.eqb (trim s) "")
  | _ => None
  end.

(** [validTypes.includes(v)]. *)
Definition includes_value (validTypes : list string) (v : value) : bool :=
  match v with
  | Str s => existsb (String.eqb s) validTypes
  | _ => false
  end.

(** [validateInput] of the accessibility audit and of the design
    critique: they differ in the list [validTypes]. *)
Definition validateTarget (validTypes : list string) (input : object) : validation :=
  match missing (get input "target") with
  | None => NotAString
  | Some true => InvalidInput ["target"]
  | Some false =>
      if negb (includes_value validTypes (get input "targetType"))
      then InvalidInput ["targetType"]
      else Valid
  end.



(** [validateInput] of the design system capability. *)
Definition DesignSystem_validateInput (input : object) : validation :=
  match missing (get input "brandName") with
  | None => NotAString
  | Some true => InvalidInput ["brandName"]
  | Some false => Valid
  end.






(* ------------------------------------------------------------------ *)
(** ** The capabilities: what they compute besides the prompts         *)
(* ------------------------------------------------------------------ *)

(** [v === s] for a string [s]. *)
Definition is_string (v : value) (s : string) : bool :=
  match v with
  | Str t => String.eqb t s
  | _ => false
  end.

Module WCAGRule.
Record t : Type := mk {
  id : string;
  name : string;
  level : string;
  principle : string;
  description : string;
  techniques : list string;
  failures : list string
}.
End WCAGRule.

(** The rules [buildPrompt] of the accessibility audit lists for the level
    of the input, [wcagLevel ?? 'AA'], out of the table [WCAG_RULES]. *)
Definition relevantRules (WCAG_RULES : list WCAGRule.t) (wcagLevel : value)
  : list WCAGRule.t :=
  let level := match wcagLevel with Undefined => Str "AA" | v => v end in
  filter
    (fun rule =>
       if is_string level "A" then String.eqb (WCAGRule.level rule) "A"
       else if is_string level "AA"
            then (String.eqb (WCAGRule.level rule) "A"
                  || String.eqb (WCAGRule.level rule) "AA")%bool
            else true)
    WCAG_RULES.

Module AccessibilityFinding.
Record t : Type := mk {
  criterion : string;
  criterionName : string;
  severity : string;
  issue : string;
  evidence : string;
  recommendation : string;
  codeExample : string
}.
End AccessibilityFinding.

Module AuditSummary.
Record t : Type := mk {
  totalFindings : nat;
  critical : nat;
  major : nat;
  minor : nat;
  passedCriteria : list string
}.
End AuditSummary.

Definition has_severity (s : string) (f : AccessibilityFinding.t) : bool :=
  String.eqb (AccessibilityFinding.severity f) s.

(** The summary [execute] of the accessibility audit computes. *)
Definition audit_summary (findings : list AccessibilityFinding.t)
    (passedCriteria : list string) : AuditSummary.t :=
  {| AuditSummary.totalFindings := List.length findings;
     AuditSummary.critical := List.length (filter (has_severity "critical") findings);
     AuditSummary.major := List.length (filter (has_severity "major") findings);
     AuditSummary.minor := List.length (filter (has_severity "minor") findings);
     AuditSummary.passedCriteria := passedCriteria |}.

(** [severityOrder[severity]]. *)
Definition severityOrder (severity : string) : option Z :=
  get_property [("critical", 0%Z); ("major", 1%Z); ("minor", 2%Z)] severity.

(** The findings in the order of the report.  A difference with
    [undefined] is [NaN], which [sort] takes for 0. *)
Definition sorted_findings (findings : list AccessibilityFinding.t)
  : list AccessibilityFinding.t :=
  Array_sort
    (fun a b =>
       match severityOrder (AccessibilityFinding.severity a),
             severityOrder (AccessibilityFinding.severity b) with
       | Some x, Some y => (x - y)%Z
       | _, _ => 0%Z
       end)
    findings.

Module HeuristicScore.
Record t : Type := mk {
  heuristicId : number;
  heuristicName : string;
  score : number;
  maxScore : number
}.
End HeuristicScore.

(** [calculateOverallScore] of the design critique. *)
Definition calculateOverallScore (scores : list HeuristicScore.t) : number :=
  if (List.length scores =? 0)%nat then of_Z 0
  else
    let total := fold_left (fun sum s => add sum (HeuristicScore.score s)) scores (of_Z 0) in
    let max := fold_left (fun sum s => add sum (HeuristicScore.maxScore s)) scores (of_Z 0) in
    if gt max (of_Z 0) then Math_round (mul (div total max) (of_Z 100)) else of_Z 0.

(** The place of a finding in the report: the order of its severity, 3
    for a severity the order does not know. *)
Definition severity_key (f : AccessibilityFinding.t) : Z :=
  match severityOrder (AccessibilityFinding.severity f) with
  | Some k => k
  | None => 3%Z
  end.

(* ------------------------------------------------------------------ *)
(** ** The component tree of the architecture report                   *)
(* ------------------------------------------------------------------ *)

(** [s.repeat(n)] for a count that is a natural number. *)
Fixpoint String_repeat (s : string) (n : nat) : string :=
  match n with
  | O => ""
  | S n' => s ++ String_repeat s n'
  end.

Module PropSpec.
Record t : Type := mk {
  name : string;
  type : string;
  required : bool;
  defaultValue : option string;
  description : string
}.
End PropSpec.

Module StateSpec.
Record t : Type := mk {
  name : string;
  type : string;
  initialValue : string;
  description : string
}.
End StateSpec.

Module EventSpec.
Record t : Type := mk {
  name : string;
  payload : string;
  description : string
}.
End EventSpec.

Module ComponentSpec.
#[warnings="-register-all"]
Inductive t : Type := mk {
  name : string;
  description : string;
  props : list PropSpec.t;
  state : list StateSpec.t;
  events : list EventSpec.t;
  accessibilityRequirements : list string;
  children : list t
}.
End ComponentSpec.

(** The line of one component in the tree. *)
Definition tree_line (spec : ComponentSpec.t) (depth : nat) : string :=
  let indent := String_repeat "  " depth in
  let propsCount := List.length (ComponentSpec.props spec) in
  let stateCount := List.length (ComponentSpec.state spec) in
  indent ++ "- **" ++ ComponentSpec.name spec ++ "** ("
  ++ Number_toString (of_Z (Z.of_nat propsCount)) ++ " props, "
  ++ Number_toString (of_Z (Z.of_nat stateCount)) ++ " state)".

(** [renderComponentTree(spec, lines, depth)]: the array [lines] goes in
    and comes out, with the lines pushed. *)
Fixpoint renderComponentTree (spec : ComponentSpec.t) (lines : list string) (depth : nat)
  : list string :=
  let lines := (lines ++ [tree_line spec depth])%list in
  fold_left (fun lines child => renderComponentTree child lines (depth + 1))
            (ComponentSpec.children spec) lines.

(** The components of a tree with their depths, a component before its
    children, the children in their order. *)
Fixpoint preorder (spec : ComponentSpec.t) (depth : nat) : list (ComponentSpec.t * nat) :=
  (spec, depth)
  :: flat_map (fun child => preorder child (depth + 1)) (ComponentSpec.children spec).

(** The number of components of a tree. *)
Fixpoint component_count (spec : ComponentSpec.t) : nat :=
  S (list_sum (map component_count (ComponentSpec.children spec))).

(* ------------------------------------------------------------------ *)
(** ** Cells of the reports                                            *)
(* ------------------------------------------------------------------ *)

(** [`${ratio.toFixed(2)}:1`], a contrast ratio in the tables of the design
    system report. *)
Definition contrast_cell (ratio : number) : string :=
  Number_toFixed ratio 2 ++ ":1".

(** The count [s.repeat(count)] repeats by: the number without its
    fraction, 0 for [NaN]; [None] is the [RangeError] of a negative count. *)
Definition repeat_count (count : number) : option nat :=
  match count with
  | NaN => Some 0%nat
  | Fin q => if (Qtrunc q <? 0)%Z then None else Some (Z.to_nat (Qtrunc q))
  end.

(** [full.repeat(score) + empty.repeat(maxScore - score)], the bar of a
    heuristic in the critique report; [full] and [empty] are its two block
    characters. *)
Definition score_bar (full empty : string) (score maxScore : number) : option string :=
  match repeat_count score with
  | None => None
  | Some n =>
      match repeat_count (sub maxScore score) with
      | None => None
      | Some m => Some (String_repeat full n ++ String_repeat empty m)
      end
  end.

Module BreakpointDefinition.
Record t : Type := mk {
  name : string;
  minWidth : Z;
  maxWidth : option Z;
  columns : Z;
  gutter : Z;
  margin : Z
}.
End BreakpointDefinition.



(* ------------------------------------------------------------------ *)
(** ** The component inventory of the design system report             *)
(* ------------------------------------------------------------------ *)

Module InventoryItem.
Record t : Type := mk {
  name : string;
  category : string;
  priority : string;
  description : string
}.
End InventoryItem.

(** The names an object created by [{}] inherits from [Object.prototype]:
    reading one of them off the object gives a function or an object, not
    [undefined]. *)
Definition Object_prototype_names : list string :=
  [ "constructor"; "hasOwnProperty"; "isPrototypeOf"; "propertyIsEnumerable";
    "toLocaleString"; "toString"; "valueOf"; "__proto__";
    "__defineGetter__"; "__defineSetter__"; "__lookupGetter__"; "__lookupSetter__" ].

(** [obj[key] = v] on the own properties of an object. *)
Fixpoint set_property {A : Type} (obj : list (string * A)) (key : string) (v : A)
  : list (string * A) :=
  match obj with
  | [] => [(key, v)]
  | (k, w) :: rest =>
      if String.eqb k key then (k, v) :: rest else (k, w) :: set_property rest key v
  end.

(** [(grouped[comp.priority] ??= []).push(comp)].  [None] is the
    [TypeError] raised when the priority names an inherited property, which
    has no [push]. *)
Definition group_push (grouped : list (string * list InventoryItem.t))
    (comp : InventoryItem.t) : option (list (string * list InventoryItem.t)) :=
  let priority := InventoryItem.priority comp in
  match get_property grouped priority with
  | Some items => Some (set_property grouped priority (items ++ [comp])%list)
  | None =>
      if existsb (String.eqb priority) Object_prototype_names then None
      else Some (set_property grouped priority [comp])
  end.

Definition group_inventory (inventory : list InventoryItem.t)
  : option (list (string * list InventoryItem.t)) :=
  fold_left
    (fun grouped comp =>
       match grouped with
       | Some g => group_push g comp
       | None => None
       end)
    inventory (Some []).

(** [String.prototype.toUpperCase] on the letters a to z. *)
Definition upper_char (c : ascii) : ascii :=
  let n := nat_of_ascii c in
  if ((97 <=? n) && (n <=? 122))%nat%bool then ascii_of_nat (n - 32) else c.

(** [s.charAt(0).toUpperCase() + s.slice(1)]. *)
Definition capitalize (s : string) : string :=
  match s with
  | "" => ""
  | String c rest => String (upper_char c) rest
  end.

Definition item_line (item : InventoryItem.t) : string :=
  "- **" ++ InventoryItem.name item ++ "** (" ++ InventoryItem.category item ++ "): "
  ++ InventoryItem.description item.

(** The lines of one group with its heading; none for a group without
    items. *)
Definition group_lines (title : string) (items : list InventoryItem.t) : list string :=
  match items with
  | [] => []
  | _ => ("### " ++ title) :: "" :: (map item_line items ++ [""])%list
  end.

(** The lines the report pushes for the component inventory. *)
Definition inventory_lines (inventory : list InventoryItem.t) : option (list string) :=
  match group_inventory inventory with
  | None => None
  | Some grouped =>
      Some (flat_map
              (fun priority =>
                 match get_property grouped priority with
                 | Some items => group_lines (capitalize priority) items
                 | None => []
                 end)
              ["essential"; "recommended"; "optional"])
  end.

Definition has_priority (priority : string) (item : InventoryItem.t) : bool :=
  String.eqb (InventoryItem.priority item) priority.

(* ------------------------------------------------------------------ *)
(** ** Auxiliary definitions of the statements on doubles             *)
(* ------------------------------------------------------------------ *)

(** *** The conversion in double arithmetic *)



(** *** The sizes of a type scale in double arithmetic *)

(** [a < b] holds in JavaScript. *)
Definition px_lt64 (a b : Binary64.number) : Prop := Binary64.lt a b = true.

(** Half the distance from 1 to the next double: the relative error of one
    rounded operation is at most this. *)
Definition unit_roundoff64 : Q := 1 # 9007199254740992.

(** Bounds of [Math.round(base * factor * 100) / 100] for [y] the exact
    product of the base size and the exact power: the power is off by at
    most two units of roundoff, each of the two products and the quotient by
    one, and [Math.round] moves its argument by at most one half. *)
Definition px_upper (y : Q) : Q :=
  let u := unit_roundoff64 in
  (100 * y * ((1 + 2 * u) * (1 + u) * (1 + u)) + (1 # 2)) * (1 + u) * (1 # 100).

Definition px_lower (y : Q) : Q :=
  let u := unit_roundoff64 in
  (100 * y * ((1 - 2 * u) * (1 - u) * (1 - u)) - (1 # 2)) * (1 - u) * (1 # 100).

(** Two factors far enough apart for the bounds of their sizes not to
    overlap, whatever the base size of at least 1. *)
Definition factors_apart (c d : Q) : bool :=
  negb (Qle_bool (100 * (px_lower d - px_lower 0) - 100 * (px_upper c - px_upper 0)) 1).

(** The powers of a ratio at the exponents of the step table are between
    1/4 and 32, and those of consecutive exponents far enough apart. *)
Definition ratio_checked (x : Q) : bool :=
  forallb (fun e => Qle_bool (1 # 4) (x ^ e) && Qle_bool (x ^ e) 32)%bool
          [-2; -1; 0; 1; 2; 3; 4; 5; 6; 7]%Z
  && forallb (fun e => factors_apart (x ^ e) (x ^ (e + 1)))
             [-2; -1; 0; 1; 2; 3; 4; 5; 6]%Z.

(** The double of a ratio constant. *)
Definition ratio_double (r : TypeScaleRatio) : Q :=
  match Binary64.literal (ratio_value r) with
  | Binary64.Fin x => x
  | _ => 0
  end.

(** A score between 0 and its maximum, both finite. *)
Definition score_in_range (s : Binary64.HeuristicScore.t) : Prop :=
  exists x m : Q,
    Binary64.HeuristicScore.score s = Binary64.Fin x /\
    Binary64.HeuristicScore.maxScore s = Binary64.Fin m /\
    0 <= x <= m.

(** A score at its maximum. *)
Definition score_at_maximum (s : Binary64.HeuristicScore.t) : Prop :=
  Binary64.strict_eq (Binary64.HeuristicScore.score s)
                     (Binary64.HeuristicScore.maxScore s) = true.

(** The two sums of [calculateOverallScore], from an accumulator on. *)
Definition total_of (scores : list Binary64.HeuristicScore.t) (acc : Binary64.number)
  : Binary64.number :=
  fold_left (fun sum s => Binary64.add sum (Binary64.HeuristicScore.score s)) scores acc.

Definition max_of (scores : list Binary64.HeuristicScore.t) (acc : Binary64.number)
  : Binary64.number :=
  fold_left (fun sum s => Binary64.add sum (Binary64.HeuristicScore.maxScore s)) scores acc.

(* ------------------------------------------------------------------ *)
(** ** Facts about strings                                             *)
(* ------------------------------------------------------------------ *)

Section StringFacts.

Lemma append_assoc (a b c : string) : (a ++ b) ++ c = a ++ (b ++ c).
Proof. induction a as [|x a IH]; simpl; [reflexivity | now rewrite IH]. Qed.

Lemma append_empty_r (a : string) : a ++ "" = a.
Proof. induction a as [|x a IH]; simpl; [reflexivity | now rewrite IH]. Qed.

Lemma length_append (a b : string) :
  String.length (a ++ b) = (String.length a + String.length b)%nat.
Proof. induction a as [|x a IH]; simpl; [reflexivity | now rewrite IH]. Qed.

End StringFacts.

(* ------------------------------------------------------------------ *)
(** ** Color scale: shape of the result                                *)
(* ------------------------------------------------------------------ *)

Section ColorScaleShape.

Variable config : ColorScaleConfig.t.

Lemma generateColorScale_length :
  List.length (generateColorScale config) = 10%nat.
Proof. reflexivity. Qed.


Lemma color_stop_hsl_lightness (shade lightness : Z) :
  exists before,
    GeneratedColorStop.hsl (color_stop config (ColorScaleStop.mk shade lightness))
    = before ++ ", " ++ Number_toString (of_Z lightness) ++ "%)".
Proof.
  exists ("hsl(" ++ Number_toString (ColorScaleConfig.hue config) ++ ", "
          ++ Number_toString
               (Math_round (satAdjust config (ColorScaleStop.mk shade lightness)))
          ++ "%").
  unfold color_stop; cbn [GeneratedColorStop.hsl ColorScaleStop.lightness].
  rewrite !append_assoc. reflexivity.
Qed.

End ColorScaleShape.

(** C4.  Whatever the family name, hue and saturation, [generateColorScale]
    returns exactly 10 stops; their shades are 50, 100, 200, ..., 900 in
    ascending order, and the stop of each shade is the one generated from
    the fixed target lightness 97, 93, 85, 74, 62, 50, 41, 33, 24, 15, which
    is the lightness its hsl string ends with. *)
Theorem generateColorScale_ten_stops_fixed_ramp (config : ColorScaleConfig.t) :
  let stops := generateColorScale config in
  List.length stops = 10%nat /\
  map GeneratedColorStop.shade stops
    = [50; 100; 200; 300; 400; 500; 600; 700; 800; 900]%Z /\
  StronglySorted Z.lt (map GeneratedColorStop.shade stops) /\
  stops = map (fun p => color_stop config (ColorScaleStop.mk (fst p) (snd p)))
              [(50, 97); (100, 93); (200, 85); (300, 74); (400, 62);
               (500, 50); (600, 41); (700, 33); (800, 24); (900, 15)]%Z /\
  Forall2 (fun st l => exists before,
               GeneratedColorStop.hsl st = before ++ ", " ++ l ++ "%)")
          stops ["97"; "93"; "85"; "74"; "62"; "50"; "41"; "33"; "24"; "15"].
Proof.
  cbv zeta. split; [reflexivity|]. split; [reflexivity|].
  split.
  - change (map GeneratedColorStop.shade (generateColorScale config))
      with [50; 100; 200; 300; 400; 500; 600; 700; 800; 900]%Z.
    repeat (constructor; [|repeat (constructor; try reflexivity)]).
    constructor.
  - split; [reflexivity|].
    unfold generateColorScale, STANDARD_COLOR_SHADES; simpl map.
    repeat (constructor; [exact (color_stop_hsl_lightness config _ _)|]).
    constructor.
Qed.

(* ------------------------------------------------------------------ *)
(** ** Rounding                                                        *)
(* ------------------------------------------------------------------ *)

Section Rounding.

(** [Qfloor (x + 1/2)] is an integer nearest to [x]. *)
Lemma nearest_bounds (x : Q) :
  inject_Z (Qfloor (x + (1 # 2))) - (1 # 2) <= x /\
  x < inject_Z (Qfloor (x + (1 # 2))) + (1 # 2).
Proof.
  pose proof (Qfloor_le (x + (1 # 2))) as Hlo.
  pose proof (Qlt_floor (x + (1 # 2))) as Hhi.
  rewrite inject_Z_plus in Hhi.
  change (inject_Z 1) with 1 in Hhi.
  split; lra.
Qed.


End Rounding.

(* ------------------------------------------------------------------ *)
(** ** Color scale: the hsl string and the hex value                   *)
(* ------------------------------------------------------------------ *)


(* ------------------------------------------------------------------ *)
(** ** Spacing scale                                                   *)
(* ------------------------------------------------------------------ *)


(* ------------------------------------------------------------------ *)
(** ** Type scale: the ratio table                                     *)
(* ------------------------------------------------------------------ *)

Section RatioTable.

Lemma ratio_lookup (r : TypeScaleRatio) :
  get_property TYPE_SCALE_RATIOS (ratio_name r) = Some (ratio_value r).
Proof. destruct r; reflexivity. Qed.

Lemma ratio_name_in (r : TypeScaleRatio) : In (ratio_name r) (map ratio_name all_ratios).
Proof. apply in_map. destruct r; simpl; tauto. Qed.


Lemma Math_pow_NaN (e : Z) : e <> 0%Z -> Math_pow NaN e = NaN.
Proof. intros He. unfold Math_pow. destruct (Z.eqb_spec e 0); [contradiction | reflexivity]. Qed.


End RatioTable.




(* ------------------------------------------------------------------ *)
(** ** Rounding: whole numbers                                         *)
(* ------------------------------------------------------------------ *)

Section WholeNumbers.

Lemma Qfloor_inject_Z (z : Z) : Qfloor (inject_Z z) = z.
Proof. apply Qfloor_Z. Qed.

Lemma nearest_inject_Z (z : Z) : Qfloor (inject_Z z + (1 # 2)) = z.
Proof.
  destruct (nearest_bounds (inject_Z z)) as [Hlo Hhi].
  set (m := Qfloor (inject_Z z + (1 # 2))) in *.
  assert (inject_Z m < inject_Z z + 1) as H1 by lra.
  assert (inject_Z z < inject_Z m + 1) as H2 by lra.
  change 1 with (inject_Z 1) in H1, H2.
  rewrite <- inject_Z_plus, <- Zlt_Qlt in H1, H2. lia.
Qed.

Lemma nearest_unique (x : Q) (n : Z) : x == inject_Z n -> Qfloor (x + (1 # 2)) = n.
Proof.
  intros Hx. rewrite <- (nearest_inject_Z n). apply Qfloor_comp. now rewrite Hx.
Qed.

End WholeNumbers.

(* ------------------------------------------------------------------ *)
(** ** Rounding to a multiple of a unit                                *)
(* ------------------------------------------------------------------ *)

Section RoundAt.

(** Rounding to a multiple of [1 / scale] moves a value by at most half of
    [1 / scale]. *)
Lemma round_at_close (scale : Z) (x : Q) :
  (0 < scale)%Z ->
  x - 1 / (2 * inject_Z scale) <= round_at scale x /\
  round_at scale x <= x + 1 / (2 * inject_Z scale).
Proof.
  intros Hs. unfold round_at.
  destruct (nearest_bounds (x * inject_Z scale)) as [Hlo Hhi].
  set (m := inject_Z (Qfloor (x * inject_Z scale + (1 # 2)))) in *.
  assert (0 < inject_Z scale) as Hpos
    by (change 0 with (inject_Z 0); now rewrite <- Zlt_Qlt).
  set (c := inject_Z scale) in *.
  assert (~ c == 0) as Hc by lra.
  split.
  - apply Qle_shift_div_l; [exact Hpos|].
    setoid_replace ((x - 1 / (2 * c)) * c) with (x * c - (1 # 2)) by (field; exact Hc).
    lra.
  - apply Qle_shift_div_r; [exact Hpos|].
    setoid_replace ((x + 1 / (2 * c)) * c) with (x * c + (1 # 2)) by (field; exact Hc).
    lra.
Qed.


End RoundAt.

(* ------------------------------------------------------------------ *)
(** ** The contrast formula                                            *)
(* ------------------------------------------------------------------ *)

Section ContrastFacts.

Import Contrast.
Local Open Scope R_scope.

Lemma linear_nonneg (c : N) : 0 <= linear c.
Proof.
  unfold linear.
  assert (0 <= IZR (Z.of_N c) / 255) as Hv.
  { apply Rmult_le_pos; [apply IZR_le; lia | lra]. }
  destruct (Rle_dec _ _) as [_ | _].
  - lra.
  - left. unfold Rpower. apply exp_pos.
Qed.

Lemma relativeLuminance_nonneg (c : rgb) : 0 <= relativeLuminance c.
Proof.
  unfold relativeLuminance.
  pose proof (linear_nonneg (red c)). pose proof (linear_nonneg (green c)).
  pose proof (linear_nonneg (blue c)). lra.
Qed.

Lemma ratio_at_least_one (a b : R) :
  0 <= a -> 0 <= b -> 1 <= (Rmax a b + 0.05) / (Rmin a b + 0.05).
Proof.
  intros Ha Hb.
  assert (Rmin a b <= Rmax a b) as Hle
    by (apply Rle_trans with a; [apply Rmin_l | apply Rmax_l]).
  assert (0 <= Rmin a b) as Hmin by (apply Rmin_glb; assumption).
  apply Rmult_le_reg_r with (Rmin a b + 0.05); [lra|].
  unfold Rdiv. rewrite Rmult_assoc, Rinv_l by lra. lra.
Qed.

End ContrastFacts.

(** C2.  For every pair of colours, the contrast evaluator of the
    specification returns the same result in either order of its arguments;
    the ratio is the luminance of the lighter colour plus 0.05 over that of
    the darker one plus 0.05, and it is at least 1. *)
Theorem evaluateContrast_symmetric (x y : Contrast.rgb) :
  Contrast.evaluateContrast x y = Contrast.evaluateContrast y x /\
  Contrast.ratio (Contrast.evaluateContrast x y)
    = ((Rmax (Contrast.relativeLuminance x) (Contrast.relativeLuminance y) + 0.05)
       / (Rmin (Contrast.relativeLuminance x) (Contrast.relativeLuminance y) + 0.05))%R /\
  (1 <= Contrast.ratio (Contrast.evaluateContrast x y))%R /\
  (1 <= Contrast.ratio (Contrast.evaluateContrast y x))%R.
Proof.
  split.
  - unfold Contrast.evaluateContrast.
    rewrite (Rmax_comm (Contrast.relativeLuminance x)),
            (Rmin_comm (Contrast.relativeLuminance x)).
    reflexivity.
  - split; [reflexivity|].
    split; apply ratio_at_least_one; apply relativeLuminance_nonneg.
Qed.

(* ------------------------------------------------------------------ *)
(** ** The conversion from HSL                                         *)
(* ------------------------------------------------------------------ *)

Section Conversion.




Lemma nearest_range (x : Q) (lo hi : Z) :
  inject_Z lo <= x -> x <= inject_Z hi -> (lo <= Standard.nearest x <= hi)%Z.
Proof.
  intros Hlo Hhi. unfold Standard.nearest.
  destruct (nearest_bounds x) as [H1 H2].
  set (m := Qfloor (x + (1 # 2))) in *.
  assert (inject_Z lo < inject_Z m + 1) as A by lra.
  assert (inject_Z m < inject_Z hi + 1) as B by lra.
  change 1 with (inject_Z 1) in A, B.
  rewrite <- inject_Z_plus, <- Zlt_Qlt in A, B. lia.
Qed.

Lemma hsl_channel_Fin (h L a : Q) (n : Z) :
  let x := inject_Z n + h / inject_Z 30 in
  let k := x - inject_Z 12 * inject_Z (Qtrunc (x / inject_Z 12)) in
  hsl_channel (Fin h) (Fin L) (Fin a) (of_Z n)
  = padStart0
      (int_string 16
         (Qfloor (inject_Z (Qfloor
            (inject_Z 255
             * (L - a * Qmax (Qmin (Qmin (k - inject_Z 3) (inject_Z 9 - k)) (inject_Z 1))
                             (inject_Z (-1)))
             + (1 # 2)))))) 2.
Proof. reflexivity. Qed.

Lemma hslToHex_Fin (h s l : Q) :
  let L := l / inject_Z 100 in
  let a := s / inject_Z 100 * Qmin L (inject_Z 1 - L) in
  hslToHex (Fin h) (Fin s) (Fin l)
  = "#" ++ hsl_channel (Fin h) (Fin L) (Fin a) (of_Z 0)
        ++ hsl_channel (Fin h) (Fin L) (Fin a) (of_Z 8)
        ++ hsl_channel (Fin h) (Fin L) (Fin a) (of_Z 4).
Proof. reflexivity. Qed.

End Conversion.

(* ------------------------------------------------------------------ *)
(** ** Decimal numerals                                                *)
(* ------------------------------------------------------------------ *)

Section Digits.

Lemma digit_of_digit_char (d : Z) : (0 <= d < 10)%Z -> digit_of (digit_char d) = Some d.
Proof.
  intros Hd.
  assert (d = 0 \/ d = 1 \/ d = 2 \/ d = 3 \/ d = 4 \/ d = 5 \/ d = 6 \/ d = 7
          \/ d = 8 \/ d = 9)%Z as Hcases by lia.
  repeat (destruct Hcases as [-> | Hcases]; [reflexivity|]). subst d. reflexivity.
Qed.

Lemma digit_of_range (c : ascii) (d : Z) : digit_of c = Some d -> (0 <= d < 10)%Z.
Proof.
  unfold digit_of. destruct (_ && _)%bool eqn:E; [|discriminate].
  intros [= <-]. apply andb_prop in E. destruct E as [E1 E2].
  apply Nat.leb_le in E1, E2. lia.
Qed.

Lemma digit_of_not (c x : ascii) (d : Z) :
  digit_of x = None -> digit_of c = Some d -> Ascii.eqb c x = false.
Proof.
  intros Hx Hc. destruct (Ascii.eqb_spec c x) as [-> | _]; [congruence | reflexivity].
Qed.

Lemma digits_value_app (s t : string) : forall a,
  digits_value a (s ++ t)
  = match digits_value a s with Some v => digits_value v t | None => None end.
Proof.
  induction s as [|c s IH]; intros a; simpl; [reflexivity|].
  destruct (digit_of c); [apply IH | reflexivity].
Qed.

Lemma digits_value_shift (s : string) : forall a,
  digits_value a s
  = option_map (fun v => (a * 10 ^ Z.of_nat (String.length s) + v)%Z) (digits_value 0 s).
Proof.
  induction s as [|c s IH]; intros a.
  - simpl. f_equal. lia.
  - cbn [digits_value String.length]. destruct (digit_of c) as [d|]; [|reflexivity].
    rewrite (IH (10 * a + d)%Z), (IH (10 * 0 + d)%Z).
    destruct (digits_value 0 s) as [v|]; [|reflexivity].
    cbn [option_map]. f_equal. rewrite Nat2Z.inj_succ, Z.pow_succ_r by lia. ring.
Qed.

Lemma digits_value_bound (s : string) : forall v,
  digits_value 0 s = Some v -> (0 <= v < 10 ^ Z.of_nat (String.length s))%Z.
Proof.
  induction s as [|c s IH]; intros v.
  - simpl. intros [= <-]. lia.
  - cbn [digits_value String.length]. destruct (digit_of c) as [d|] eqn:Hd; [|discriminate].
    rewrite digits_value_shift. destruct (digits_value 0 s) as [w|]; [|discriminate].
    cbn [option_map]. intros [= <-].
    specialize (IH w eq_refl). apply digit_of_range in Hd.
    rewrite Nat2Z.inj_succ, Z.pow_succ_r by lia. nia.
Qed.

Lemma digits_value_zeros (j : nat) : forall a,
  digits_value a (zeros j) = Some (a * 10 ^ Z.of_nat j)%Z.
Proof.
  induction j as [|j IH]; intros a.
  - simpl. f_equal. lia.
  - cbn [zeros digits_value]. change (digit_of "0") with (Some 0%Z). cbv iota.
    rewrite IH. f_equal. rewrite Nat2Z.inj_succ, Z.pow_succ_r by lia. ring.
Qed.

Lemma zeros_length (j : nat) : String.length (zeros j) = j.
Proof. induction j as [|j IH]; simpl; [reflexivity | now rewrite IH]. Qed.

Lemma padStart0_value (s : string) (len : nat) (v : Z) :
  digits_value 0 s = Some v -> digits_value 0 (padStart0 s len) = Some v.
Proof.
  intros Hs. unfold padStart0. rewrite digits_value_app, digits_value_zeros.
  exact Hs.
Qed.

Lemma padStart0_length (s : string) (len : nat) :
  (len <= String.length (padStart0 s len))%nat.
Proof. unfold padStart0. rewrite length_append, zeros_length. lia. Qed.

(** The digits [Z_digits] puts in front of [acc] denote [n]. *)
Lemma Z_digits_value (fuel : nat) : forall n acc,
  (0 <= n < 2 ^ Z.of_nat fuel)%Z ->
  exists ds, Z_digits 10 fuel n acc = ds ++ acc /\ digits_value 0 ds = Some n.
Proof.
  induction fuel as [|fuel IH]; intros n acc Hn.
  - exists "". split; [reflexivity|]. simpl in *. f_equal. lia.
  - cbn [Z_digits].
    assert (0 <= n mod 10 < 10)%Z as Hd by (apply Z.mod_pos_bound; lia).
    pose proof (Z.div_mod n 10 ltac:(lia)) as Hdm.
    destruct (Z.eqb_spec (n / 10) 0) as [Hz | Hnz].
    + exists (String (digit_char (n mod 10)) ""). split; [reflexivity|].
      cbn [digits_value]. rewrite digit_of_digit_char by exact Hd. f_equal. lia.
    + destruct (IH (n / 10)%Z (String (digit_char (n mod 10)) acc)) as (ds & Hds & Hv).
      { rewrite Nat2Z.inj_succ, Z.pow_succ_r in Hn by lia.
        split; [apply Z.div_pos; lia|].
        apply Z.div_lt_upper_bound; lia. }
      exists (ds ++ String (digit_char (n mod 10)) ""). split.
      * rewrite Hds, append_assoc. reflexivity.
      * rewrite digits_value_app, Hv. cbn [digits_value].
        rewrite digit_of_digit_char by exact Hd. f_equal. lia.
Qed.

Lemma nat_string_value (n : Z) : (0 < n)%Z -> digits_value 0 (nat_string 10 n) = Some n.
Proof.
  intros Hn. unfold nat_string.
  destruct (Z_digits_value (S (Z.to_nat (Z.log2 n))) n "") as (ds & Hds & Hv).
  { rewrite Nat2Z.inj_succ, Z2Nat.id by apply Z.log2_nonneg.
    pose proof (Z.log2_spec n Hn). lia. }
  rewrite Hds, append_empty_r. exact Hv.
Qed.

End Digits.

Section Substrings.

Lemma substring_all (m : string) : substring 0 (String.length m) m = m.
Proof. induction m as [|c m IH]; simpl; [reflexivity | now rewrite IH]. Qed.

Lemma substring_split (m : string) : forall j n,
  (j + n = String.length m)%nat ->
  substring 0 j m ++ substring j n m = m /\ String.length (substring j n m) = n.
Proof.
  induction m as [|c m IH]; intros j n Hlen; simpl in Hlen.
  - assert (j = 0 /\ n = 0)%nat as [-> ->] by lia. split; reflexivity.
  - destruct j as [|j].
    + simpl in Hlen. subst n. cbn [substring]. rewrite substring_all.
      split; reflexivity.
    + cbn [substring]. destruct (IH j n ltac:(lia)) as [Happ Hl].
      split; [simpl; now rewrite Happ | exact Hl].
Qed.

End Substrings.

Section Stripping.






End Stripping.

Section Reading.


Lemma numeral_value_point (p r : string) (f : Z) : forall a i,
  digits_value a p = Some i -> digits_value 0 r = Some f ->
  numeral_value a (p ++ "." ++ r)
  = Some (inject_Z i + inject_Z f / inject_Z (10 ^ Z.of_nat (String.length r))).
Proof.
  induction p as [|c p IH]; intros a i.
  - simpl. intros [= <-] ->. reflexivity.
  - change (String c p ++ "." ++ r) with (String c (p ++ "." ++ r)).
    cbn [digits_value numeral_value]. destruct (digit_of c) as [d|] eqn:Hd; [|discriminate].
    rewrite (digit_of_not c "." d eq_refl Hd). apply IH.
Qed.

Lemma decimal_value_unsigned (c : ascii) (s : string) (d : Z) :
  digit_of c = Some d -> decimal_value (String c s) = numeral_value 0 (String c s).
Proof.
  intros Hd. unfold decimal_value.
  destruct c as [[] [] [] [] [] [] [] []]; try reflexivity; discriminate Hd.
Qed.





End Reading.

Section Fixed.

Lemma Qabs_nonneg_eq (x : Q) : 0 <= x -> Qabs x = x.
Proof.
  destruct x as [n d]. unfold Qle. cbn [Qnum Qden Qabs]. intros Hn.
  f_equal. apply Z.abs_eq. lia.
Qed.

(** [x.toFixed(f)] for [0 <= x < 10^21] and [f >= 1]: an integer part, a
    point and [f] decimals, which together denote the integer nearest to
    [x * 10^f]. *)
Lemma Number_toFixed_shape (x : Q) (f : nat) :
  0 <= x -> x < 10 ^ 21 ->
  exists p r i v,
    Number_toFixed (Fin x) (S f) = p ++ "." ++ r /\
    p <> "" /\ digits_value 0 p = Some i /\ digits_value 0 r = Some v /\
    String.length r = S f /\
    (i * 10 ^ Z.of_nat (S f) + v)%Z = Qfloor (x * 10 ^ Z.of_nat (S f) + (1 # 2)).
Proof.
  intros H0 Hbig. unfold Number_toFixed.
  rewrite (proj2 (Qle_bool_iff 0 x) H0), (Qabs_nonneg_eq x H0).
  destruct (Qle_bool (10 ^ 21) x) eqn:E.
  { apply Qle_bool_imp_le in E. exfalso. exact (Qlt_not_le _ _ Hbig E). }
  set (n := Qfloor (x * 10 ^ Z.of_nat (S f) + (1 # 2))).
  assert (0 <= n)%Z as Hn.
  { change 0%Z with (Qfloor 0). apply Qfloor_resp_le.
    assert (0 <= 10 ^ Z.of_nat (S f)) by (apply Qpower_0_le; discriminate).
    nra. }
  set (m0 := if (n =? 0)%Z then "0" else nat_string 10 n).
  assert (digits_value 0 m0 = Some n) as Hm0.
  { unfold m0. destruct (Z.eqb_spec n 0) as [-> | Hnz]; [reflexivity|].
    apply nat_string_value. lia. }
  cbv zeta.
  set (m := padStart0 m0 (S f + 1)).
  pose proof (padStart0_value m0 (S f + 1) n Hm0) as Hm. fold m in Hm.
  pose proof (padStart0_length m0 (S f + 1)) as Hk. fold m in Hk.
  destruct (substring_split m (String.length m - S f) (S f) ltac:(lia)) as [Happ Hlen].
  set (p := substring 0 (String.length m - S f) m) in *.
  set (r := substring (String.length m - S f) (S f) m) in *.
  rewrite <- Happ, digits_value_app in Hm.
  destruct (digits_value 0 p) as [i|] eqn:Hp; [|discriminate].
  rewrite digits_value_shift in Hm.
  destruct (digits_value 0 r) as [v|] eqn:Hr; [|discriminate].
  cbn [option_map] in Hm. injection Hm as Hm.
  exists p, r, i, v. split; [reflexivity|]. split.
  - intros Hp0. apply (f_equal String.length) in Happ.
    rewrite length_append, Hp0, Hlen in Happ. simpl in Happ. lia.
  - split; [exact Hp|]. split; [exact Hr|]. split; [exact Hlen|].
    rewrite <- Hlen. exact Hm.
Qed.





End Fixed.




(* ------------------------------------------------------------------ *)
(** ** Further properties of the generators *)
(* ------------------------------------------------------------------ *)

(** A base size that is not a number gives ten steps, none with a size:
    every size is [NaN] and every rem string is "NaNrem", whatever the
    ratio. *)
Theorem generateTypeScale_NaN_base (ratio : string) :
  map (fun st => (TypeScaleStep.name st, TypeScaleStep.px st, TypeScaleStep.rem st))
      (generateTypeScale NaN ratio)
  = map (fun n => (n, NaN, "NaNrem"))
        ["xs"; "sm"; "base"; "lg"; "xl"; "2xl"; "3xl"; "4xl"; "5xl"; "display"].
Proof.
  unfold generateTypeScale. destruct (ToNumber _); reflexivity.
Qed.

Section SpacingFacts.

(** Replacing a string by itself changes nothing. *)
Lemma replace_first_same (pat : string) : forall s, replace_first pat pat s = s.
Proof.
  induction s as [|c s IH].
  - cbn [replace_first]. destruct (String.prefix pat "") eqn:E; [|reflexivity].
    destruct pat; [reflexivity | discriminate].
  - cbn [replace_first]. destruct (String.prefix pat (String c s)) eqn:E.
    + apply prefix_correct in E.
      assert (String.length pat <= String.length (String c s))%nat as Hlen.
      { rewrite <- E at 1. clear. revert pat. generalize (String c s) as t.
        induction t as [|x t IHt]; intros [|y p]; simpl; try lia.
        specialize (IHt p). lia. }
      destruct (substring_split (String c s) (String.length pat)
                  (String.length (String c s) - String.length pat) ltac:(lia))
        as [Happ _].
      rewrite E in Happ. exact Happ.
    + now rewrite IH.
Qed.

Lemma Number_toString_zero (q : Q) : Qeq_bool q 0 = true -> Number_toString (Fin q) = "0".
Proof. intros H. unfold Number_toString. now rewrite H. Qed.

End SpacingFacts.

(** The name of a spacing step is the multiplier printed as a number, for
    every multiplier: the three branches of the naming expression agree with
    [String(mult)]. *)
Theorem spacing_step_name_canonical (baseUnit : number) (mult : Q) :
  SpacingStep.name (spacing_step baseUnit mult) = Number_toString (Fin mult).
Proof.
  unfold spacing_step. cbn [SpacingStep.name strict_eq of_Z].
  change (inject_Z 0) with 0.
  destruct (Qeq_bool mult 0) eqn:E.
  - symmetry. now apply Number_toString_zero.
  - destruct (lt _ _); [apply replace_first_same | reflexivity].
Qed.

Section Chroma.

(** Without chroma ([a] is 0) a channel is the lightness alone. *)
Lemma hsl_channel_no_chroma (h L a : Q) (n : Z) :
  a == 0 ->
  hsl_channel (Fin h) (Fin L) (Fin a) (of_Z n)
  = padStart0 (int_string 16 (Qfloor (inject_Z 255 * L + (1 # 2)))) 2.
Proof.
  intros Ha. rewrite hsl_channel_Fin. cbv zeta. rewrite Qfloor_inject_Z.
  f_equal. f_equal. apply Qfloor_comp. rewrite Ha. ring.
Qed.

Lemma hslToHex_no_chroma (h s l : Q) :
  s / inject_Z 100 * Qmin (l / inject_Z 100) (inject_Z 1 - l / inject_Z 100) == 0 ->
  let g := padStart0 (int_string 16 (Qfloor (inject_Z 255 * (l / inject_Z 100) + (1 # 2)))) 2 in
  hslToHex (Fin h) (Fin s) (Fin l) = "#" ++ g ++ g ++ g.
Proof.
  intros Ha. rewrite hslToHex_Fin. cbv zeta.
  now rewrite !hsl_channel_no_chroma by exact Ha.
Qed.

End Chroma.


(** Lightness 0 is black and lightness 100 is white, for every finite hue
    and saturation. *)
Theorem hslToHex_black_white (h s : Q) :
  hslToHex (Fin h) (Fin s) (of_Z 0) = "#000000" /\
  hslToHex (Fin h) (Fin s) (of_Z 100) = "#ffffff".
Proof.
  split.
  - apply (hslToHex_no_chroma h s (inject_Z 0)).
    rewrite Q.min_l by discriminate. unfold Qdiv. change (inject_Z 0) with 0. ring.
  - apply (hslToHex_no_chroma h s (inject_Z 100)).
    rewrite Q.min_r by discriminate. unfold Qdiv, Qminus. field.
Qed.

(** A hue or a saturation that is not a number raises nothing: every stop
    comes back with the hex value "#NaNNaNNaN". *)
Theorem generateColorScale_NaN (config : ColorScaleConfig.t) :
  ColorScaleConfig.hue config = NaN \/ ColorScaleConfig.saturation config = NaN ->
  map GeneratedColorStop.hex (generateColorScale config)
  = map (fun _ => "#NaNNaNNaN") STANDARD_COLOR_SHADES.
Proof.
  destruct config as [name hue saturation]. cbn [ColorScaleConfig.hue ColorScaleConfig.saturation].
  intros [-> | ->].
  - destruct saturation; reflexivity.
  - destruct hue; reflexivity.
Qed.

Lemma generateColorScale_NaN_witness :
  map GeneratedColorStop.hex (generateColorScale (ColorScaleConfig.mk "x" (of_Z 10) NaN))
  = map (fun _ => "#NaNNaNNaN") STANDARD_COLOR_SHADES.
Proof. apply generateColorScale_NaN. right. reflexivity. Defined.

(* ------------------------------------------------------------------ *)
(** ** The orchestrator: routing a request *)
(* ------------------------------------------------------------------ *)

Section SortMembers.

Context {A : Type}.
Variable cmp : A -> A -> Z.

Lemma In_sort_insert (x y : A) (l : list A) :
  In y (sort_insert cmp x l) <-> y = x \/ In y l.
Proof.
  induction l as [|z l IH]; simpl.
  - intuition.
  - destruct (0 <? cmp x z)%Z; simpl; [rewrite IH|]; intuition.
Qed.

Lemma In_Array_sort (y : A) (l : list A) :
  In y (Array_sort cmp l) <-> In y l.
Proof.
  induction l as [|x l IH]; simpl; [reflexivity|].
  rewrite In_sort_insert, IH. intuition.
Qed.

Lemma Array_sort_length (l : list A) :
  List.length (Array_sort cmp l) = List.length l.
Proof.
  induction l as [|x l IH]; simpl; [reflexivity|]. rewrite <- IH.
  generalize (Array_sort cmp l) as t. clear.
  induction t as [|z t IHt]; simpl; [reflexivity|].
  destruct (0 <? cmp x z)%Z; simpl; [now rewrite IHt | reflexivity].
Qed.

End SortMembers.

Section StableSort.

Context {A : Type}.
Variable key : A -> Z.
Variable pos : A -> nat.

Lemma sort_insert_sorted (x : A) (l : list A) :
  StronglySorted (stable_before key pos) l ->
  Forall (fun y => (pos x < pos y)%nat) l ->
  StronglySorted (stable_before key pos)
    (sort_insert (fun a b => (key a - key b)%Z) x l).
Proof.
  induction l as [|y l IH]; intros Hs Hpos; simpl.
  - constructor; constructor.
  - inversion Hs as [|? ? Hs' Hy]; subst. inversion Hpos as [|? ? Hxy Hpos']; subst.
    destruct (Z.ltb_spec 0 (key x - key y)) as [Hgt | Hle].
    + constructor; [now apply IH|].
      apply Forall_forall. intros z Hz. apply In_sort_insert in Hz.
      destruct Hz as [-> | Hz].
      * left. lia.
      * rewrite Forall_forall in Hy. now apply Hy.
    + constructor; [exact Hs|].
      apply Forall_forall. intros z Hz.
      assert (key y <= key z)%Z as Hyz.
      { destruct Hz as [-> | Hz]; [lia|].
        rewrite Forall_forall in Hy. destruct (Hy z Hz) as [? | [? _]]; lia. }
      assert (pos x < pos z)%nat as Hxz.
      { destruct Hz as [-> | Hz]; [exact Hxy|].
        rewrite Forall_forall in Hpos'. now apply Hpos'. }
      unfold stable_before. lia.
Qed.

(** Sorting a list whose elements are in the order of [pos]. *)
Lemma Array_sort_sorted (l : list A) :
  StronglySorted (fun a b => (pos a < pos b)%nat) l ->
  StronglySorted (stable_before key pos) (Array_sort (fun a b => (key a - key b)%Z) l).
Proof.
  induction l as [|x l IH]; intros Hl; simpl; [constructor|].
  inversion Hl as [|? ? Hl' Hx]; subst.
  apply sort_insert_sorted; [now apply IH|].
  apply Forall_forall. intros y Hy. apply In_Array_sort in Hy.
  rewrite Forall_forall in Hx. now apply Hx.
Qed.

End StableSort.

Section Includes.

Lemma prefix_append (sub s : string) :
  String.prefix sub s = true <-> exists b, s = sub ++ b.
Proof.
  revert s. induction sub as [|c sub IH]; intros s.
  - destruct s; simpl; (split; [intros _; eexists; reflexivity | reflexivity]).
  - destruct s as [|d s]; simpl.
    + split; [discriminate | intros [b Hb]; discriminate].
    + destruct (Ascii.ascii_dec c d) as [-> | Hne].
      * rewrite IH. split; intros [b Hb]; exists b; congruence.
      * split; [discriminate | intros [b Hb]; congruence].
Qed.

(** [s.includes(sub)] holds exactly when [sub] occurs somewhere in [s]. *)
Lemma includes_occurs (sub : string) : forall s,
  includes s sub = true <-> exists a b, s = a ++ sub ++ b.
Proof.
  induction s as [|c s IH]; cbn [includes].
  - destruct (String.prefix sub "") eqn:E.
    + split; [intros _|reflexivity]. apply prefix_append in E. destruct E as [b Hb].
      now exists "", b.
    + split; [discriminate|]. intros (a & b & Hab).
      destruct a; [|discriminate]. simpl in Hab.
      assert (String.prefix sub "" = true) by (apply prefix_append; now exists b).
      congruence.
  - destruct (String.prefix sub (String c s)) eqn:E.
    + split; [intros _|reflexivity]. apply prefix_append in E. destruct E as [b Hb].
      now exists "", b.
    + rewrite IH. split.
      * intros (a & b & ->). now exists (String c a), b.
      * intros (a & b & Hab). destruct a as [|d a].
        -- simpl in Hab.
           assert (String.prefix sub (String c s) = true)
             by (apply prefix_append; now exists b).
           congruence.
        -- simpl in Hab. injection Hab as _ ->. now exists a, b.
Qed.

Lemma split_length_positive (sep : ascii) (s : string) : (0 < split_length sep s)%nat.
Proof.
  induction s as [|c s IH]; simpl; [lia|]. destruct (Ascii.eqb c sep); lia.
Qed.

End Includes.

Section SortedLists.

Context {A B : Type}.

Lemma StronglySorted_filter (R : A -> A -> Prop) (p : A -> bool) (l : list A) :
  StronglySorted R l -> StronglySorted R (filter p l).
Proof.
  induction 1 as [|x l Hs IH Hx]; simpl; [constructor|].
  destruct (p x); [|exact IH]. constructor; [exact IH|].
  rewrite Forall_forall in *. intros y Hy. apply filter_In in Hy. now apply Hx.
Qed.

Lemma StronglySorted_map_in (R : A -> A -> Prop) (S : B -> B -> Prop) (f : A -> B)
    (l : list A) :
  (forall a b, In a l -> In b l -> R a b -> S (f a) (f b)) ->
  StronglySorted R l -> StronglySorted S (map f l).
Proof.
  intros Himp Hs. induction Hs as [|x l Hs IH Hx]; simpl; [constructor|].
  constructor.
  - apply IH. intros a b Ha Hb. apply Himp; now right.
  - rewrite Forall_forall in *. intros y Hy. apply in_map_iff in Hy.
    destruct Hy as (a & <- & Ha). apply Himp; [now left | now right | now apply Hx].
Qed.

Lemma StronglySorted_NoDup (R : A -> A -> Prop) (l : list A) :
  (forall a, ~ R a a) -> StronglySorted R l -> NoDup l.
Proof.
  intros Hirr. induction 1 as [|x l Hs IH Hx]; constructor; [|exact IH].
  intros Hin. rewrite Forall_forall in Hx. exact (Hirr x (Hx x Hin)).
Qed.

Lemma Array_sort_ext (cmp cmp' : A -> A -> Z) (l : list A) :
  (forall a b, cmp a b = cmp' a b) -> Array_sort cmp l = Array_sort cmp' l.
Proof.
  intros Hext. induction l as [|x l IH]; simpl; [reflexivity|]. rewrite IH.
  generalize (Array_sort cmp' l) as t.
  induction t as [|z t IHt]; simpl; [reflexivity|]. now rewrite Hext, IHt.
Qed.

Lemma fold_left_push (p : A -> bool) (f : A -> B) (l : list A) : forall acc,
  fold_left (fun acc x => if p x then (acc ++ [f x])%list else acc) l acc
  = (acc ++ map f (filter p l))%list.
Proof.
  induction l as [|x l IH]; intros acc; simpl; [now rewrite app_nil_r|].
  rewrite IH. destruct (p x); simpl; [now rewrite <- app_assoc | reflexivity].
Qed.

End SortedLists.

Section Scores.

Variable lower : string.

Lemma keyword_score_cons (keyword : string) (keywords : list string) :
  keyword_score lower (keyword :: keywords)
  = ((if includes lower keyword then split_length " " keyword else 0)
     + keyword_score lower keywords)%nat.
Proof.
  unfold keyword_score. cbn [fold_left].
  set (f := fun score k => if includes lower k then (score + split_length " " k)%nat else score).
  assert (forall l acc, fold_left f l acc = (acc + fold_left f l 0%nat)%nat) as Hacc.
  { induction l as [|k l IH]; intros acc; simpl; [lia|].
    rewrite (IH (f acc k)), (IH (f 0%nat k)). unfold f.
    destruct (includes lower k); lia. }
  rewrite Hacc. unfold f at 2. destruct (includes lower keyword); reflexivity.
Qed.

(** A capability scores exactly when one of its keywords occurs. *)
Lemma keyword_score_positive (keywords : list string) :
  (0 < keyword_score lower keywords)%nat <->
  exists keyword, In keyword keywords /\ includes lower keyword = true.
Proof.
  induction keywords as [|k ks IH].
  - simpl. split; [unfold keyword_score; simpl; lia | intros (? & [] & _)].
  - rewrite keyword_score_cons. destruct (includes lower k) eqn:E.
    + split; [intros _; exists k; split; [now left | exact E]|].
      intros _. pose proof (split_length_positive " " k). lia.
    + simpl. rewrite IH. split.
      * intros (kw & Hin & Hkw). exists kw. split; [now right | exact Hkw].
      * intros (kw & [<- | Hin] & Hkw); [congruence|]. now exists kw.
Qed.

Lemma collect_matches_filter :
  collect_matches lower
  = map (fun entry => Match.mk (fst entry) (keyword_score lower (snd entry)))
        (filter (fun entry => (0 <? keyword_score lower (snd entry))%nat)
                CAPABILITY_KEYWORDS).
Proof.
  unfold collect_matches.
  exact (fold_left_push (fun entry => (0 <? keyword_score lower (snd entry))%nat)
                        (fun entry => Match.mk (fst entry) (keyword_score lower (snd entry)))
                        CAPABILITY_KEYWORDS []).
Qed.

Lemma table_entry (id : CapabilityId) : In (id, keywords_of id) CAPABILITY_KEYWORDS.
Proof. destruct id; simpl; tauto. Qed.

Lemma table_keywords (entry : CapabilityId * list string) :
  In entry CAPABILITY_KEYWORDS -> snd entry = keywords_of (fst entry).
Proof.
  simpl. intros H.
  repeat (destruct H as [<- | H]; [reflexivity|]). contradiction.
Qed.

Lemma collect_matches_In (m : Match.t) :
  In m (collect_matches lower) <->
  Match.score m = keyword_score lower (keywords_of (Match.id m)) /\
  (0 < Match.score m)%nat.
Proof.
  rewrite collect_matches_filter, in_map_iff. split.
  - intros (entry & <- & Hin). apply filter_In in Hin. destruct Hin as [Hin Hpos].
    cbn [Match.score Match.id]. rewrite (table_keywords entry Hin).
    split; [reflexivity|]. rewrite <- (table_keywords entry Hin).
    now apply Nat.ltb_lt.
  - intros [Hscore Hpos]. exists (Match.id m, keywords_of (Match.id m)). split.
    + destruct m as [id score]. cbn in *. now rewrite Hscore.
    + apply filter_In. split; [apply table_entry|].
      cbn [snd]. apply Nat.ltb_lt. now rewrite <- Hscore.
Qed.

Lemma collect_matches_in_table_order :
  StronglySorted (fun a b => (rank (Match.id a) < rank (Match.id b))%nat)
                 (collect_matches lower).
Proof.
  rewrite collect_matches_filter.
  apply (StronglySorted_map_in (fun a b => (rank (fst a) < rank (fst b))%nat)).
  - intros a b _ _ H. exact H.
  - apply StronglySorted_filter.
    unfold CAPABILITY_KEYWORDS.
    repeat (constructor; [|repeat (constructor; try (simpl; lia))]). constructor.
Qed.

End Scores.

(** A capability is among those [analyzeRequest] returns exactly when one
    of its keywords occurs in the request, letter case aside. *)
Theorem analyzeRequest_matches (request : string) (id : CapabilityId) :
  In id (analyzeRequest request) <->
  exists keyword,
    In keyword (keywords_of id) /\
    exists before after, toLowerCase request = before ++ keyword ++ after.
Proof.
  unfold analyzeRequest. cbv zeta. rewrite in_map_iff.
  transitivity (0 < keyword_score (toLowerCase request) (keywords_of id))%nat.
  - split.
    + intros (m & <- & Hm). apply In_Array_sort, collect_matches_In in Hm.
      destruct Hm as [Hscore Hpos]. rewrite <- Hscore. exact Hpos.
    + intros Hpos.
      exists (Match.mk id (keyword_score (toLowerCase request) (keywords_of id))).
      split; [reflexivity|]. apply In_Array_sort, collect_matches_In.
      split; [reflexivity | exact Hpos].
  - rewrite keyword_score_positive. split.
    + intros (kw & Hin & Hinc). exists kw. split; [exact Hin|]. now apply includes_occurs.
    + intros (kw & Hin & Hocc). exists kw. split; [exact Hin|]. now apply includes_occurs.
Qed.

Lemma analyzeRequest_matches_witness :
  In accessibility_audit (analyzeRequest "Check the WCAG contrast of this card").
Proof.
  apply analyzeRequest_matches. exists "wcag". split; [simpl; tauto|].
  exists "check the ", " contrast of this card". reflexivity.
Defined.

(** The capabilities come back by decreasing score, those of one score in
    the order of the table; none comes back twice. *)
Theorem analyzeRequest_ranked (request : string) :
  StronglySorted (ranked_before (toLowerCase request)) (analyzeRequest request) /\
  NoDup (analyzeRequest request) /\
  (List.length (analyzeRequest request) <= 6)%nat.
Proof.
  set (lower := toLowerCase request).
  assert (StronglySorted (ranked_before lower) (analyzeRequest request)) as Hsorted.
  { unfold analyzeRequest. cbv zeta. fold lower.
    rewrite (Array_sort_ext _
               (fun a b => (- Z.of_nat (Match.score a) - - Z.of_nat (Match.score b))%Z))
      by (intros; lia).
    eapply StronglySorted_map_in;
      [|apply (Array_sort_sorted (fun m => (- Z.of_nat (Match.score m))%Z)
                                 (fun m => rank (Match.id m)));
        apply collect_matches_in_table_order].
    intros a b Ha Hb Hab.
    apply In_Array_sort, collect_matches_In in Ha, Hb.
    destruct Ha as [Ha _], Hb as [Hb _].
    unfold ranked_before. rewrite <- Ha, <- Hb.
    destruct Hab as [Hlt | [Heq Hpos]]; [left; lia | right; split; [lia | exact Hpos]]. }
  split; [exact Hsorted|]. split.
  - apply (StronglySorted_NoDup (ranked_before lower)); [|exact Hsorted].
    intros a [H | [_ H]]; lia.
  - unfold analyzeRequest. cbv zeta. fold lower.
    rewrite length_map, Array_sort_length, collect_matches_filter, length_map.
    etransitivity; [apply filter_length_le | reflexivity].
Qed.

(* ------------------------------------------------------------------ *)
(** ** The server: from the arguments of a tool call to a validated input *)
(* ------------------------------------------------------------------ *)

Section Levels.

Lemma exec_level_levels (s level : string) :
  exec_level s = Some level -> In level ["A"; "AA"; "AAA"].
Proof.
  induction s as [|c s IH]; cbn [exec_level]; [discriminate|].
  destruct (_ && _)%bool eqn:E; [|exact IH].
  intros [= <-]. apply andb_prop in E. destruct E as [_ E].
  apply orb_prop in E. destruct E as [E | E]; [apply orb_prop in E; destruct E as [E | E]|];
    apply String.eqb_eq in E; subst s; simpl; tauto.
Qed.

Lemma exec_level_suffix (level : string) :
  In level ["A"; "AA"; "AAA"] ->
  forall before, exec_level (before ++ "-" ++ level) = Some level.
Proof.
  intros Hlevel. induction before as [|c before IH].
  - simpl in Hlevel. destruct Hlevel as [<- | [<- | [<- | []]]]; reflexivity.
  - change (String c before ++ "-" ++ level) with (String c (before ++ "-" ++ level)).
    cbn [exec_level]. rewrite IH.
    destruct (_ && _)%bool eqn:E; [|reflexivity].
    exfalso. apply andb_prop in E. destruct E as [_ E].
    assert (exists t, before ++ "-" ++ level = t /\ In t ["A"; "AA"; "AAA"]) as (t & Ht & Hin).
    { apply orb_prop in E. destruct E as [E | E];
        [apply orb_prop in E; destruct E as [E | E]|];
        apply String.eqb_eq in E; eexists; (split; [exact E|]); simpl; tauto. }
    simpl in Hin.
    destruct Hin as [<- | [<- | [<- | []]]];
      destruct before as [|? [|? [|? [|? ?]]]]; simpl in Ht; try discriminate;
      injection Ht; intros; subst; discriminate.
Qed.

Lemma parseWcagLevel_range (standard : value) :
  parseWcagLevel standard = Undefined \/
  exists level, In level ["A"; "AA"; "AAA"] /\ parseWcagLevel standard = Str level.
Proof.
  unfold parseWcagLevel. destruct (negb (truthy standard)); [now left|].
  destruct (exec_level (ToString standard)) as [level|] eqn:E; [|now left].
  right. exists level. split; [exact (exec_level_levels _ _ E) | reflexivity].
Qed.

End Levels.

(** [parseWcagLevel] returns [undefined] or one of the levels A, AA and
    AAA: the level after the last dash of a string that ends with a dash
    and a level. *)
Theorem parseWcagLevel_levels (standard : value) :
  (parseWcagLevel standard = Undefined \/
   exists level, In level ["A"; "AA"; "AAA"] /\ parseWcagLevel standard = Str level) /\
  parseWcagLevel Undefined = Undefined /\
  parseWcagLevel (Str "") = Undefined /\
  (forall before, map (fun level => parseWcagLevel (Str (before ++ "-" ++ level)))
                      ["A"; "AA"; "AAA"]
                  = [Str "A"; Str "AA"; Str "AAA"]) /\
  map (fun s => parseWcagLevel (Str s))
      ["WCAG2.0-A"; "WCAG2.0-AA"; "WCAG2.0-AAA"; "WCAG2.1-A"; "WCAG2.1-AA";
       "WCAG2.1-AAA"; "WCAG2.2-AA"]
  = [Str "A"; Str "AA"; Str "AAA"; Str "A"; Str "AA"; Str "AAA"; Str "AA"].
Proof.
  split; [apply parseWcagLevel_range|].
  split; [reflexivity|]. split; [reflexivity|]. split; [|reflexivity].
  intros before. cbn [map].
  assert (forall level, In level ["A"; "AA"; "AAA"] ->
            parseWcagLevel (Str (before ++ "-" ++ level)) = Str level) as H.
  { intros level Hin. unfold parseWcagLevel. cbn [ToString].
    rewrite (exec_level_suffix level Hin).
    destruct before; [|reflexivity].
    simpl in Hin. destruct Hin as [<- | [<- | [<- | []]]]; reflexivity. }
  rewrite !H by (simpl; tauto). reflexivity.
Qed.

Section Trimming.

Lemma trimEnd_empty (s : string) :
  trimEnd s = "" <-> forallb is_space (list_ascii_of_string s) = true.
Proof.
  induction s as [|c s IH]; cbn [trimEnd list_ascii_of_string forallb]; [tauto|].
  destruct (trimEnd s) as [|d r] eqn:E.
  - destruct (is_space c); simpl.
    + rewrite <- IH. tauto.
    + split; discriminate.
  - split; [discriminate|]. intros H. apply andb_prop in H. destruct H as [_ H].
    apply IH in H. discriminate.
Qed.

(** [trim] leaves nothing exactly of the strings made of white space. *)
Lemma trim_empty (s : string) :
  trim s = "" <-> forallb is_space (list_ascii_of_string s) = true.
Proof.
  unfold trim. induction s as [|c s IH]; cbn [trimStart list_ascii_of_string forallb].
  - simpl. tauto.
  - destruct (is_space c) eqn:E; [exact IH|].
    rewrite trimEnd_empty. cbn [list_ascii_of_string forallb]. rewrite E. tauto.
Qed.

End Trimming.

Section Validation.

Variable validTypes : list string.

(** The validation of a target rejects the field "target" exactly when it
    is missing or blank. *)
Lemma validateTarget_target (input : object) :
  validateTarget validTypes input = InvalidInput ["target"] <->
  get input "target" = Undefined \/
  exists s, get input "target" = Str s /\
            forallb is_space (list_ascii_of_string s) = true.
Proof.
  unfold validateTarget. destruct (get input "target") as [|s|l|o]; cbn [missing].
  - split; [now left | reflexivity].
  - destruct (String.eqb_spec (trim s) "") as [E | E].
    + split; [intros _; right; exists s; split; [reflexivity | now apply trim_empty]
             | reflexivity].
    + split.
      * destruct (negb _); discriminate.
      * intros [H | (t & [= <-] & H)]; [discriminate|]. apply trim_empty in H. contradiction.
  - split; [discriminate | intros [H | (t & H & _)]; discriminate].
  - split; [discriminate | intros [H | (t & H & _)]; discriminate].
Qed.

End Validation.


Section ServerPath.



End ServerPath.



(** A call of the design system generation through the server passes the
    validation of the capability whatever the arguments: the server sets
    the brand name itself. *)
Theorem transformInput_design_system_validated (args : object) :
  get (transformInput design_system args) "brandName" = Str "Design System" /\
  DesignSystem_validateInput (transformInput design_system args) = Valid.
Proof.
  unfold DesignSystem_validateInput, transformInput.
  destruct (truthy (get args "brandColors")), (truthy (get args "typography")),
    (truthy (get args "targetPlatform")), (truthy (get args "requirements"));
    split; reflexivity.
Qed.


(* ------------------------------------------------------------------ *)
(** ** The capabilities: rules, summaries, scores and the order of the reports *)
(* ------------------------------------------------------------------ *)

Section SortByKey.

Context {A : Type}.

Lemma sort_insert_Permutation (cmp : A -> A -> Z) (x : A) (l : list A) :
  Permutation (x :: l) (sort_insert cmp x l).
Proof.
  induction l as [|y l IH]; simpl; [reflexivity|].
  destruct (0 <? cmp x y)%Z; [|reflexivity].
  rewrite perm_swap. now constructor.
Qed.

Lemma Array_sort_Permutation (cmp : A -> A -> Z) (l : list A) :
  Permutation l (Array_sort cmp l).
Proof.
  induction l as [|x l IH]; simpl; [constructor|].
  rewrite <- sort_insert_Permutation. now constructor.
Qed.

(** Two comparators that agree on the elements of a list sort it alike. *)
Lemma Array_sort_ext_in (cmp cmp' : A -> A -> Z) (l : list A) :
  (forall a b, In a l -> In b l -> cmp a b = cmp' a b) ->
  Array_sort cmp l = Array_sort cmp' l.
Proof.
  induction l as [|x l IH]; intros Hext; simpl; [reflexivity|].
  rewrite IH by (intros; apply Hext; now right).
  assert (forall b, In b (Array_sort cmp' l) -> cmp x b = cmp' x b) as Hx.
  { intros b Hb. apply Hext; [now left | right; now apply In_Array_sort in Hb]. }
  revert Hx. generalize (Array_sort cmp' l) as t.
  induction t as [|z t IHt]; intros Hx; simpl; [reflexivity|].
  rewrite (Hx z) by now left. rewrite IHt by (intros; apply Hx; now right).
  reflexivity.
Qed.

Variable key : A -> Z.

Lemma sort_insert_by_key (x : A) (l : list A) :
  StronglySorted (fun a b => (key a <= key b)%Z) l ->
  StronglySorted (fun a b => (key a <= key b)%Z)
                 (sort_insert (fun a b => (key a - key b)%Z) x l).
Proof.
  induction l as [|y l IH]; intros Hs; simpl.
  - constructor; constructor.
  - inversion Hs as [|? ? Hs' Hy]; subst.
    destruct (Z.ltb_spec 0 (key x - key y)) as [Hgt | Hle].
    + constructor; [now apply IH|].
      apply Forall_forall. intros z Hz. apply In_sort_insert in Hz.
      destruct Hz as [-> | Hz]; [lia|]. rewrite Forall_forall in Hy. now apply Hy.
    + constructor; [exact Hs|].
      apply Forall_forall. intros z [<- | Hz]; [lia|].
      rewrite Forall_forall in Hy. specialize (Hy z Hz). lia.
Qed.

Lemma sort_insert_filter (k : Z) (x : A) (l : list A) :
  filter (fun y => (key y =? k)%Z) (sort_insert (fun a b => (key a - key b)%Z) x l)
  = filter (fun y => (key y =? k)%Z) (x :: l).
Proof.
  induction l as [|y l IH]; [reflexivity|].
  cbn [sort_insert]. destruct (Z.ltb_spec 0 (key x - key y)) as [Hgt | Hle]; [|reflexivity].
  cbn [filter] in *. rewrite IH.
  destruct (Z.eqb_spec (key x) k), (Z.eqb_spec (key y) k); try reflexivity. lia.
Qed.

Lemma Array_sort_sorted_by_key (l : list A) :
  StronglySorted (fun a b => (key a <= key b)%Z)
                 (Array_sort (fun a b => (key a - key b)%Z) l).
Proof.
  induction l as [|x l IH]; simpl; [constructor|]. now apply sort_insert_by_key.
Qed.

Lemma Array_sort_filter (k : Z) (l : list A) :
  filter (fun y => (key y =? k)%Z) (Array_sort (fun a b => (key a - key b)%Z) l)
  = filter (fun y => (key y =? k)%Z) l.
Proof.
  induction l as [|x l IH]; [reflexivity|].
  cbn [Array_sort fold_right]. rewrite sort_insert_filter. cbn [filter].
  fold (Array_sort (fun a b => (key a - key b)%Z) l). now rewrite IH.
Qed.

End SortByKey.

(** [list.sort((a, b) => key(a) - key(b))], as the reports sort issues,
    findings, hierarchy items and content zones: the result holds the
    elements of the list, in the order of their keys, and those of one key
    in the order they had. *)
Theorem Array_sort_by_key {A : Type} (key : A -> Z) (l : list A) :
  let sorted := Array_sort (fun a b => (key a - key b)%Z) l in
  Permutation l sorted /\
  StronglySorted (fun a b => (key a <= key b)%Z) sorted /\
  forall k : Z,
    filter (fun y => (key y =? k)%Z) sorted = filter (fun y => (key y =? k)%Z) l.
Proof.
  cbv zeta. split; [apply Array_sort_Permutation|].
  split; [apply Array_sort_sorted_by_key|].
  intros k. apply Array_sort_filter.
Qed.

Section Findings.

Lemma severity_key_valid (f : AccessibilityFinding.t) :
  In (AccessibilityFinding.severity f) ["critical"; "major"; "minor"] ->
  severityOrder (AccessibilityFinding.severity f) = Some (severity_key f) /\
  (0 <= severity_key f <= 2)%Z.
Proof.
  unfold severity_key. simpl.
  intros [<- | [<- | [<- | []]]]; (split; [reflexivity | simpl; lia]).
Qed.

Lemma has_severity_key (f : AccessibilityFinding.t) :
  In (AccessibilityFinding.severity f) ["critical"; "major"; "minor"] ->
  has_severity "critical" f = (severity_key f =? 0)%Z /\
  has_severity "major" f = (severity_key f =? 1)%Z /\
  has_severity "minor" f = (severity_key f =? 2)%Z.
Proof.
  unfold has_severity, severity_key. simpl.
  intros [<- | [<- | [<- | []]]]; repeat split; reflexivity.
Qed.

Lemma filter_none {A : Type} (p : A -> bool) (l : list A) :
  (forall x, In x l -> p x = false) -> filter p l = [].
Proof.
  induction l as [|x l IH]; intros H; simpl; [reflexivity|].
  rewrite (H x) by now left. apply IH. intros y Hy. apply H. now right.
Qed.

(** A list in the order of a key with the values 0, 1 and 2 is its elements
    of key 0, then those of key 1, then those of key 2. *)
Lemma sorted_three_keys {A : Type} (key : A -> Z) (l : list A) :
  StronglySorted (fun a b => (key a <= key b)%Z) l ->
  Forall (fun x => (0 <= key x <= 2)%Z) l ->
  l = (filter (fun y => (key y =? 0)%Z) l ++ filter (fun y => (key y =? 1)%Z) l
       ++ filter (fun y => (key y =? 2)%Z) l)%list.
Proof.
  induction 1 as [|x l Hs IH Hx]; intros Hk; [reflexivity|].
  inversion Hk as [|? ? Hkx Hkl]; subst. specialize (IH Hkl).
  rewrite Forall_forall in Hx. cbn [filter].
  destruct (Z.eqb_spec (key x) 0) as [E0 | N0].
  - destruct (Z.eqb_spec (key x) 1); [lia|]. destruct (Z.eqb_spec (key x) 2); [lia|].
    simpl. now rewrite <- IH.
  - assert (filter (fun y => (key y =? 0)%Z) l = []) as F0.
    { apply filter_none. intros y Hy. specialize (Hx y Hy). apply Z.eqb_neq. lia. }
    rewrite F0 in *. destruct (Z.eqb_spec (key x) 1) as [E1 | N1].
    + destruct (Z.eqb_spec (key x) 2); [lia|]. simpl. simpl in IH. now rewrite <- IH.
    + assert (filter (fun y => (key y =? 1)%Z) l = []) as F1.
      { apply filter_none. intros y Hy. specialize (Hx y Hy). apply Z.eqb_neq. lia. }
      rewrite F1 in *. destruct (Z.eqb_spec (key x) 2) as [E2 | N2]; [|lia].
      simpl. simpl in IH. now rewrite <- IH.
Qed.

End Findings.

(** The report of the accessibility audit lists the critical findings, then
    the major ones, then the minor ones, each group in the order the
    findings came in. *)
Theorem sorted_findings_groups (findings : list AccessibilityFinding.t) :
  Forall (fun f => In (AccessibilityFinding.severity f) ["critical"; "major"; "minor"])
         findings ->
  sorted_findings findings
  = (filter (has_severity "critical") findings
     ++ filter (has_severity "major") findings
     ++ filter (has_severity "minor") findings)%list.
Proof.
  intros Hvalid. rewrite Forall_forall in Hvalid.
  unfold sorted_findings.
  rewrite (Array_sort_ext_in _ (fun a b => (severity_key a - severity_key b)%Z)).
  2:{ intros a b Ha Hb.
      destruct (severity_key_valid a (Hvalid a Ha)) as [-> _].
      destruct (severity_key_valid b (Hvalid b Hb)) as [-> _]. reflexivity. }
  rewrite (sorted_three_keys severity_key
             (Array_sort (fun a b => (severity_key a - severity_key b)%Z) findings)).
  - rewrite !Array_sort_filter.
    rewrite (filter_ext_in (has_severity "critical") (fun y => (severity_key y =? 0)%Z)),
            (filter_ext_in (has_severity "major") (fun y => (severity_key y =? 1)%Z)),
            (filter_ext_in (has_severity "minor") (fun y => (severity_key y =? 2)%Z));
      try (intros f Hf; apply (has_severity_key f (Hvalid f Hf))).
    reflexivity.
  - apply Array_sort_sorted_by_key.
  - apply Forall_forall. intros f Hf. apply In_Array_sort in Hf.
    apply (severity_key_valid f (Hvalid f Hf)).
Qed.

Lemma sorted_findings_groups_witness :
  map AccessibilityFinding.criterion
      (sorted_findings
         [AccessibilityFinding.mk "1.4.3" "" "minor" "" "" "" "";
          AccessibilityFinding.mk "2.1.1" "" "critical" "" "" "" "";
          AccessibilityFinding.mk "1.1.1" "" "minor" "" "" "" "";
          AccessibilityFinding.mk "4.1.2" "" "major" "" "" "" "";
          AccessibilityFinding.mk "2.4.7" "" "critical" "" "" "" ""])
  = ["2.1.1"; "2.4.7"; "4.1.2"; "1.4.3"; "1.1.1"].
Proof.
  rewrite sorted_findings_groups; [reflexivity|].
  repeat constructor; simpl; tauto.
Defined.

(** The counts of the summary: every finding is counted once in the total,
    and once more under its severity when that is critical, major or
    minor. *)
Theorem audit_summary_counts (findings : list AccessibilityFinding.t)
    (passedCriteria : list string) :
  let summary := audit_summary findings passedCriteria in
  let other f := negb (has_severity "critical" f || has_severity "major" f
                       || has_severity "minor" f) in
  (AuditSummary.critical summary + AuditSummary.major summary
   + AuditSummary.minor summary + List.length (filter other findings)
   = AuditSummary.totalFindings summary)%nat.
Proof.
  cbv zeta. unfold audit_summary.
  cbn [AuditSummary.critical AuditSummary.major AuditSummary.minor AuditSummary.totalFindings].
  induction findings as [|f findings IH]; [reflexivity|].
  cbn [filter].
  destruct (has_severity "critical" f) eqn:E1, (has_severity "major" f) eqn:E2,
    (has_severity "minor" f) eqn:E3;
    cbn [negb orb List.length]; try lia;
    unfold has_severity in E1, E2, E3;
    repeat match goal with
           | H : String.eqb _ _ = true |- _ => apply String.eqb_eq in H
           end;
    congruence.
Qed.

Section Rules.

Lemma filter_all {A : Type} (l : list A) : filter (fun _ => true) l = l.
Proof. induction l as [|x l IH]; simpl; [reflexivity | now rewrite IH]. Qed.

Lemma filter_filter {A : Type} (p q : A -> bool) (l : list A) :
  filter p (filter q l) = filter (fun x => (q x && p x)%bool) l.
Proof.
  induction l as [|x l IH]; simpl; [reflexivity|].
  destruct (q x); simpl; [destruct (p x); now rewrite IH | exact IH].
Qed.

End Rules.

(** The rules of the audit by level: without a level those of AA; at AAA
    (and at any level but A and AA) the whole table; at AA the rules of
    level A or AA, of which those at A are the ones of level A.  The rules
    keep the order of the table. *)
Theorem relevantRules_nested (WCAG_RULES : list WCAGRule.t) :
  relevantRules WCAG_RULES Undefined = relevantRules WCAG_RULES (Str "AA") /\
  relevantRules WCAG_RULES (Str "AAA") = WCAG_RULES /\
  relevantRules WCAG_RULES (Str "AA")
    = filter (fun rule => (String.eqb (WCAGRule.level rule) "A"
                           || String.eqb (WCAGRule.level rule) "AA")%bool) WCAG_RULES /\
  relevantRules WCAG_RULES (Str "A")
    = filter (fun rule => String.eqb (WCAGRule.level rule) "A")
             (relevantRules WCAG_RULES (Str "AA")) /\
  (forall level,
     is_string level "A" = false -> is_string level "AA" = false -> level <> Undefined ->
     relevantRules WCAG_RULES level = WCAG_RULES).
Proof.
  split; [reflexivity|]. split; [apply filter_all|]. split; [reflexivity|]. split.
  - unfold relevantRules. cbn [is_string String.eqb Ascii.eqb Bool.eqb].
    cbn. rewrite filter_filter. apply filter_ext. intros rule.
    destruct (String.eqb (WCAGRule.level rule) "A"),
      (String.eqb (WCAGRule.level rule) "AA"); reflexivity.
  - intros level HA HAA Hdef. unfold relevantRules.
    assert (match level with Undefined => Str "AA" | v => v end = level) as ->
      by (destruct level; [contradiction | reflexivity ..]).
    rewrite HA, HAA. apply filter_all.
Qed.

Lemma relevantRules_nested_witness :
  relevantRules [WCAGRule.mk "1.1.1" "Non-text Content" "A" "Perceivable" "" [] [];
                 WCAGRule.mk "1.4.3" "Contrast (Minimum)" "AA" "Perceivable" "" [] []]
                (Str "AAAA")
  = [WCAGRule.mk "1.1.1" "Non-text Content" "A" "Perceivable" "" [] [];
     WCAGRule.mk "1.4.3" "Contrast (Minimum)" "AA" "Perceivable" "" [] []].
Proof.
  apply relevantRules_nested; [reflexivity | reflexivity | discriminate].
Defined.

Section OverallScore.

Lemma sum_NaN {A : Type} (f : A -> number) (l : list A) :
  fold_left (fun sum s => add sum (f s)) l NaN = NaN.
Proof. induction l as [|x l IH]; [reflexivity | exact IH]. Qed.

Lemma sum_with_NaN {A : Type} (f : A -> number) (l : list A) (x : A) :
  In x l -> f x = NaN -> forall acc, fold_left (fun sum s => add sum (f s)) l acc = NaN.
Proof.
  induction l as [|y l IH]; intros Hin Hx acc; [contradiction|].
  cbn [fold_left]. destruct Hin as [-> | Hin].
  - rewrite Hx. destruct acc; apply sum_NaN.
  - now apply IH.
Qed.

End OverallScore.

(** A maximum that is not a number makes the overall score 0, whatever the
    other scores are. *)
Theorem calculateOverallScore_NaN_maximum
    (scores : list HeuristicScore.t) (s : HeuristicScore.t) :
  In s scores -> HeuristicScore.maxScore s = NaN ->
  calculateOverallScore scores = of_Z 0.
Proof.
  intros Hin Hmax. unfold calculateOverallScore.
  destruct (List.length scores =? 0)%nat; [reflexivity|]. cbv zeta.
  now rewrite (sum_with_NaN HeuristicScore.maxScore scores s Hin Hmax).
Qed.

Lemma calculateOverallScore_NaN_maximum_witness :
  calculateOverallScore
    [HeuristicScore.mk (of_Z 1) "Visibility of System Status" (of_Z 7) (of_Z 10);
     HeuristicScore.mk (of_Z 2) "Match Between System and the Real World" (of_Z 8) NaN]
  = of_Z 0.
Proof.
  apply (calculateOverallScore_NaN_maximum _
           (HeuristicScore.mk (of_Z 2) "Match Between System and the Real World" (of_Z 8) NaN));
    [simpl; tauto | reflexivity].
Defined.

(* ------------------------------------------------------------------ *)
(** ** The component tree *)
(* ------------------------------------------------------------------ *)

Section ComponentTrees.

(** Induction on a tree of components: a property that holds of a component
    whenever it holds of its children holds of every component. *)
Lemma ComponentSpec_induction (P : ComponentSpec.t -> Prop) :
  (forall spec, Forall P (ComponentSpec.children spec) -> P spec) ->
  forall spec, P spec.
Proof.
  intros step. fix IH 1. intros spec. apply step.
  destruct spec as [name description props state events requirements children].
  cbn [ComponentSpec.children].
  induction children as [|child children IHchildren]; constructor;
    [apply IH | exact IHchildren].
Qed.

Lemma renderComponentTree_unfold (spec : ComponentSpec.t) (lines : list string) (depth : nat) :
  renderComponentTree spec lines depth
  = fold_left (fun lines child => renderComponentTree child lines (depth + 1))
              (ComponentSpec.children spec) (lines ++ [tree_line spec depth])%list.
Proof. destruct spec. reflexivity. Qed.

Lemma preorder_unfold (spec : ComponentSpec.t) (depth : nat) :
  preorder spec depth
  = (spec, depth)
    :: flat_map (fun child => preorder child (depth + 1)) (ComponentSpec.children spec).
Proof. destruct spec. reflexivity. Qed.

Lemma component_count_unfold (spec : ComponentSpec.t) :
  component_count spec = S (list_sum (map component_count (ComponentSpec.children spec))).
Proof. destruct spec. reflexivity. Qed.

Lemma renderComponentTree_lines (spec : ComponentSpec.t) : forall lines depth,
  renderComponentTree spec lines depth
  = (lines ++ map (fun p => tree_line (fst p) (snd p)) (preorder spec depth))%list.
Proof.
  induction spec as [spec IH] using ComponentSpec_induction. intros lines depth.
  rewrite renderComponentTree_unfold, preorder_unfold. cbn [map fst snd].
  assert (forall children acc,
            Forall (fun child => forall lines depth,
                      renderComponentTree child lines depth
                      = (lines ++ map (fun p => tree_line (fst p) (snd p))
                                      (preorder child depth))%list) children ->
            fold_left (fun lines child => renderComponentTree child lines (depth + 1))
                      children acc
            = (acc ++ map (fun p => tree_line (fst p) (snd p))
                          (flat_map (fun child => preorder child (depth + 1)) children))%list)
    as Hfold.
  { intros children acc H. revert acc.
    induction H as [|child children Hchild _ IHchildren]; intros acc.
    - simpl. now rewrite app_nil_r.
    - cbn [fold_left flat_map]. rewrite Hchild, IHchildren, map_app, app_assoc.
      reflexivity. }
  rewrite (Hfold _ _ IH), <- app_assoc. reflexivity.
Qed.

Lemma preorder_length (spec : ComponentSpec.t) : forall depth,
  List.length (preorder spec depth) = component_count spec.
Proof.
  induction spec as [spec IH] using ComponentSpec_induction. intros depth.
  rewrite preorder_unfold, component_count_unfold. cbn [List.length]. f_equal.
  revert IH. generalize (ComponentSpec.children spec) as children. intros children IH.
  induction IH as [|child children Hchild _ IHchildren]; [reflexivity|].
  cbn [flat_map map list_sum]. now rewrite length_app, Hchild, IHchildren.
Qed.

Lemma preorder_depth (spec : ComponentSpec.t) : forall depth,
  Forall (fun p => (depth <= snd p)%nat) (preorder spec depth).
Proof.
  induction spec as [spec IH] using ComponentSpec_induction. intros depth.
  rewrite preorder_unfold. constructor; [simpl; lia|].
  revert IH. generalize (ComponentSpec.children spec) as children. intros children IH.
  induction IH as [|child children Hchild _ IHchildren]; [constructor|].
  cbn [flat_map]. apply Forall_app. split; [|exact IHchildren].
  eapply Forall_impl; [|apply Hchild]. intros p Hp. simpl in Hp. lia.
Qed.

Lemma String_repeat_add (s : string) (n m : nat) :
  String_repeat s (n + m) = String_repeat s n ++ String_repeat s m.
Proof.
  induction n as [|n IH]; simpl; [reflexivity|]. now rewrite IH, append_assoc.
Qed.

End ComponentTrees.

(** [renderComponentTree] leaves the lines it is given in place and
    pushes one line per component of the tree, a component before its
    children and the children in their order; every pushed line starts
    with the indentation of the depth the call was made at. *)
Theorem renderComponentTree_preorder
    (spec : ComponentSpec.t) (lines : list string) (depth : nat) :
  exists pushed,
    renderComponentTree spec lines depth = (lines ++ pushed)%list /\
    pushed = map (fun p => tree_line (fst p) (snd p)) (preorder spec depth) /\
    List.length pushed = component_count spec /\
    Forall (fun line => exists rest, line = String_repeat "  " depth ++ rest) pushed.
Proof.
  eexists. split; [apply renderComponentTree_lines|]. split; [reflexivity|].
  split; [now rewrite length_map, preorder_length|].
  apply Forall_forall. intros line Hin. apply in_map_iff in Hin.
  destruct Hin as ([c d] & <- & Hin). cbn [fst snd].
  pose proof (preorder_depth spec depth) as Hdepth.
  rewrite Forall_forall in Hdepth. specialize (Hdepth _ Hin). cbn [snd] in Hdepth.
  unfold tree_line. cbv zeta.
  match goal with
  | |- exists rest, _ ++ ?tail = _ => exists (String_repeat "  " (d - depth) ++ tail)
  end.
  rewrite <- (append_assoc (String_repeat "  " depth)),
    <- (String_repeat_add "  " depth (d - depth)).
  replace (depth + (d - depth))%nat with d by lia. reflexivity.
Qed.

(* ------------------------------------------------------------------ *)
(** ** Cells of the reports and the breakpoints *)
(* ------------------------------------------------------------------ *)

Section RemForm.


End RemForm.



(** A contrast ratio from 0 up to 10^21 is printed with a point and exactly
    two decimals, and the numeral denotes the ratio rounded to hundredths. *)
Theorem contrast_cell_two_decimals (ratio : Q) :
  0 <= ratio -> ratio < 10 ^ 21 ->
  exists whole decimals w,
    contrast_cell (Fin ratio) = whole ++ "." ++ decimals ++ ":1" /\
    String.length decimals = 2%nat /\
    decimal_value (whole ++ "." ++ decimals) = Some w /\
    w == round_at 100 ratio /\
    ratio - (1 # 200) <= w /\ w <= ratio + (1 # 200).
Proof.
  intros H0 Hbig. unfold contrast_cell.
  destruct (Number_toFixed_shape ratio 1 H0 Hbig)
    as (p & r & i & v & -> & Hne & Hp & Hr & Hlen & Hn).
  assert (decimal_value (p ++ "." ++ r) = numeral_value 0 (p ++ "." ++ r)) as Hdec.
  { destruct p as [|c p]; [contradiction|].
    cbn [digits_value] in Hp. destruct (digit_of c) as [d|] eqn:Hd; [|discriminate].
    exact (decimal_value_unsigned c _ d Hd). }
  exists p, r, (inject_Z i + inject_Z v / inject_Z (10 ^ Z.of_nat (String.length r))).
  split; [now rewrite !append_assoc|]. split; [exact Hlen|].
  split; [rewrite Hdec; exact (numeral_value_point p r v 0 i Hp Hr)|].
  assert (inject_Z i + inject_Z v / inject_Z (10 ^ Z.of_nat (String.length r))
          == round_at 100 ratio) as Hw.
  { rewrite Hlen. unfold round_at.
    change (10 ^ Z.of_nat 2)%Z with 100%Z in *.
    change (10 ^ Z.of_nat 2) with (inject_Z 100) in Hn.
    rewrite <- Hn, inject_Z_plus, inject_Z_mult. field. }
  split; [exact Hw|].
  destruct (round_at_close 100 ratio eq_refl) as [Hlo Hhi].
  rewrite Hw. split; [exact Hlo | exact Hhi].
Qed.

Lemma contrast_cell_two_decimals_witness :
  exists whole decimals w,
    contrast_cell (Fin 4.5371) = whole ++ "." ++ decimals ++ ":1" /\
    String.length decimals = 2%nat /\
    decimal_value (whole ++ "." ++ decimals) = Some w /\
    w == round_at 100 4.5371 /\
    4.5371 - (1 # 200) <= w /\ w <= 4.5371 + (1 # 200).
Proof. apply contrast_cell_two_decimals; [discriminate | reflexivity]. Defined.

Section Bars.



Lemma Qtrunc_inject_Z (z : Z) : Qtrunc (inject_Z z) = z.
Proof. unfold Qtrunc. simpl. apply Z.quot_1_r. Qed.

Lemma Qtrunc_negative (q : Q) : q <= -1 -> (Qtrunc q < 0)%Z.
Proof.
  destruct q as [n d]. unfold Qle, Qtrunc. cbn [Qnum Qden]. intros H.
  assert (Z.pos d <= - n)%Z as Hd by lia.
  rewrite <- (Z.opp_involutive n), Z.quot_opp_l by lia.
  pose proof (Z.quot_str_pos (- n) (Z.pos d) ltac:(lia)). lia.
Qed.

End Bars.

(** The bar of a heuristic: for whole numbers with [0 <= score <= maxScore]
    it is [score] full blocks and [maxScore - score] empty ones; a score
    that exceeds the maximum by 1 or more, or lies at -1 or below, raises
    the [RangeError] of [repeat], and no report is made. *)
Theorem score_bar_cells (full empty : string) :
  (forall score maxScore : Z,
     (0 <= score <= maxScore)%Z ->
     score_bar full empty (of_Z score) (of_Z maxScore)
     = Some (String_repeat full (Z.to_nat score)
             ++ String_repeat empty (Z.to_nat (maxScore - score)))) /\
  (forall score maxScore : Q,
     maxScore - score <= -1 \/ score <= -1 ->
     score_bar full empty (Fin score) (Fin maxScore) = None).
Proof.
  split.
  - intros score maxScore [H0 H1]. unfold score_bar, repeat_count, of_Z, sub, lift2.
    rewrite Qtrunc_inject_Z.
    destruct (Z.ltb_spec score 0) as [|_]; [lia|].
    assert (Qtrunc (inject_Z maxScore - inject_Z score) = (maxScore - score)%Z) as ->.
    { unfold Qminus. rewrite <- inject_Z_opp, <- inject_Z_plus. apply Qtrunc_inject_Z. }
    destruct (Z.ltb_spec (maxScore - score) 0) as [|_]; [lia | reflexivity].
  - intros score maxScore H. unfold score_bar, repeat_count, sub, lift2.
    destruct (Z.ltb_spec (Qtrunc score) 0) as [_ | Hs]; [reflexivity|].
    destruct H as [H | H].
    + apply Qtrunc_negative in H. apply Z.ltb_lt in H. now rewrite H.
    + apply Qtrunc_negative in H. lia.
Qed.

Lemma score_bar_cells_witness :
  score_bar "#" "-" (of_Z 7) (of_Z 10) = Some "#######---" /\
  score_bar "#" "-" (Fin 11) (Fin 10) = None.
Proof.
  split.
  - apply (proj1 (score_bar_cells "#" "-") 7%Z 10%Z). lia.
  - apply (proj2 (score_bar_cells "#" "-") 11 10). left. discriminate.
Defined.


(* ------------------------------------------------------------------ *)
(** ** The component inventory *)
(* ------------------------------------------------------------------ *)

Section Grouping.

Lemma get_set_same {A : Type} (obj : list (string * A)) (key : string) (v : A) :
  get_property (set_property obj key v) key = Some v.
Proof.
  induction obj as [|[k w] obj IH]; cbn [set_property get_property].
  - now rewrite String.eqb_refl.
  - destruct (String.eqb k key) eqn:E; cbn [get_property]; now rewrite E.
Qed.

Lemma get_set_other {A : Type} (obj : list (string * A)) (key other : string) (v : A) :
  key <> other ->
  get_property (set_property obj key v) other = get_property obj other.
Proof.
  intros Hne. induction obj as [|[k w] obj IH]; cbn [set_property get_property].
  - destruct (String.eqb_spec key other); [contradiction | reflexivity].
  - destruct (String.eqb_spec k key) as [-> | Hk]; cbn [get_property].
    + destruct (String.eqb_spec key other); [contradiction | reflexivity].
    + now rewrite IH.
Qed.

Lemma inherited_name (priority : string) :
  existsb (String.eqb priority) Object_prototype_names = true
  <-> In priority Object_prototype_names.
Proof.
  rewrite existsb_exists. split.
  - intros (k & Hin & Heq). apply String.eqb_eq in Heq. now subst.
  - intros Hin. exists priority. split; [exact Hin | apply String.eqb_refl].
Qed.

Lemma group_fold_None (inventory : list InventoryItem.t) :
  fold_left (fun grouped comp =>
               match grouped with Some g => group_push g comp | None => None end)
            inventory None = None.
Proof. induction inventory as [|c inventory IH]; [reflexivity | exact IH]. Qed.

(** After the loop the group of a priority holds the components of that
    priority, in the order of the inventory. *)
Lemma group_fold (inventory : list InventoryItem.t) :
  Forall (fun c => ~ In (InventoryItem.priority c) Object_prototype_names) inventory ->
  forall g, exists g',
    fold_left (fun grouped comp =>
                 match grouped with Some g => group_push g comp | None => None end)
              inventory (Some g) = Some g' /\
    forall p,
      get_property g' p
      = match get_property g p, filter (has_priority p) inventory with
        | None, [] => None
        | None, items => Some items
        | Some before, items => Some (before ++ items)%list
        end.
Proof.
  induction 1 as [|c inventory Hc _ IH]; intros g.
  - exists g. split; [reflexivity|]. intros p. cbn [filter].
    destruct (get_property g p); [now rewrite app_nil_r | reflexivity].
  - cbn [fold_left]. unfold group_push at 2. cbv zeta.
    set (p0 := InventoryItem.priority c) in *.
    assert (existsb (String.eqb p0) Object_prototype_names = false) as Hproto.
    { destruct (existsb _ _) eqn:E; [|reflexivity]. apply inherited_name in E. contradiction. }
    assert (forall g1 first,
              get_property g1 p0 = Some (first ++ [c])%list ->
              (forall p, p0 <> p -> get_property g1 p = get_property g p) ->
              match get_property g p0 with
              | Some before => first = before
              | None => first = []
              end ->
              exists g',
                fold_left (fun grouped comp =>
                             match grouped with
                             | Some g => group_push g comp
                             | None => None
                             end) inventory (Some g1) = Some g' /\
                forall p,
                  get_property g' p
                  = match get_property g p, filter (has_priority p) (c :: inventory) with
                    | None, [] => None
                    | None, items => Some items
                    | Some before, items => Some (before ++ items)%list
                    end) as Hstep.
    { intros g1 first Hsame Hother Hfirst.
      destruct (IH g1) as (g' & Hg' & Hget). exists g'. split; [exact Hg'|].
      intros p. rewrite Hget. cbn [filter].
      change (has_priority p c) with (String.eqb p0 p).
      destruct (String.eqb_spec p0 p) as [<- | Hne].
      - rewrite Hsame. destruct (get_property g p0) as [before|]; subst first.
        + now rewrite <- app_assoc.
        + reflexivity.
      - rewrite (Hother p Hne). reflexivity. }
    destruct (get_property g p0) as [items|] eqn:Hg.
    + apply (Hstep _ items); [apply get_set_same | intros p Hp; now apply get_set_other
                             | reflexivity].
    + rewrite Hproto.
      apply (Hstep _ []); [apply get_set_same | intros p Hp; now apply get_set_other
                          | reflexivity].
Qed.

(** A priority that names an inherited property stops the loop. *)
Lemma group_fold_error (inventory : list InventoryItem.t) :
  (exists c, In c inventory /\ In (InventoryItem.priority c) Object_prototype_names) ->
  forall g,
    (forall k, In k Object_prototype_names -> get_property g k = None) ->
    fold_left (fun grouped comp =>
                 match grouped with Some g => group_push g comp | None => None end)
              inventory (Some g) = None.
Proof.
  induction inventory as [|c inventory IH]; intros (bad & Hin & Hbad) g Hg.
  - contradiction.
  - cbn [fold_left]. unfold group_push at 2. cbv zeta.
    set (p0 := InventoryItem.priority c) in *.
    destruct (existsb (String.eqb p0) Object_prototype_names) eqn:Hproto.
    + apply inherited_name in Hproto. rewrite (Hg p0 Hproto). apply group_fold_None.
    + assert (~ In p0 Object_prototype_names) as Hp0.
      { intros H. apply inherited_name in H. congruence. }
      assert (exists c', In c' inventory /\
                In (InventoryItem.priority c') Object_prototype_names) as Hrest.
      { destruct Hin as [<- | Hin]; [contradiction | now exists bad]. }
      destruct (get_property g p0) as [items|]; apply (IH Hrest);
        intros k Hk; (rewrite get_set_other; [now apply Hg | intros ->; contradiction]).
Qed.

End Grouping.

(** The inventory of the report: the essential components, then the
    recommended ones, then the optional ones, each group under its heading
    and in the order of the inventory, a group without components left out
    and components of another priority not listed.  A priority that names
    a property every object inherits raises a [TypeError] instead. *)
Theorem inventory_lines_groups (inventory : list InventoryItem.t) :
  (Forall (fun c => ~ In (InventoryItem.priority c) Object_prototype_names) inventory ->
   inventory_lines inventory
   = Some (group_lines "Essential" (filter (has_priority "essential") inventory)
           ++ group_lines "Recommended" (filter (has_priority "recommended") inventory)
           ++ group_lines "Optional" (filter (has_priority "optional") inventory))%list) /\
  ((exists c, In c inventory /\ In (InventoryItem.priority c) Object_prototype_names) ->
   inventory_lines inventory = None).
Proof.
  unfold inventory_lines, group_inventory. split.
  - intros Hvalid. destruct (group_fold inventory Hvalid []) as (g & -> & Hget).
    cbn [flat_map]. rewrite !Hget. cbn [get_property capitalize].
    f_equal. rewrite app_nil_r.
    repeat match goal with
           | |- context [filter ?p inventory] => destruct (filter p inventory)
           end; reflexivity.
  - intros Hbad. now rewrite (group_fold_error inventory Hbad []).
Qed.

Lemma inventory_lines_groups_witness :
  inventory_lines
    [InventoryItem.mk "Toast" "feedback" "optional" "Short notice";
     InventoryItem.mk "Button" "input" "essential" "Triggers an action";
     InventoryItem.mk "Input" "input" "essential" "One line of text"]
  = Some ["### Essential"; ""; "- **Button** (input): Triggers an action";
          "- **Input** (input): One line of text"; "";
          "### Optional"; ""; "- **Toast** (feedback): Short notice"; ""] /\
  inventory_lines [InventoryItem.mk "Button" "input" "constructor" ""] = None.
Proof.
  split.
  - rewrite (proj1 (inventory_lines_groups _)); [reflexivity|].
    repeat constructor; simpl; intuition discriminate.
  - apply (proj2 (inventory_lines_groups _)).
    eexists. split; [left; reflexivity | simpl; tauto].
Defined.

(* ------------------------------------------------------------------ *)
(** ** Double arithmetic                                               *)
(* ------------------------------------------------------------------ *)

Import Binary64.

(* ------------------------------------------------------------------ *)
(** ** Doubles: powers of two and the unit in the last place *)
(* ------------------------------------------------------------------ *)

Section Powers.

Lemma pow2_pos (e : Z) : 0 < pow2 e.
Proof. apply Qpower_0_lt. reflexivity. Qed.

Lemma pow2_add (a b : Z) : pow2 (a + b) == pow2 a * pow2 b.
Proof. apply Qpower_plus. discriminate. Qed.

Lemma pow2_le (a b : Z) : (a <= b)%Z -> pow2 a <= pow2 b.
Proof. intros H. apply Qpower_le_compat_l; [exact H | discriminate]. Qed.

Lemma pow2_lt (a b : Z) : (a < b)%Z -> pow2 a < pow2 b.
Proof. intros H. apply Qpower_lt_compat_l; [exact H | reflexivity]. Qed.


Lemma pow2_Z (n : Z) : (0 <= n)%Z -> pow2 n == inject_Z (2 ^ n).
Proof. intros H. unfold pow2. rewrite (Zpower_Qpower 2 n H). reflexivity. Qed.

Lemma pow2_opp (e : Z) : pow2 e * pow2 (- e) == 1.
Proof.
  rewrite <- pow2_add. replace (e + - e)%Z with 0%Z by lia. reflexivity.
Qed.

Lemma pow2_div (x : Q) (e : Z) : x / pow2 e == x * pow2 (- e).
Proof.
  pose proof (pow2_pos e) as Hp. pose proof (pow2_opp e) as Ho.
  apply (Qmult_inj_r _ _ (pow2 e)); [lra |].
  rewrite Qmult_comm, Qmult_div_r by lra.
  rewrite <- Qmult_assoc, (Qmult_comm (pow2 (- e))), Ho. ring.
Qed.

Lemma pow2_succ (e : Z) : pow2 (e + 1) == 2 * pow2 e.
Proof. rewrite pow2_add. change (pow2 1) with 2. ring. Qed.

End Powers.

Opaque Binary64.pow2.

Section Scaling.

Lemma scale_lt (x : Q) (a b : Z) : x * pow2 a < pow2 b -> x < pow2 (b - a).
Proof.
  intros H. pose proof (pow2_pos a) as Ha.
  replace (b - a)%Z with (b + - a)%Z by lia. rewrite pow2_add.
  pose proof (pow2_opp a) as Ho. pose proof (pow2_pos (- a)) as Hn.
  assert (x == x * pow2 a * pow2 (- a)) as -> by (rewrite <- Qmult_assoc, Ho; ring).
  apply Qmult_lt_compat_r; assumption.
Qed.

Lemma scale_le (x : Q) (a b : Z) : pow2 b <= x * pow2 a -> pow2 (b - a) <= x.
Proof.
  intros H. pose proof (pow2_pos a) as Ha.
  replace (b - a)%Z with (b + - a)%Z by lia. rewrite pow2_add.
  pose proof (pow2_opp a) as Ho. pose proof (pow2_pos (- a)) as Hn.
  assert (x == x * pow2 a * pow2 (- a)) as -> by (rewrite <- Qmult_assoc, Ho; ring).
  apply Qmult_le_compat_r; [assumption | lra].
Qed.

End Scaling.

Section Ulp.

Lemma ulp_exponent_spec (x : Q) :
  0 <= x ->
  (-1074 <= ulp_exponent x)%Z /\
  x < pow2 (ulp_exponent x + 53) /\
  (ulp_exponent x = (-1074)%Z \/ pow2 (ulp_exponent x + 52) <= x).
Proof.
  intros Hx. unfold ulp_exponent.
  set (N := Qfloor (x * pow2 1074)).
  pose proof (Qfloor_le (x * pow2 1074)) as Hlo.
  pose proof (Qlt_floor (x * pow2 1074)) as Hhi.
  fold N in Hlo, Hhi.
  assert (0 <= N)%Z as HN.
  { change 0%Z with (Qfloor 0). apply Qfloor_resp_le.
    pose proof (pow2_pos 1074). nra. }
  destruct (N <? 2 ^ 52)%Z eqn:E.
  - apply Z.ltb_lt in E. split; [lia |]. split; [| left; reflexivity].
    assert (x < pow2 (52 - 1074)) as H.
    { apply scale_lt. rewrite (pow2_Z 52) by lia.
      eapply Qlt_le_trans; [exact Hhi |]. rewrite <- Zle_Qle. lia. }
    eapply Qlt_trans; [exact H |]. apply pow2_lt. lia.
  - apply Z.ltb_ge in E.
    assert (0 < N)%Z as Hpos by lia.
    pose proof (Z.log2_spec N Hpos) as [Hl Hu].
    assert (52 <= Z.log2 N)%Z as HL.
    { change 52%Z with (Z.log2 (2 ^ 52)). apply Z.log2_le_mono. exact E. }
    split; [lia |]. split.
    + replace (Z.log2 N - 52 - 1074 + 53)%Z with (Z.succ (Z.log2 N) - 1074)%Z by lia.
      apply scale_lt. rewrite (pow2_Z (Z.succ (Z.log2 N))) by lia.
      eapply Qlt_le_trans; [exact Hhi |]. rewrite <- Zle_Qle. lia.
    + right.
      replace (Z.log2 N - 52 - 1074 + 52)%Z with (Z.log2 N - 1074)%Z by lia.
      apply scale_le. rewrite (pow2_Z (Z.log2 N)) by lia.
      eapply Qle_trans; [| exact Hlo]. rewrite <- Zle_Qle. exact Hl.
Qed.

Lemma ulp_exponent_unique (x : Q) (v : Z) :
  0 <= x -> (-1074 <= v)%Z -> x < pow2 (v + 53) ->
  (v = (-1074)%Z \/ pow2 (v + 52) <= x) ->
  ulp_exponent x = v.
Proof.
  intros Hx Hv Hhi Hlo.
  destruct (ulp_exponent_spec x Hx) as (Hu & Uhi & Ulo).
  destruct (Z.lt_trichotomy (ulp_exponent x) v) as [H | [H | H]]; [| exact H |].
  - exfalso. destruct Hlo as [Hlo | Hlo]; [lia |].
    assert (pow2 (ulp_exponent x + 53) <= pow2 (v + 52)) by (apply pow2_le; lia).
    lra.
  - exfalso. destruct Ulo as [Ulo | Ulo]; [lia |].
    assert (pow2 (v + 53) <= pow2 (ulp_exponent x + 52)) by (apply pow2_le; lia).
    lra.
Qed.

Lemma ulp_exponent_mono (x y : Q) :
  0 <= x -> x <= y -> (ulp_exponent x <= ulp_exponent y)%Z.
Proof.
  intros Hx Hxy.
  destruct (ulp_exponent_spec x Hx) as (Hu & Uhi & Ulo).
  destruct (ulp_exponent_spec y) as (Hv & Vhi & Vlo); [lra |].
  destruct (Z.le_gt_cases (ulp_exponent x) (ulp_exponent y)) as [H | H]; [exact H |].
  exfalso. destruct Ulo as [Ulo | Ulo]; [lia |].
  assert (pow2 (ulp_exponent y + 53) <= pow2 (ulp_exponent x + 52)) by (apply pow2_le; lia).
  lra.
Qed.

Lemma ulp_exponent_comp (x y : Q) : x == y -> ulp_exponent x = ulp_exponent y.
Proof.
  intros H. unfold ulp_exponent.
  rewrite (Qfloor_comp (x * pow2 1074) (y * pow2 1074)) by (rewrite H; reflexivity).
  reflexivity.
Qed.

End Ulp.

(* ------------------------------------------------------------------ *)
(** ** Doubles: rounding to the nearest, ties to even *)
(* ------------------------------------------------------------------ *)

Section HalfEven.

Lemma round_half_even_bounds (m : Q) :
  m - (1 # 2) <= inject_Z (round_half_even m) /\
  inject_Z (round_half_even m) <= m + (1 # 2).
Proof.
  unfold round_half_even.
  pose proof (Qfloor_le m) as Hlo. pose proof (Qlt_floor m) as Hhi.
  rewrite inject_Z_plus in Hhi. change (inject_Z 1) with 1 in Hhi.
  destruct (Qcompare_spec (m - inject_Z (Qfloor m)) (1 # 2)) as [H | H | H].
  - destruct (Z.even (Qfloor m)); rewrite ?inject_Z_plus;
      change (inject_Z 1) with 1; lra.
  - lra.
  - rewrite inject_Z_plus. change (inject_Z 1) with 1. lra.
Qed.

Lemma round_half_even_comp (m m' : Q) :
  m == m' -> round_half_even m = round_half_even m'.
Proof.
  intros H. unfold round_half_even.
  rewrite (Qfloor_comp m m' H).
  assert (Qcompare (m - inject_Z (Qfloor m')) (1 # 2)
          = Qcompare (m' - inject_Z (Qfloor m')) (1 # 2)) as ->
    by (apply Qcompare_comp; [rewrite H; reflexivity | reflexivity]).
  reflexivity.
Qed.

Lemma round_half_even_Z (k : Z) : round_half_even (inject_Z k) = k.
Proof.
  unfold round_half_even. rewrite Qfloor_Z.
  destruct (Qcompare_spec (inject_Z k - inject_Z k) (1 # 2)) as [H | H | H];
    [lra | reflexivity | lra].
Qed.

Lemma round_half_even_mono (m1 m2 : Q) :
  m1 <= m2 -> (round_half_even m1 <= round_half_even m2)%Z.
Proof.
  intros H.
  pose proof (Qfloor_resp_le _ _ H) as Hf.
  destruct (Z.eq_dec (Qfloor m1) (Qfloor m2)) as [E | E].
  - unfold round_half_even. rewrite E.
    destruct (Qcompare_spec (m1 - inject_Z (Qfloor m2)) (1 # 2)) as [H1 | H1 | H1];
    destruct (Qcompare_spec (m2 - inject_Z (Qfloor m2)) (1 # 2)) as [H2 | H2 | H2];
      try lra; destruct (Z.even (Qfloor m2)); lia.
  - pose proof (round_half_even_bounds m1) as [_ B1].
    pose proof (round_half_even_bounds m2) as [B2 _].
    assert (round_half_even m1 <= Qfloor m1 + 1)%Z as U.
    { unfold round_half_even.
      destruct (Qcompare (m1 - inject_Z (Qfloor m1)) (1 # 2)); [| lia | lia].
      destruct (Z.even (Qfloor m1)); lia. }
    assert (Qfloor m2 <= round_half_even m2)%Z as V.
    { unfold round_half_even.
      destruct (Qcompare (m2 - inject_Z (Qfloor m2)) (1 # 2)); [| lia | lia].
      destruct (Z.even (Qfloor m2)); lia. }
    lia.
Qed.

End HalfEven.

Section Nearest.

Lemma nearest64_comp (x y : Q) : x == y -> nearest64 x == nearest64 y.
Proof.
  intros H. unfold nearest64. rewrite (ulp_exponent_comp x y H).
  rewrite (round_half_even_comp (x / pow2 (ulp_exponent y)) (y / pow2 (ulp_exponent y)))
    by (rewrite H; reflexivity).
  reflexivity.
Qed.

Lemma nearest64_error (x : Q) :
  Qabs (nearest64 x - x) <= pow2 (ulp_exponent x - 1).
Proof.
  unfold nearest64. set (u := ulp_exponent x).
  pose proof (pow2_pos u) as Hu.
  pose proof (round_half_even_bounds (x / pow2 u)) as [Hlo Hhi].
  assert (pow2 u == 2 * pow2 (u - 1)) as Hs.
  { rewrite <- pow2_succ. replace (u - 1 + 1)%Z with u by lia. reflexivity. }
  assert (x == x / pow2 u * pow2 u) as Hx by (field; lra).
  set (m := x / pow2 u) in *. set (n := inject_Z (round_half_even m)) in *.
  apply Qabs_Qle_condition. split; nra.
Qed.

Lemma nearest64_exact (x : Q) (k : Z) :
  x / pow2 (ulp_exponent x) == inject_Z k -> nearest64 x == x.
Proof.
  intros H. unfold nearest64.
  rewrite (round_half_even_comp _ _ H), round_half_even_Z, <- H.
  field. pose proof (pow2_pos (ulp_exponent x)). lra.
Qed.

Lemma nearest64_zero : nearest64 0 == 0.
Proof. reflexivity. Qed.

Lemma mantissa_bounds (x : Q) :
  0 <= x ->
  0 <= x / pow2 (ulp_exponent x) < pow2 53 /\
  (ulp_exponent x = (-1074)%Z \/ pow2 52 <= x / pow2 (ulp_exponent x)).
Proof.
  intros Hx. destruct (ulp_exponent_spec x Hx) as (Hu & Hhi & Hlo).
  set (u := ulp_exponent x) in *.
  pose proof (pow2_pos u) as Hp. pose proof (pow2_pos (- u)) as Hn.
  rewrite pow2_div. rewrite !pow2_add in *. 
  pose proof (pow2_opp u) as Ho.
  repeat split.
  - nra.
  - assert (x * pow2 (- u) < pow2 u * pow2 53 * pow2 (- u)) by nra.
    assert (pow2 u * pow2 53 * pow2 (- u) == pow2 53) as E.
    { rewrite (Qmult_comm (pow2 u)), <- Qmult_assoc, Ho. ring. }
    lra.
  - destruct Hlo as [Hlo | Hlo]; [left; exact Hlo | right].
    assert (pow2 u * pow2 52 * pow2 (- u) <= x * pow2 (- u)) by nra.
    assert (pow2 u * pow2 52 * pow2 (- u) == pow2 52) as E.
    { rewrite (Qmult_comm (pow2 u)), <- Qmult_assoc, Ho. ring. }
    lra.
Qed.

Lemma significand_bounds (x : Q) :
  0 <= x ->
  (0 <= round_half_even (x / pow2 (ulp_exponent x)) <= 2 ^ 53)%Z /\
  (ulp_exponent x = (-1074)%Z \/
   (2 ^ 52 <= round_half_even (x / pow2 (ulp_exponent x)))%Z).
Proof.
  intros Hx. destruct (mantissa_bounds x Hx) as ((Hlo & Hhi) & Hn).
  set (m := x / pow2 (ulp_exponent x)) in *.
  repeat split.
  - rewrite <- (round_half_even_Z 0). apply round_half_even_mono. exact Hlo.
  - rewrite <- (round_half_even_Z (2 ^ 53)). apply round_half_even_mono.
    rewrite <- pow2_Z by lia. lra.
  - destruct Hn as [Hn | Hn]; [left; exact Hn | right].
    rewrite <- (round_half_even_Z (2 ^ 52)). apply round_half_even_mono.
    rewrite <- pow2_Z by lia. exact Hn.
Qed.

Lemma nearest64_binade (x : Q) :
  0 <= x ->
  0 <= nearest64 x <= pow2 (ulp_exponent x + 53) /\
  (ulp_exponent x = (-1074)%Z \/ pow2 (ulp_exponent x + 52) <= nearest64 x).
Proof.
  intros Hx. destruct (significand_bounds x Hx) as ((Hlo & Hhi) & Hn).
  unfold nearest64. set (n := round_half_even (x / pow2 (ulp_exponent x))) in *.
  set (u := ulp_exponent x) in *.
  pose proof (pow2_pos u) as Hp.
  rewrite !pow2_add, (pow2_Z 53), (pow2_Z 52) by lia.
  rewrite Zle_Qle in Hlo, Hhi. change (inject_Z 0) with 0 in Hlo.
  repeat split.
  - apply Qmult_le_0_compat; lra.
  - rewrite (Qmult_comm (pow2 u)). apply Qmult_le_compat_r; lra.
  - destruct Hn as [Hn | Hn]; [left; exact Hn | right].
    rewrite Zle_Qle in Hn.
    rewrite (Qmult_comm (pow2 u)). apply Qmult_le_compat_r; lra.
Qed.

Lemma nearest64_mono (x y : Q) :
  0 <= x -> x <= y -> nearest64 x <= nearest64 y.
Proof.
  intros Hx Hxy. assert (0 <= y) as Hy by lra.
  pose proof (ulp_exponent_mono x y Hx Hxy) as Hu.
  destruct (Z.eq_dec (ulp_exponent x) (ulp_exponent y)) as [E | E].
  - unfold nearest64. rewrite E.
    pose proof (pow2_pos (ulp_exponent y)) as Hp.
    apply Qmult_le_compat_r; [| lra].
    rewrite <- Zle_Qle. apply round_half_even_mono.
    apply Qmult_le_compat_r; [exact Hxy |].
    apply Qlt_le_weak, Qinv_lt_0_compat. exact Hp.
  - destruct (nearest64_binade x Hx) as ((_ & Hhi) & _).
    destruct (nearest64_binade y Hy) as (_ & [Hlo | Hlo]).
    + destruct (ulp_exponent_spec x Hx) as (H & _). lia.
    + assert (pow2 (ulp_exponent x + 53) <= pow2 (ulp_exponent y + 52))
        by (apply pow2_le; lia).
      lra.
Qed.

Lemma nearest64_idem (x : Q) : 0 <= x -> nearest64 (nearest64 x) == nearest64 x.
Proof.
  intros Hx.
  destruct (nearest64_binade x Hx) as ((Hlo & Hhi) & Hn).
  destruct (ulp_exponent_spec x Hx) as (Hu & _ & _).
  set (u := ulp_exponent x) in *.
  pose proof (pow2_pos u) as Hp.
  destruct (Qlt_le_dec (nearest64 x) (pow2 (u + 53))) as [H | H].
  - assert (ulp_exponent (nearest64 x) = u) as E
      by (apply ulp_exponent_unique; assumption).
    apply (nearest64_exact _ (round_half_even (x / pow2 u))).
    rewrite E. unfold nearest64 at 1. fold u. field. lra.
  - assert (nearest64 x == pow2 (u + 53)) as Hy by lra.
    assert (ulp_exponent (nearest64 x) = (u + 1)%Z) as E.
    { apply ulp_exponent_unique; [lra | lia | |].
      - rewrite Hy. apply pow2_lt. lia.
      - right. replace (u + 1 + 52)%Z with (u + 53)%Z by lia. lra. }
    apply (nearest64_exact _ (2 ^ 52)).
    rewrite E, Hy, <- pow2_Z by lia.
    replace (u + 53)%Z with ((u + 1) + 52)%Z by lia. rewrite pow2_add.
    field. pose proof (pow2_pos (u + 1)). lra.
Qed.

End Nearest.

(* ------------------------------------------------------------------ *)
(** ** Doubles: the rounded value of an operation *)
(* ------------------------------------------------------------------ *)

Section Rounded.

Lemma negative_spec (q : Q) : negative q = true <-> q < 0.
Proof.
  unfold negative, Qlt. simpl. rewrite Z.ltb_lt. lia.
Qed.

Lemma negative_false (q : Q) : negative q = false <-> 0 <= q.
Proof.
  unfold negative, Qle. simpl. rewrite Z.ltb_ge. lia.
Qed.

Lemma rounded_nonneg (q : Q) : 0 <= q -> rounded q = nearest64 q.
Proof.
  intros H. unfold rounded. apply negative_false in H. rewrite H. reflexivity.
Qed.

Lemma rounded_neg (q : Q) : q < 0 -> rounded q = - nearest64 (- q).
Proof.
  intros H. unfold rounded. apply negative_spec in H. rewrite H. reflexivity.
Qed.

Lemma rounded_comp (q q' : Q) : q == q' -> rounded q == rounded q'.
Proof.
  intros H. destruct (Qlt_le_dec q 0) as [N | N].
  - rewrite (rounded_neg q N), (rounded_neg q') by lra.
    rewrite (nearest64_comp (- q) (- q')) by (rewrite H; reflexivity). reflexivity.
  - rewrite (rounded_nonneg q N), (rounded_nonneg q') by lra.
    apply nearest64_comp. exact H.
Qed.

Lemma rounded_sign (q : Q) :
  (0 <= q -> 0 <= rounded q) /\ (q <= 0 -> rounded q <= 0).
Proof.
  split; intros H.
  - rewrite (rounded_nonneg q H). apply nearest64_binade. exact H.
  - destruct (Qlt_le_dec q 0) as [N | N].
    + rewrite (rounded_neg q N).
      assert (0 <= nearest64 (- q)) by (apply nearest64_binade; lra). lra.
    + rewrite (rounded_nonneg q N), (nearest64_comp q 0) by lra.
      rewrite nearest64_zero. lra.
Qed.

Lemma rounded_opp (q : Q) : rounded (- q) == - rounded q.
Proof.
  destruct (Qlt_le_dec q 0) as [N | N].
  - rewrite (rounded_neg q N), (rounded_nonneg (- q)) by lra. ring.
  - destruct (Qlt_le_dec 0 q) as [P | P].
    + rewrite (rounded_nonneg q N), (rounded_neg (- q)) by lra.
      rewrite (nearest64_comp (- - q) q) by ring. reflexivity.
    + rewrite (rounded_nonneg q N), (rounded_nonneg (- q)) by lra.
      rewrite (nearest64_comp (- q) 0), (nearest64_comp q 0) by lra.
      rewrite nearest64_zero. reflexivity.
Qed.

Lemma rounded_mono (q1 q2 : Q) : q1 <= q2 -> rounded q1 <= rounded q2.
Proof.
  intros H. destruct (Qlt_le_dec q1 0) as [N1 | N1].
  - destruct (Qlt_le_dec q2 0) as [N2 | N2].
    + rewrite (rounded_neg q1 N1), (rounded_neg q2 N2).
      assert (nearest64 (- q2) <= nearest64 (- q1)) by (apply nearest64_mono; lra).
      lra.
    + pose proof (proj2 (rounded_sign q1)). pose proof (proj1 (rounded_sign q2)). lra.
  - rewrite (rounded_nonneg q1 N1), (rounded_nonneg q2) by lra.
    apply nearest64_mono; assumption.
Qed.

Lemma rounded_idem (q : Q) : rounded (rounded q) == rounded q.
Proof.
  destruct (Qlt_le_dec q 0) as [N | N].
  - assert (0 <= - q) as P by lra.
    rewrite (rounded_neg q N), rounded_opp.
    rewrite rounded_nonneg by (apply nearest64_binade; exact P).
    rewrite nearest64_idem by exact P. reflexivity.
  - rewrite (rounded_nonneg q N).
    rewrite rounded_nonneg by (apply nearest64_binade; exact N).
    apply nearest64_idem. exact N.
Qed.

Lemma rounded_error (q : Q) :
  Qabs (rounded q - q) <= pow2 (ulp_exponent (Qabs q) - 1).
Proof.
  destruct (Qlt_le_dec q 0) as [N | N].
  - rewrite (rounded_neg q N).
    rewrite (ulp_exponent_comp (Qabs q) (- q)) by (apply Qabs_neg; lra).
    pose proof (nearest64_error (- q)) as H.
    assert (- nearest64 (- q) - q == - (nearest64 (- q) - - q)) as -> by ring.
    rewrite Qabs_opp. exact H.
  - rewrite (rounded_nonneg q N).
    rewrite (ulp_exponent_comp (Qabs q) q) by (apply Qabs_pos; lra).
    apply nearest64_error.
Qed.

Lemma rounded_relative (q : Q) :
  pow2 (-1022) <= Qabs q -> Qabs (rounded q - q) <= Qabs q * pow2 (-53).
Proof.
  intros H. pose proof (rounded_error q) as E.
  pose proof (Qabs_nonneg q) as A.
  destruct (ulp_exponent_spec (Qabs q) A) as (Hu & Hhi & Hlo).
  set (u := ulp_exponent (Qabs q)) in *.
  eapply Qle_trans; [exact E |].
  assert (pow2 (u + 52) <= Qabs q) as L.
  { destruct Hlo as [Hlo | Hlo]; [| exact Hlo].
    rewrite Hlo. exact H. }
  replace (u - 1)%Z with ((u + 52) + -53)%Z by lia. rewrite pow2_add.
  pose proof (pow2_pos (-53)).
  apply Qmult_le_compat_r; [exact L | lra].
Qed.


End Rounded.

Section Round64.

Lemma nearest64_top : nearest64 (pow2 1023) == pow2 1023.
Proof. apply Qeq_bool_eq. vm_compute. reflexivity. Qed.

Lemma rounded_below (q : Q) :
  Qabs q <= pow2 1023 -> Qabs (rounded q) <= pow2 1023.
Proof.
  intros H. apply Qabs_Qle_condition in H as [Hlo Hhi].
  assert (rounded (pow2 1023) == pow2 1023) as T.
  { rewrite rounded_nonneg by (pose proof (pow2_pos 1023); lra). exact nearest64_top. }
  pose proof (rounded_mono q (pow2 1023) Hhi) as U.
  pose proof (rounded_mono (- pow2 1023) q Hlo) as L.
  rewrite rounded_opp in L. rewrite T in U, L.
  apply Qabs_Qle_condition. split; assumption.
Qed.

Lemma round64_Fin (q : Q) :
  Qabs q <= pow2 1023 -> round64 q = Fin (Qred (rounded q)).
Proof.
  intros H. unfold round64. cbv zeta.
  destruct (Qle_bool (pow2 1024) (Qabs (rounded q))) eqn:E; [| reflexivity].
  exfalso. apply Qle_bool_iff in E.
  pose proof (rounded_below q H). pose proof (pow2_lt 1023 1024 eq_refl). lra.
Qed.

Lemma round64_comp (q q' : Q) : q == q' -> round64 q = round64 q'.
Proof.
  intros H. unfold round64. cbv zeta.
  pose proof (rounded_comp q q' H) as R.
  assert (negative q = negative q') as ->.
  { destruct (negative q') eqn:E.
    - apply negative_spec. apply negative_spec in E. lra.
    - apply negative_false. apply negative_false in E. lra. }
  assert (Qle_bool (pow2 1024) (Qabs (rounded q))
          = Qle_bool (pow2 1024) (Qabs (rounded q'))) as ->.
  { destruct (Qle_bool (pow2 1024) (Qabs (rounded q'))) eqn:E.
    - apply Qle_bool_iff. apply Qle_bool_iff in E. rewrite R. exact E.
    - destruct (Qle_bool (pow2 1024) (Qabs (rounded q))) eqn:E'; [| reflexivity].
      apply Qle_bool_iff in E'. rewrite R in E'. apply Qle_bool_iff in E'. congruence. }
  rewrite (Qred_complete _ _ R). reflexivity.
Qed.

Lemma double_rounded (q : Q) : double q -> rounded q == q /\ Qabs q < pow2 1024.
Proof.
  unfold double, round64. cbv zeta.
  destruct (Qle_bool (pow2 1024) (Qabs (rounded q))) eqn:E; [discriminate |].
  intros H. injection H as H.
  assert (rounded q == q) as R by (rewrite <- H at 2; symmetry; apply Qred_correct).
  split; [exact R |].
  destruct (Qlt_le_dec (Qabs q) (pow2 1024)) as [L | L]; [exact L |].
  exfalso. rewrite <- R in L. apply Qle_bool_iff in L. congruence.
Qed.

Lemma double_Qred (q : Q) : double q -> Qred q = q.
Proof.
  unfold double, round64. cbv zeta.
  destruct (Qle_bool (pow2 1024) (Qabs (rounded q))); [discriminate |].
  intros H. injection H as H. rewrite <- H at 1.
  rewrite (Qred_complete (Qred (rounded q)) (rounded q)) by apply Qred_correct.
  exact H.
Qed.

Lemma round64_double (q y : Q) : round64 q = Fin y -> double y.
Proof.
  unfold round64. cbv zeta.
  destruct (Qle_bool (pow2 1024) (Qabs (rounded q))) eqn:E; [discriminate |].
  intros H. injection H as H. subst y.
  unfold double, round64. cbv zeta.
  assert (rounded (Qred (rounded q)) == rounded q) as R.
  { rewrite (rounded_comp _ (rounded q)) by apply Qred_correct. apply rounded_idem. }
  destruct (Qle_bool (pow2 1024) (Qabs (rounded (Qred (rounded q))))) eqn:E'.
  - apply Qle_bool_iff in E'. rewrite R in E'. apply Qle_bool_iff in E'. congruence.
  - rewrite (Qred_complete _ _ R). reflexivity.
Qed.

End Round64.

(* ------------------------------------------------------------------ *)
(** ** Doubles: the operations on finite values *)
(* ------------------------------------------------------------------ *)

Section Operations.

Lemma is_zero_false (y : Q) : ~ y == 0 -> is_zero y = false.
Proof.
  intros H. unfold is_zero. apply Z.eqb_neq. intros E. apply H.
  unfold Qeq. simpl. lia.
Qed.

Lemma mul_Fin (x y : Q) :
  Qabs (x * y) <= pow2 1023 -> mul (Fin x) (Fin y) = Fin (Qred (rounded (x * y))).
Proof. intros H. apply round64_Fin. exact H. Qed.



Lemma div_Fin (x y : Q) :
  ~ y == 0 -> Qabs (x / y) <= pow2 1023 ->
  div (Fin x) (Fin y) = Fin (Qred (rounded (x / y))).
Proof.
  intros Hy H. unfold div. rewrite (is_zero_false y Hy). apply round64_Fin. exact H.
Qed.



End Operations.

(* ------------------------------------------------------------------ *)
(** ** Doubles: integers and bounds *)
(* ------------------------------------------------------------------ *)

Section Integers.

Lemma nearest64_Z (z : Z) :
  (0 <= z <= 2 ^ 53)%Z -> nearest64 (inject_Z z) == inject_Z z.
Proof.
  intros [H0 H1].
  destruct (Z.eq_dec z 0) as [-> | Hz]; [reflexivity |].
  destruct (Z.eq_dec z (2 ^ 53)) as [-> | Ht].
  { apply Qeq_bool_eq. vm_compute. reflexivity. }
  assert (0 < z)%Z as Hp by lia.
  pose proof (Z.log2_spec z Hp) as [Hl Hu].
  assert (Z.log2 z < 53)%Z as HL by (apply Z.log2_lt_pow2; lia).
  pose proof (Z.log2_nonneg z) as HL0.
  assert (ulp_exponent (inject_Z z) = (Z.log2 z - 52)%Z) as E.
  { apply ulp_exponent_unique.
    - change 0 with (inject_Z 0). rewrite <- Zle_Qle. lia.
    - lia.
    - replace (Z.log2 z - 52 + 53)%Z with (Z.succ (Z.log2 z)) by lia.
      rewrite pow2_Z by lia. rewrite <- Zlt_Qlt. exact Hu.
    - right. replace (Z.log2 z - 52 + 52)%Z with (Z.log2 z) by lia.
      rewrite pow2_Z by lia. rewrite <- Zle_Qle. exact Hl. }
  apply (nearest64_exact _ (z * 2 ^ (52 - Z.log2 z))).
  rewrite E, pow2_div, inject_Z_mult.
  replace (- (Z.log2 z - 52))%Z with (52 - Z.log2 z)%Z by lia.
  rewrite (pow2_Z (52 - Z.log2 z)) by lia. reflexivity.
Qed.

Lemma rounded_Z (z : Z) :
  (Z.abs z <= 2 ^ 53)%Z -> rounded (inject_Z z) == inject_Z z.
Proof.
  intros H. destruct (Z.le_gt_cases 0 z) as [P | N].
  - rewrite rounded_nonneg by (change 0 with (inject_Z 0); rewrite <- Zle_Qle; exact P).
    apply nearest64_Z. lia.
  - rewrite rounded_neg by (change 0 with (inject_Z 0); rewrite <- Zlt_Qlt; lia).
    rewrite <- inject_Z_opp, nearest64_Z by lia.
    rewrite inject_Z_opp. ring.
Qed.

Lemma Qred_inject_Z (z : Z) : Qred (inject_Z z) = inject_Z z.
Proof. apply Qcanon.Qred_identity. simpl. apply Z.gcd_1_r. Qed.

Lemma of_Z_exact (z : Z) : (Z.abs z <= 2 ^ 53)%Z -> of_Z z = Fin (inject_Z z).
Proof.
  intros H. unfold of_Z. rewrite round64_Fin.
  - rewrite (Qred_complete _ _ (rounded_Z z H)), Qred_inject_Z. reflexivity.
  - apply Qabs_Qle_condition.
    assert (inject_Z (2 ^ 53) <= pow2 1023) as B.
    { rewrite <- pow2_Z by lia. apply pow2_le. lia. }
    assert (- inject_Z (2 ^ 53) <= inject_Z z <= inject_Z (2 ^ 53)) as [L U].
    { rewrite <- inject_Z_opp, <- !Zle_Qle. lia. }
    split; lra.
Qed.

End Integers.

Section Bounds.

Lemma rounded_abs_le (q B : Q) :
  Qabs q <= B -> rounded B == B -> Qabs (rounded q) <= B.
Proof.
  intros H HB. apply Qabs_Qle_condition in H as [Hlo Hhi].
  pose proof (rounded_mono q B Hhi) as U.
  pose proof (rounded_mono (- B) q Hlo) as L.
  rewrite rounded_opp in L. rewrite HB in U, L.
  apply Qabs_Qle_condition. split; assumption.
Qed.

Lemma rounded_between (q lo hi : Q) :
  lo <= q <= hi -> rounded lo == lo -> rounded hi == hi ->
  lo <= rounded q <= hi.
Proof.
  intros [Hlo Hhi] El Eh.
  pose proof (rounded_mono _ _ Hlo) as L. pose proof (rounded_mono _ _ Hhi) as U.
  rewrite El in L. rewrite Eh in U. split; assumption.
Qed.

Lemma small_finite (q : Q) : Qabs q <= 1024 -> Qabs q <= pow2 1023.
Proof.
  intros H. eapply Qle_trans; [exact H |].
  change 1024 with (inject_Z (2 ^ 10)). rewrite <- pow2_Z by lia.
  apply pow2_le. lia.
Qed.

End Bounds.

#[global] Instance rounded_Proper : Proper (Qeq ==> Qeq) rounded.
Proof. intros x y H. apply rounded_comp. exact H. Qed.

#[global] Instance Qmod_Proper : Proper (Qeq ==> Qeq ==> Qeq) Standard.Qmod.
Proof.
  intros x y H m n E. unfold Standard.Qmod.
  rewrite (Qfloor_comp (x / m) (y / n)) by (rewrite H, E; reflexivity).
  rewrite H, E. reflexivity.
Qed.

(* ------------------------------------------------------------------ *)
(** ** The conversion from HSL in double arithmetic: one channel *)
(* ------------------------------------------------------------------ *)

Section Channel.





Lemma rounded_zero : rounded 0 == 0.
Proof. reflexivity. Qed.

Lemma rounded_one : rounded 1 == 1.
Proof. apply Qeq_bool_eq. vm_compute. reflexivity. Qed.





Lemma rounded_int (z : Z) (q : Q) :
  (Z.abs z <= 2 ^ 53)%Z -> q == inject_Z z -> rounded q == q.
Proof. intros H E. rewrite E. apply rounded_Z. exact H. Qed.


End Channel.

(* ------------------------------------------------------------------ *)
(** ** The conversion from HSL in double arithmetic: the range of a channel *)
(* ------------------------------------------------------------------ *)

Section Conversion64.








End Conversion64.

(* ------------------------------------------------------------------ *)
(** ** The conversion from HSL in double arithmetic: the distance to the exact formula *)
(* ------------------------------------------------------------------ *)

Section Accuracy.












End Accuracy.

(* ------------------------------------------------------------------ *)
(** ** Color scale in double arithmetic: the saturation of a stop *)
(* ------------------------------------------------------------------ *)

Section Saturation64.

Lemma rounded_close (q : Q) :
  Qabs (rounded q - q) <= Qabs q * pow2 (-53) + pow2 (-1075).
Proof.
  eapply Qle_trans; [apply rounded_error |].
  pose proof (Qabs_nonneg q) as A.
  pose proof (pow2_pos (-53)) as P. pose proof (pow2_pos (-1075)) as P'.
  destruct (ulp_exponent_spec (Qabs q) A) as (Hu & _ & [Hlo | Hlo]).
  - rewrite Hlo. change (-1074 - 1)%Z with (-1075)%Z.
    assert (0 <= Qabs q * pow2 (-53)) by (apply Qmult_le_0_compat; lra). lra.
  - replace (ulp_exponent (Qabs q) - 1)%Z with ((ulp_exponent (Qabs q) + 52) + -53)%Z by lia.
    rewrite pow2_add.
    assert (pow2 (ulp_exponent (Qabs q) + 52) * pow2 (-53) <= Qabs q * pow2 (-53))
      by (apply Qmult_le_compat_r; lra).
    lra.
Qed.

Lemma literal_seven_tenths :
  exists c, literal 0.7 = Fin c /\ 0 <= c <= 1 /\
            Qabs (c - 0.7) <= pow2 (-54).
Proof.
  eexists. split; [vm_compute; reflexivity |]. split.
  - split; discriminate.
  - apply Qle_bool_iff. vm_compute. reflexivity.
Qed.

Lemma reduced_product (s : Q) :
  Qabs s <= pow2 1023 ->
  exists t, mul (Fin s) (literal 0.7) = Fin t /\
            Qabs (t - 0.7 * s) <= Qabs s * pow2 (-52) + pow2 (-1075).
Proof.
  intros Hs. destruct literal_seven_tenths as (c & -> & [Hc0 Hc1] & Hc).
  assert (Qabs (s * c) <= Qabs s) as Hsc.
  { rewrite Qabs_Qmult, (Qabs_pos c) by exact Hc0.
    pose proof (Qabs_nonneg s). nra. }
  rewrite mul_Fin by lra.
  eexists. split; [reflexivity |]. rewrite Qred_correct.
  pose proof (rounded_close (s * c)) as E.
  assert (Qabs (s * c - 0.7 * s) <= Qabs s * pow2 (-54)) as E'.
  { assert (s * c - 0.7 * s == s * (c - 0.7)) as -> by ring.
    rewrite Qabs_Qmult. pose proof (Qabs_nonneg s). nra. }
  assert (rounded (s * c) - 0.7 * s == (rounded (s * c) - s * c) + (s * c - 0.7 * s)) as ->
    by ring.
  eapply Qle_trans; [apply Qabs_triangle |].
  assert (pow2 (-52) == pow2 (-53) + 2 * pow2 (-54)) as ->
    by (apply Qeq_bool_eq; vm_compute; reflexivity).
  pose proof (pow2_pos (-53)). pose proof (pow2_pos (-54)). pose proof (Qabs_nonneg s).
  nra.
Qed.

Lemma Math_round_integer (t : Q) :
  exists z : Z,
    Math_round (Fin t) = Fin (inject_Z z) /\
    inject_Z z - (1 # 2) <= t /\ t < inject_Z z + (1 # 2) /\
    (t == inject_Z z <-> exists n : Z, t == inject_Z n).
Proof.
  exists (Qfloor (t + (1 # 2))). split; [reflexivity |].
  split; [apply nearest_bounds |]. split; [apply nearest_bounds |].
  split.
  - intros H. eexists. exact H.
  - intros [n H]. rewrite (nearest_unique t n H). exact H.
Qed.

End Saturation64.

(** C3 (as the code has it).  The stops whose target lightness is above 90
    or below 20 are the shades 50, 100 and 900.  On them [satAdjust] is the
    double product [saturation * 0.7], on the others the input saturation.
    The saturation the hex value is converted from, and the one the hsl
    string prints, is [Math.round(satAdjust)]: for a finite [satAdjust] an
    integer within one half of it, equal to it exactly when [satAdjust] is
    an integer.  For a finite input saturation the product is finite and
    within [2^-52] of 0.7 times the input, relative to the input (and up to
    the smallest double). *)
Theorem generateColorScale_rounded_saturation (config : Binary64.ColorScaleConfig.t) :
  map ColorScaleStop.shade (filter extreme STANDARD_COLOR_SHADES) = [50; 100; 900]%Z /\
  Forall2
    (fun stop st =>
       let saturation := Binary64.ColorScaleConfig.saturation config in
       let hue := Binary64.ColorScaleConfig.hue config in
       let lightness := Binary64.of_Z (ColorScaleStop.lightness stop) in
       let used := Binary64.Math_round (Binary64.satAdjust config stop) in
       Binary64.satAdjust config stop
         = (if extreme stop
            then Binary64.mul saturation (Binary64.literal 0.7)
            else saturation) /\
       GeneratedColorStop.hex st = Binary64.hslToHex hue used lightness /\
       GeneratedColorStop.hsl st
         = "hsl(" ++ Binary64.Number_toString hue ++ ", "
           ++ Binary64.Number_toString used ++ "%, "
           ++ Binary64.Number_toString lightness ++ "%)" /\
       (forall t : Q,
          Binary64.satAdjust config stop = Binary64.Fin t ->
          exists z : Z,
            used = Binary64.Fin (inject_Z z) /\
            inject_Z z - (1 # 2) <= t /\ t < inject_Z z + (1 # 2) /\
            (t == inject_Z z <-> exists n : Z, t == inject_Z n)) /\
       (forall s : Q,
          saturation = Binary64.Fin s -> Qabs s <= Binary64.pow2 1023 ->
          extreme stop = true ->
          exists t : Q,
            Binary64.satAdjust config stop = Binary64.Fin t /\
            Qabs (t - 0.7 * s)
            <= Qabs s * Binary64.pow2 (-52) + Binary64.pow2 (-1075)))
    STANDARD_COLOR_SHADES (Binary64.generateColorScale config).
Proof.
  split; [reflexivity |].
  assert (forall l, Forall2 (fun stop st => st = Binary64.color_stop config stop)
                            l (map (Binary64.color_stop config) l)) as Hmap.
  { induction l; simpl; constructor; auto. }
  eapply Forall2_impl; [| apply Hmap].
  intros stop st ->. cbv zeta.
  split; [reflexivity |]. split; [reflexivity |]. split; [reflexivity |]. split.
  - intros t Ht. rewrite Ht. apply Math_round_integer.
  - intros s Hs Hfin Hex. unfold Binary64.satAdjust.
    unfold extreme in Hex. rewrite Hex, Hs. apply reduced_product. exact Hfin.
Qed.

(** Hue 0 and saturation 72: the product 72 * 0.7 is the double 50.4, the
    stop 900 is converted from saturation 50 and prints 50, and the
    conversion from the product itself gives another colour. *)
Lemma generateColorScale_rounded_saturation_example :
  nth_error (Binary64.generateColorScale
               (Binary64.ColorScaleConfig.mk "red" (Binary64.of_Z 0) (Binary64.of_Z 72))) 9
    = Some (GeneratedColorStop.mk 900 "hsl(0, 50%, 15%)" "#391313") /\
  Binary64.Number_toString (Binary64.mul (Binary64.of_Z 72) (Binary64.literal 0.7)) = "50.4" /\
  Binary64.hslToHex (Binary64.of_Z 0)
                    (Binary64.mul (Binary64.of_Z 72) (Binary64.literal 0.7))
                    (Binary64.of_Z 15) = "#3a1313" /\
  Binary64.hslToHex (Binary64.of_Z 0) (Binary64.of_Z 50) (Binary64.of_Z 15) = "#391313".
Proof. repeat split; vm_compute; reflexivity. Qed.

(* ------------------------------------------------------------------ *)
(** ** Type scale in double arithmetic: the step "base" *)
(* ------------------------------------------------------------------ *)

Section BaseStep64.

Lemma unit_roundoff : pow2 (-53) == 1 # 9007199254740992.
Proof. vm_compute. reflexivity. Qed.




Lemma nearest_of_close (x : Q) (z : Z) :
  inject_Z z - (1 # 2) <= x -> x < inject_Z z + (1 # 2) -> Standard.nearest x = z.
Proof.
  intros H1 H2. unfold Standard.nearest.
  destruct (nearest_bounds x) as [B1 B2].
  set (m := Qfloor (x + (1 # 2))) in *.
  assert (inject_Z m < inject_Z z + 1) as A by lra.
  assert (inject_Z z < inject_Z m + 1) as B by lra.
  change 1 with (inject_Z 1) in A, B.
  rewrite <- inject_Z_plus, <- Zlt_Qlt in A, B. lia.
Qed.



Lemma rounded_pow2_1010 : rounded (pow2 1010) == pow2 1010.
Proof. apply Qeq_bool_eq. vm_compute. reflexivity. Qed.

Lemma pow2_1010_finite : pow2 1010 <= pow2 1023.
Proof. apply pow2_le. lia. Qed.

Lemma huge_bound : 3300 * 10 ^ 300 + 1 <= pow2 1010.
Proof. apply Qle_bool_iff. vm_compute. reflexivity. Qed.

(** [Math.round(x * 100) / 100] on a double of moderate size. *)
Lemma cents_of (x : Q) :
  Qabs (x * 100) <= pow2 1010 ->
  div (Math_round (mul (Fin x) (of_Z 100))) (of_Z 100)
  = Fin (Qred (rounded (inject_Z (Standard.nearest (rounded (x * 100))) / 100))).
Proof.
  intros B1.
  rewrite (of_Z_exact 100) by (vm_compute; discriminate).
  change (inject_Z 100) with 100.
  pose proof pow2_1010_finite as LF. pose proof huge_bound as HB.
  pose proof (rounded_abs_le _ _ B1 rounded_pow2_1010) as B2.
  rewrite mul_Fin by lra.
  unfold Math_round.
  rewrite (Qfloor_comp (Qred (rounded (x * 100)) + (1 # 2)) (rounded (x * 100) + (1 # 2)))
    by (rewrite Qred_correct; reflexivity).
  fold (Standard.nearest (rounded (x * 100))).
  destruct (nearest_bounds (rounded (x * 100))) as [N1 N2].
  fold (Standard.nearest (rounded (x * 100))) in N1, N2.
  set (N := Standard.nearest (rounded (x * 100))) in *.
  assert (Qabs (inject_Z N / 100) <= pow2 1010) as B3.
  { apply Qabs_Qle_condition in B2 as [B2 B2'].
    apply Qabs_Qle_condition. pose proof (pow2_pos 1010).
    split; [apply Qle_shift_div_l | apply Qle_shift_div_r]; lra. }
  assert (~ 100 == 0) as N100 by discriminate.
  rewrite (div_Fin (inject_Z N) 100 N100) by lra.
  reflexivity.
Qed.



Variable Math_pow : number -> Z -> number.

Hypothesis Math_pow_zero : forall x : number, Math_pow x 0%Z = of_Z 1.


End BaseStep64.




(* ------------------------------------------------------------------ *)
(** ** Type scale in double arithmetic: the interval of a size *)
(* ------------------------------------------------------------------ *)

Section Sizes64.

Lemma smallest_normal : pow2 (-1022) <= 1 # 16.
Proof. apply Qle_bool_iff. vm_compute. reflexivity. Qed.

Lemma rounded_relative_pair (q : Q) :
  1 # 16 <= q ->
  q * (1 - unit_roundoff64) <= rounded q <= q * (1 + unit_roundoff64).
Proof.
  intros H. pose proof smallest_normal as S.
  assert (pow2 (-1022) <= Qabs q) as N by (rewrite Qabs_pos; lra).
  pose proof (rounded_relative q N) as E.
  rewrite unit_roundoff, (Qabs_pos q) in E by lra.
  apply Qabs_Qle_condition in E. unfold unit_roundoff64. split; lra.
Qed.

Lemma px_interval (b c f : Q) :
  1 <= b <= 10 ^ 300 -> 1 # 4 <= c <= 32 ->
  Qabs (f - c) <= c * pow2 (-52) ->
  exists p : Q,
    div (Math_round (mul (mul (Fin b) (Fin f)) (of_Z 100))) (of_Z 100) = Fin p /\
    px_lower (b * c) <= p <= px_upper (b * c).
Proof.
  intros [Hb0 Hb1] [Hc0 Hc1] Hf.
  assert (pow2 (-52) == 2 * unit_roundoff64) as E52 by (vm_compute; reflexivity).
  rewrite E52 in Hf. apply Qabs_Qle_condition in Hf as [Hf0 Hf1].
  pose proof huge_bound as HB. pose proof pow2_1010_finite as LF.
  assert (10 ^ 300 == 1000000000000000000000000000000000000000000000000000000000000000000000000000000000000000000000000000000000000000000000000000000000000000000000000000000000000000000000000000000000000000000000000000000000000000000000000000000000000000000000000000000000000000000000000000000000000000000000000000000000000) as E300
    by (vm_compute; reflexivity).
  set (T := 10 ^ 300) in *. clearbody T.
  unfold unit_roundoff64 in *.
  assert (1 # 4 <= b * c <= 32 * T) as [Hy0 Hy1] by (split; nra).
  assert (b * c * (1 - 2 * (1 # 9007199254740992)) <= b * f
          <= b * c * (1 + 2 * (1 # 9007199254740992))) as [Hg0 Hg1] by (split; nra).
  set (y := b * c) in *. set (g0 := b * f) in *.
  assert (Qabs g0 <= pow2 1023) as F0 by (apply Qabs_Qle_condition; split; lra).
  rewrite (mul_Fin b f F0). fold g0. clearbody y g0.
  clear Hf0 Hf1 Hc0 Hc1 Hb0 Hb1.
  pose proof (rounded_relative_pair g0 ltac:(lra)) as [G0 G1].
  unfold unit_roundoff64 in G0, G1.
  set (g := Qred (rounded g0)).
  assert (g == rounded g0) as Eg by apply Qred_correct.
  rewrite <- Eg in G0, G1. clearbody g.
  assert (Qabs (g * 100) <= pow2 1010) as F1 by (apply Qabs_Qle_condition; split; lra).
  rewrite (cents_of g F1).
  pose proof (rounded_relative_pair (g * 100) ltac:(lra)) as [P0 P1].
  unfold unit_roundoff64 in P0, P1.
  set (P := rounded (g * 100)) in *.
  destruct (nearest_bounds P) as [N1 N2].
  fold (Standard.nearest P) in N1, N2.
  set (n := inject_Z (Standard.nearest P)) in *.
  unfold Qdiv. change (/ 100) with (1 # 100).
  pose proof (rounded_relative_pair (n * (1 # 100)) ltac:(lra)) as [R0 R1].
  unfold unit_roundoff64 in R0, R1.
  eexists. split; [reflexivity |]. rewrite Qred_correct.
  set (p := rounded (n * (1 # 100))) in *. clearbody p n P.
  unfold px_lower, px_upper, unit_roundoff64. cbv zeta.
  split; lra.
Qed.

End Sizes64.

(* ------------------------------------------------------------------ *)
(** ** Type scale in double arithmetic: the order of the sizes *)
(* ------------------------------------------------------------------ *)

Section Order64.

Lemma factors_apart_bounds (b c d : Q) :
  1 <= b -> factors_apart c d = true -> px_upper (b * c) < px_lower (b * d).
Proof.
  intros Hb H. unfold factors_apart in H. apply negb_true_iff in H.
  assert (~ 100 * (px_lower d - px_lower 0) - 100 * (px_upper c - px_upper 0) <= 1) as N.
  { intros A. apply Qle_bool_iff in A. congruence. }
  unfold px_lower, px_upper, unit_roundoff64 in *. cbv zeta in *.
  set (A := (1 - 2 * (1 # 9007199254740992)) * (1 - (1 # 9007199254740992))
            * (1 - (1 # 9007199254740992)) * (1 - (1 # 9007199254740992))).
  set (B := (1 + 2 * (1 # 9007199254740992)) * (1 + (1 # 9007199254740992))
            * (1 + (1 # 9007199254740992)) * (1 + (1 # 9007199254740992))).
  assert (1 < 100 * (d * A - c * B)) as G by (unfold A, B; lra).
  assert (0 <= (b - 1) * (d * A - c * B)) as M.
  { apply Qmult_le_0_compat; lra. }
  unfold A, B in *. lra.
Qed.

Lemma lt_Fin64 (x y : Q) : x < y -> px_lt64 (Fin x) (Fin y).
Proof.
  intros Hlt. unfold px_lt64, lt.
  destruct (Qle_bool y x) eqn:E; [| reflexivity].
  apply Qle_bool_imp_le in E. lra.
Qed.

Lemma sorted_Fin (l : list Q) :
  StronglySorted Qlt l -> StronglySorted px_lt64 (map Fin l).
Proof.
  induction 1 as [| a l _ IH Ha]; simpl; constructor; [exact IH |].
  rewrite Forall_map. eapply Forall_impl; [| exact Ha].
  intros y Hy. apply lt_Fin64. exact Hy.
Qed.

Lemma literal_ratio (r : TypeScaleRatio) :
  literal (ratio_value r) = Fin (ratio_double r).
Proof. destruct r; vm_compute; reflexivity. Qed.

Lemma ratio_double_checked (r : TypeScaleRatio) : ratio_checked (ratio_double r) = true.
Proof. destruct r; vm_compute; reflexivity. Qed.

Variable Math_pow : number -> Z -> number.

Lemma scale_sizes (x b : Q) :
  ratio_checked x = true ->
  (forall e : Z, (-2 <= e <= 7)%Z ->
     exists f, Math_pow (Fin x) e = Fin f /\ Qabs (f - x ^ e) <= x ^ e * pow2 (-52)) ->
  1 <= b <= 10 ^ 300 ->
  exists ps : list Q,
    map TypeScaleStep.px (map (type_step Math_pow (Fin b) (Fin x)) steps) = map Fin ps /\
    StronglySorted Qlt ps.
Proof.
  intros Hok Hpow Hb. unfold ratio_checked in Hok.
  apply andb_prop in Hok as [Hrange Hapart].
  rewrite forallb_forall in Hrange, Hapart.
  assert (forall e, In e [-2; -1; 0; 1; 2; 3; 4; 5; 6; 7]%Z ->
            exists p, div (Math_round (mul (mul (Fin b) (Math_pow (Fin x) e)) (of_Z 100)))
                          (of_Z 100) = Fin p /\
                      px_lower (b * x ^ e) <= p <= px_upper (b * x ^ e)) as Hstep.
  { intros e He. specialize (Hrange e He).
    apply andb_prop in Hrange as [R0 R1]. apply Qle_bool_iff in R0, R1.
    destruct (Hpow e) as (f & Hf & Hc).
    { simpl in He. lia. }
    rewrite Hf. apply px_interval; [exact Hb | split; assumption | exact Hc]. }
  assert (forall e, In e [-2; -1; 0; 1; 2; 3; 4; 5; 6]%Z ->
            px_upper (b * x ^ e) < px_lower (b * x ^ (e + 1))) as Hgap.
  { intros e He. apply factors_apart_bounds; [apply Hb | apply Hapart, He]. }
  destruct (Hstep (-2)%Z ltac:(simpl; tauto)) as (p0 & E0 & L0 & U0).
  destruct (Hstep (-1)%Z ltac:(simpl; tauto)) as (p1 & E1 & L1 & U1).
  destruct (Hstep 0%Z ltac:(simpl; tauto)) as (p2 & E2 & L2 & U2).
  destruct (Hstep 1%Z ltac:(simpl; tauto)) as (p3 & E3 & L3 & U3).
  destruct (Hstep 2%Z ltac:(simpl; tauto)) as (p4 & E4 & L4 & U4).
  destruct (Hstep 3%Z ltac:(simpl; tauto)) as (p5 & E5 & L5 & U5).
  destruct (Hstep 4%Z ltac:(simpl; tauto)) as (p6 & E6 & L6 & U6).
  destruct (Hstep 5%Z ltac:(simpl; tauto)) as (p7 & E7 & L7 & U7).
  destruct (Hstep 6%Z ltac:(simpl; tauto)) as (p8 & E8 & L8 & U8).
  destruct (Hstep 7%Z ltac:(simpl; tauto)) as (p9 & E9 & L9 & U9).
  pose proof (Hgap (-2)%Z ltac:(simpl; tauto)) as G0.
  pose proof (Hgap (-1)%Z ltac:(simpl; tauto)) as G1.
  pose proof (Hgap 0%Z ltac:(simpl; tauto)) as G2.
  pose proof (Hgap 1%Z ltac:(simpl; tauto)) as G3.
  pose proof (Hgap 2%Z ltac:(simpl; tauto)) as G4.
  pose proof (Hgap 3%Z ltac:(simpl; tauto)) as G5.
  pose proof (Hgap 4%Z ltac:(simpl; tauto)) as G6.
  pose proof (Hgap 5%Z ltac:(simpl; tauto)) as G7.
  pose proof (Hgap 6%Z ltac:(simpl; tauto)) as G8.
  cbn [Z.add Z.opp Pos.add Z.pos_sub Pos.succ Z.succ Pos.pred_double] in G0, G1, G2, G3, G4, G5, G6, G7, G8.
  exists [p0; p1; p2; p3; p4; p5; p6; p7; p8; p9]. split.
  - unfold steps. cbn [map TypeScaleStep.px type_step StepSpec.exponent].
    rewrite E0, E1, E2, E3, E4, E5, E6, E7, E8, E9. reflexivity.
  - assert (p0 < p1) by lra. assert (p1 < p2) by lra. assert (p2 < p3) by lra.
    assert (p3 < p4) by lra. assert (p4 < p5) by lra. assert (p5 < p6) by lra.
    assert (p6 < p7) by lra. assert (p7 < p8) by lra. assert (p8 < p9) by lra.
    clear - H H0 H1 H2 H3 H4 H5 H6 H7.
    repeat (constructor; [| repeat (constructor; try lra)]). constructor.
Qed.

End Order64.

Section Nearest64.

Lemma Math_pow_nearest_accurate (r : TypeScaleRatio) (e : Z) (x : Q) :
  literal (ratio_value r) = Fin x -> (-2 <= e <= 7)%Z ->
  exists f, Math_pow_nearest (Fin x) e = Fin f /\
            Qabs (f - x ^ e) <= x ^ e * pow2 (-52).
Proof.
  intros Hx He. rewrite literal_ratio in Hx. injection Hx as <-.
  assert (In e [-2; -1; 0; 1; 2; 3; 4; 5; 6; 7]%Z) as Hin by (simpl; lia).
  assert (Forall (fun e => exists f, Math_pow_nearest (Fin (ratio_double r)) e = Fin f /\
                                     Qabs (f - ratio_double r ^ e)
                                     <= ratio_double r ^ e * pow2 (-52))
                 [-2; -1; 0; 1; 2; 3; 4; 5; 6; 7]%Z) as HF.
  { destruct r;
      repeat (constructor;
              [eexists; split;
                 [vm_compute; reflexivity | apply Qle_bool_iff; vm_compute; reflexivity] |]);
      constructor. }
  rewrite Forall_forall in HF. apply HF. exact Hin.
Qed.

End Nearest64.

(** C10 (as the code has it).  For every ratio name of the fixed set and
    every base size from 1 to 10^300, the ten steps come in the order xs,
    sm, base, lg, xl, 2xl, 3xl, 4xl, 5xl, display, their pixel sizes are
    finite and strictly increasing, and the suggested font weights never
    decrease along that order.  [Math.pow] is the engine's: all that is
    asked of it is a result within 2^-52 (relative) of the exact power of
    the ratio constant at the exponents -2 to 7. *)
Theorem generateTypeScale_sizes_increase
    (Math_pow : Binary64.number -> Z -> Binary64.number) (r : TypeScaleRatio) (b : Q) :
  (forall (r : TypeScaleRatio) (e : Z) (x : Q),
     Binary64.literal (ratio_value r) = Binary64.Fin x -> (-2 <= e <= 7)%Z ->
     exists f, Math_pow (Binary64.Fin x) e = Binary64.Fin f /\
               Qabs (f - x ^ e) <= x ^ e * Binary64.pow2 (-52)) ->
  1 <= b <= 10 ^ 300 ->
  let scale := Binary64.generateTypeScale Math_pow (Binary64.Fin b) (ratio_name r) in
  map Binary64.TypeScaleStep.name scale
    = ["xs"; "sm"; "base"; "lg"; "xl"; "2xl"; "3xl"; "4xl"; "5xl"; "display"] /\
  Forall (fun px => exists p : Q, px = Binary64.Fin p)
         (map Binary64.TypeScaleStep.px scale) /\
  StronglySorted px_lt64 (map Binary64.TypeScaleStep.px scale) /\
  StronglySorted Z.le (map Binary64.TypeScaleStep.suggestedWeight scale).
Proof.
  intros Hpow Hb. cbv zeta. unfold Binary64.generateTypeScale. cbv zeta.
  rewrite ratio_lookup. unfold Binary64.ToNumber. rewrite literal_ratio.
  split; [reflexivity |].
  destruct (scale_sizes Math_pow (ratio_double r) b (ratio_double_checked r)
              (fun e He => Hpow r e (ratio_double r) (literal_ratio r) He) Hb)
    as (ps & Eps & Hsorted).
  rewrite Eps. split; [| split].
  - rewrite Forall_map. apply Forall_forall. intros p _. exists p. reflexivity.
  - apply sorted_Fin. exact Hsorted.
  - change (map Binary64.TypeScaleStep.suggestedWeight
              (map (Binary64.type_step Math_pow (Binary64.Fin b)
                                       (Binary64.Fin (ratio_double r))) steps))
      with [400; 400; 400; 400; 500; 600; 600; 700; 700; 800]%Z.
    repeat (constructor; [| repeat (constructor; try (apply Z.leb_le; reflexivity))]).
    constructor.
Qed.

(** Base size 10^306 with the golden ratio: the products of the steps from
    xl on exceed the largest double, their sizes are all Infinity, and
    Infinity is not below Infinity. *)
Lemma generateTypeScale_sizes_increase_example :
  map Binary64.Number_toString
      (map Binary64.TypeScaleStep.px
         (Binary64.generateTypeScale Binary64.Math_pow_nearest
            (Binary64.literal (10 ^ 306)) "golden-ratio"))
    = ["3.819820590666497e+305"; "6.180469715698392e+305"; "1e+306"; "1.618e+306";
       "Infinity"; "Infinity"; "Infinity"; "Infinity"; "Infinity"; "Infinity"] /\
  Binary64.lt (Binary64.Infinity false) (Binary64.Infinity false) = false.
Proof. split; vm_compute; reflexivity. Qed.

Lemma generateTypeScale_sizes_increase_witness :
  StronglySorted px_lt64
    (map Binary64.TypeScaleStep.px
       (Binary64.generateTypeScale Binary64.Math_pow_nearest (Binary64.Fin 16)
                                   "perfect-fourth")).
Proof.
  apply (generateTypeScale_sizes_increase Binary64.Math_pow_nearest perfect_fourth 16).
  - exact Math_pow_nearest_accurate.
  - split; apply Qle_bool_iff; vm_compute; reflexivity.
Defined.

(* ------------------------------------------------------------------ *)
(** ** The conversion from HSL in double arithmetic: the result *)
(* ------------------------------------------------------------------ *)




(* ------------------------------------------------------------------ *)
(** ** Spacing scale in double arithmetic: the order of the sizes *)
(* ------------------------------------------------------------------ *)

Section Spacing64.

Lemma rounded_relative_normal (q : Q) :
  pow2 (-1022) <= q ->
  q * (1 - unit_roundoff64) <= rounded q <= q * (1 + unit_roundoff64).
Proof.
  intros H. pose proof (pow2_pos (-1022)) as S.
  assert (pow2 (-1022) <= Qabs q) as N by (rewrite Qabs_pos; lra).
  pose proof (rounded_relative q N) as E.
  rewrite unit_roundoff, (Qabs_pos q) in E by lra.
  apply Qabs_Qle_condition in E. unfold unit_roundoff64. split; lra.
Qed.

Lemma spacing_px (b m : Q) :
  pow2 (-1000) <= b <= pow2 1000 -> 1 # 2 <= m <= 32 -> rounded m == m ->
  exists p : Q,
    SpacingStep.px (spacing_step (Fin b) m) = Fin p /\
    b * m * (1 - unit_roundoff64) <= p <= b * m * (1 + unit_roundoff64).
Proof.
  intros [Hb0 Hb1] [Hm0 Hm1] Hm.
  unfold spacing_step. cbn [SpacingStep.px].
  unfold literal. rewrite round64_Fin by (apply small_finite, Qabs_Qle_condition; split; lra).
  assert (Qred (rounded m) == m) as Em by (rewrite Qred_correct; exact Hm).
  assert (pow2 (-1022) <= (1 # 2) * pow2 (-1000)) as S
    by (apply Qle_bool_iff; vm_compute; reflexivity).
  assert (32 * pow2 1000 <= pow2 1023) as T
    by (apply Qle_bool_iff; vm_compute; reflexivity).
  pose proof (pow2_pos (-1000)) as P.
  assert (0 <= (m - (1 # 2)) * b) as M0 by (apply Qmult_le_0_compat; lra).
  assert (0 <= (32 - m) * b) as M1 by (apply Qmult_le_0_compat; lra).
  assert (pow2 (-1022) <= b * m <= pow2 1023) as [Hy0 Hy1] by (split; lra).
  rewrite mul_Fin by (rewrite Em; apply Qabs_Qle_condition; split; lra).
  eexists. split; [reflexivity |]. rewrite Qred_correct, Em.
  apply rounded_relative_normal. exact Hy0.
Qed.

Lemma spacing_px_zero (b : Q) :
  SpacingStep.px (spacing_step (Fin b) 0) = Fin 0.
Proof.
  unfold spacing_step. cbn [SpacingStep.px].
  change (literal 0) with (Fin 0). unfold mul.
  rewrite (round64_comp (b * 0) 0) by ring. reflexivity.
Qed.

End Spacing64.

(** For every base unit from 2^-1000 to 2^1000 the pixel values of the
    spacing scale are finite and increase strictly along the scale, and the
    names of the steps are all different. *)
Theorem generateSpacingScale_increasing (b : Q) :
  Binary64.pow2 (-1000) <= b <= Binary64.pow2 1000 ->
  let scale := Binary64.generateSpacingScale (Some (Binary64.Fin b)) in
  Forall (fun px => exists p : Q, px = Binary64.Fin p)
         (map Binary64.SpacingStep.px scale) /\
  StronglySorted px_lt64 (map Binary64.SpacingStep.px scale) /\
  NoDup (map Binary64.SpacingStep.name scale).
Proof.
  intros Hb. cbv zeta.
  assert (forall m, In m [0.5; 1; 1.5; 2; 2.5; 3; 4; 5; 6; 7; 8; 10; 12; 14; 16; 20; 24; 28; 32] ->
            exists p : Q,
              SpacingStep.px (spacing_step (Fin b) m) = Fin p /\
              b * m * (1 - unit_roundoff64) <= p <= b * m * (1 + unit_roundoff64)) as Hstep.
  { intros m Hm. apply spacing_px; [exact Hb | |].
    - repeat (destruct Hm as [<- | Hm];
                [split; apply Qle_bool_iff; vm_compute; reflexivity |]).
      contradiction.
    - repeat (destruct Hm as [<- | Hm]; [apply Qeq_bool_eq; vm_compute; reflexivity |]).
      contradiction. }
  pose proof (pow2_pos (-1000)) as P. destruct Hb as [Hb0 Hb1].
  assert (0 < b) as Hpos by lra.
  unfold unit_roundoff64 in Hstep.
  destruct (Hstep 0.5 ltac:(simpl; tauto)) as (p1 & E1 & L1 & U1).
  destruct (Hstep 1 ltac:(simpl; tauto)) as (p2 & E2 & L2 & U2).
  destruct (Hstep 1.5 ltac:(simpl; tauto)) as (p3 & E3 & L3 & U3).
  destruct (Hstep 2 ltac:(simpl; tauto)) as (p4 & E4 & L4 & U4).
  destruct (Hstep 2.5 ltac:(simpl; tauto)) as (p5 & E5 & L5 & U5).
  destruct (Hstep 3 ltac:(simpl; tauto)) as (p6 & E6 & L6 & U6).
  destruct (Hstep 4 ltac:(simpl; tauto)) as (p7 & E7 & L7 & U7).
  destruct (Hstep 5 ltac:(simpl; tauto)) as (p8 & E8 & L8 & U8).
  destruct (Hstep 6 ltac:(simpl; tauto)) as (p9 & E9 & L9 & U9).
  destruct (Hstep 7 ltac:(simpl; tauto)) as (p10 & E10 & L10 & U10).
  destruct (Hstep 8 ltac:(simpl; tauto)) as (p11 & E11 & L11 & U11).
  destruct (Hstep 10 ltac:(simpl; tauto)) as (p12 & E12 & L12 & U12).
  destruct (Hstep 12 ltac:(simpl; tauto)) as (p13 & E13 & L13 & U13).
  destruct (Hstep 14 ltac:(simpl; tauto)) as (p14 & E14 & L14 & U14).
  destruct (Hstep 16 ltac:(simpl; tauto)) as (p15 & E15 & L15 & U15).
  destruct (Hstep 20 ltac:(simpl; tauto)) as (p16 & E16 & L16 & U16).
  destruct (Hstep 24 ltac:(simpl; tauto)) as (p17 & E17 & L17 & U17).
  destruct (Hstep 28 ltac:(simpl; tauto)) as (p18 & E18 & L18 & U18).
  destruct (Hstep 32 ltac:(simpl; tauto)) as (p19 & E19 & L19 & U19).
  assert (map SpacingStep.px (generateSpacingScale (Some (Fin b)))
          = map Fin [0; p1; p2; p3; p4; p5; p6; p7; p8; p9; p10; p11; p12; p13; p14; p15;
                     p16; p17; p18; p19]) as Epx.
  { unfold generateSpacingScale, multipliers. cbn [map].
    rewrite spacing_px_zero, E1, E2, E3, E4, E5, E6, E7, E8, E9, E10, E11, E12, E13, E14,
      E15, E16, E17, E18, E19. reflexivity. }
  rewrite Epx. split; [| split].
  - rewrite Forall_map. apply Forall_forall. intros p _. exists p. reflexivity.
  - apply sorted_Fin.
    assert (0 < p1) by lra. assert (p1 < p2) by lra. assert (p2 < p3) by lra.
    assert (p3 < p4) by lra. assert (p4 < p5) by lra. assert (p5 < p6) by lra.
    assert (p6 < p7) by lra. assert (p7 < p8) by lra. assert (p8 < p9) by lra.
    assert (p9 < p10) by lra. assert (p10 < p11) by lra. assert (p11 < p12) by lra.
    assert (p12 < p13) by lra. assert (p13 < p14) by lra. assert (p14 < p15) by lra.
    assert (p15 < p16) by lra. assert (p16 < p17) by lra. assert (p17 < p18) by lra.
    assert (p18 < p19) by lra.
    clear - H H0 H1 H2 H3 H4 H5 H6 H7 H8 H9 H10 H11 H12 H13 H14 H15 H16 H17.
    repeat (constructor; [| repeat (constructor; try lra)]). constructor.
  - assert (map SpacingStep.name (generateSpacingScale (Some (Fin b)))
            = ["0"; "0.5"; "1"; "1.5"; "2"; "2.5"; "3"; "4"; "5"; "6"; "7"; "8";
               "10"; "12"; "14"; "16"; "20"; "24"; "28"; "32"]) as ->.
    { unfold generateSpacingScale, multipliers.
      cbn [map SpacingStep.name spacing_step]. vm_compute. reflexivity. }
    repeat (constructor; [simpl; intuition discriminate |]). constructor.
Qed.

Lemma generateSpacingScale_increasing_witness :
  StronglySorted px_lt64
    (map Binary64.SpacingStep.px (Binary64.generateSpacingScale (Some (Binary64.Fin 4)))).
Proof.
  apply (generateSpacingScale_increasing 4).
  split; apply Qle_bool_iff; vm_compute; reflexivity.
Defined.

(* ------------------------------------------------------------------ *)
(** ** The overall score of a critique in double arithmetic *)
(* ------------------------------------------------------------------ *)

Section OverallScore64.

Lemma round64_cases (q : Q) :
  (round64 q = Fin (Qred (rounded q)) /\ Qabs (rounded q) < pow2 1024) \/
  (exists s, round64 q = Infinity s).
Proof.
  unfold round64. cbv zeta.
  destruct (Qle_bool (pow2 1024) (Qabs (rounded q))) eqn:E.
  - right. eexists. reflexivity.
  - left. split; [reflexivity |].
    apply Qnot_le_lt. intros H. apply Qle_bool_iff in H. congruence.
Qed.

Lemma round64_finite (q : Q) :
  Qabs (rounded q) < pow2 1024 -> round64 q = Fin (Qred (rounded q)).
Proof.
  intros H. destruct (round64_cases q) as [[E _] | [s E]]; [exact E |].
  exfalso. unfold round64 in E. cbv zeta in E.
  destruct (Qle_bool (pow2 1024) (Qabs (rounded q))) eqn:B; [| discriminate].
  apply Qle_bool_iff in B. lra.
Qed.

Lemma total_of_cons (x : HeuristicScore.t) (l : list HeuristicScore.t) (acc : number) :
  total_of (x :: l) acc = total_of l (add acc (HeuristicScore.score x)).
Proof. reflexivity. Qed.

Lemma max_of_cons (x : HeuristicScore.t) (l : list HeuristicScore.t) (acc : number) :
  max_of (x :: l) acc = max_of l (add acc (HeuristicScore.maxScore x)).
Proof. reflexivity. Qed.

Lemma max_of_infinite (scores : list HeuristicScore.t) :
  Forall score_in_range scores ->
  forall s M, max_of scores (Infinity s) = Fin M -> False.
Proof.
  induction 1 as [| x l (a & m & _ & Hm & _) _ IH]; intros s M.
  - discriminate.
  - rewrite max_of_cons, Hm. apply IH.
Qed.

Lemma score_sums64 (scores : list HeuristicScore.t) :
  Forall score_in_range scores ->
  forall aT aM M : Q,
    0 <= aT <= aM ->
    max_of scores (Fin aM) = Fin M ->
    exists T : Q, total_of scores (Fin aT) = Fin T /\ 0 <= T <= M.
Proof.
  induction 1 as [| x l (a & m & Ha & Hm & Hr) Hl IH]; intros aT aM M Hacc HM.
  - injection HM as <-. exists aT. split; [reflexivity | exact Hacc].
  - rewrite max_of_cons, Hm in HM. rewrite total_of_cons, Ha.
    change (add (Fin aM) (Fin m)) with (round64 (aM + m)) in HM.
    change (add (Fin aT) (Fin a)) with (round64 (aT + a)).
    destruct (round64_cases (aM + m)) as [[E B] | [s E]].
    + rewrite E in HM.
      assert (0 <= rounded (aT + a) <= rounded (aM + m)) as [R0 R1].
      { split; [apply rounded_sign | apply rounded_mono]; lra. }
      assert (Qabs (rounded (aT + a)) < pow2 1024) as F.
      { rewrite Qabs_pos by exact R0.
        rewrite (Qabs_pos (rounded (aM + m))) in B by lra. lra. }
      rewrite (round64_finite _ F).
      apply (IH (Qred (rounded (aT + a))) (Qred (rounded (aM + m))) M); [| exact HM].
      rewrite !Qred_correct. split; assumption.
    + rewrite E in HM. exfalso. exact (max_of_infinite l Hl s M HM).
Qed.

Lemma sums_equal64 (scores : list HeuristicScore.t) :
  Forall score_in_range scores -> Forall score_at_maximum scores ->
  forall acc, total_of scores acc = max_of scores acc.
Proof.
  induction 1 as [| x l (a & m & Ha & Hm & Hr) Hl IH]; intros Hfull acc.
  - reflexivity.
  - inversion Hfull as [| ? ? Hx Hfull']; subst.
    rewrite total_of_cons, max_of_cons.
    unfold score_at_maximum in Hx. rewrite Ha, Hm in Hx |- *.
    apply Qeq_bool_eq in Hx.
    assert (add acc (Fin a) = add acc (Fin m)) as ->.
    { destruct acc as [| s | q]; try reflexivity.
      apply round64_comp. rewrite Hx. reflexivity. }
    apply IH. exact Hfull'.
Qed.

Lemma rounded_100 : rounded 100 == 100.
Proof. apply Qeq_bool_eq. vm_compute. reflexivity. Qed.

Lemma percent64 (T M : Q) :
  0 <= T <= M -> 0 < M ->
  exists z : Z,
    Math_round (mul (div (Fin T) (Fin M)) (of_Z 100)) = Fin (inject_Z z) /\
    (0 <= z <= 100)%Z /\ (T == M -> z = 100%Z).
Proof.
  intros [HT0 HT1] HM.
  assert (0 <= T / M <= 1) as Hq.
  { split; [apply Qle_shift_div_l | apply Qle_shift_div_r]; lra. }
  assert (~ M == 0) as NM by lra.
  rewrite (div_Fin T M NM) by (apply small_finite, Qabs_Qle_condition; split; lra).
  rewrite (of_Z_exact 100) by (vm_compute; discriminate).
  change (inject_Z 100) with 100.
  pose proof (rounded_between _ 0 1 Hq rounded_zero rounded_one) as [D0 D1].
  set (d := Qred (rounded (T / M))).
  assert (d == rounded (T / M)) as Ed by apply Qred_correct.
  rewrite mul_Fin by (apply small_finite, Qabs_Qle_condition; rewrite Ed; split; lra).
  assert (0 <= rounded (d * 100) <= 100) as [E0 E1].
  { apply rounded_between; [rewrite Ed; lra | exact rounded_zero | exact rounded_100]. }
  exists (Standard.nearest (Qred (rounded (d * 100)))).
  split; [reflexivity |]. split.
  - apply nearest_range; rewrite Qred_correct; assumption.
  - intros E. apply nearest_of_close; rewrite Qred_correct.
    + assert (T / M == 1) as E1' by (rewrite E; field; lra).
      assert (rounded (d * 100) == 100) as ->.
      { rewrite <- rounded_100 at 2. apply rounded_comp.
        rewrite Ed, E1', rounded_one. reflexivity. }
      change (inject_Z 100) with 100. lra.
    + change (inject_Z 100) with 100. lra.
Qed.

End OverallScore64.

(** When every score is a finite number between 0 and its maximum and the
    sum of the maxima does not overflow, the overall score of a critique is
    a whole number from 0 to 100; it is 100 when every score is at its
    maximum and the maxima add up to more than 0. *)
Theorem calculateOverallScore_percent (scores : list Binary64.HeuristicScore.t) (M : Q) :
  Forall score_in_range scores ->
  fold_left (fun sum s => Binary64.add sum (Binary64.HeuristicScore.maxScore s))
            scores (Binary64.of_Z 0) = Binary64.Fin M ->
  (exists z : Z,
     Binary64.calculateOverallScore scores = Binary64.Fin (inject_Z z) /\
     (0 <= z <= 100)%Z) /\
  (Forall score_at_maximum scores -> 0 < M ->
   Binary64.calculateOverallScore scores = Binary64.Fin 100).
Proof.
  intros Hrange HM. unfold Binary64.calculateOverallScore.
  destruct scores as [| s scores].
  { injection HM as <-.
    split; [exists 0%Z; split; [reflexivity | lia] | intros _ H; discriminate H]. }
  cbn [List.length Nat.eqb]. cbv zeta.
  change (Binary64.of_Z 0) with (Binary64.Fin 0) in *.
  fold (max_of (s :: scores) (Fin 0)) in HM |- *.
  fold (total_of (s :: scores) (Fin 0)).
  destruct (score_sums64 (s :: scores) Hrange 0 0 M ltac:(split; apply Qle_refl) HM)
    as (T & HT & HT0 & HTM).
  rewrite HT, HM.
  assert (gt (Fin M) (Fin 0) = negb (Qle_bool M 0)) as -> by reflexivity.
  destruct (Qle_bool M 0) eqn:E; cbn [negb].
  - apply Qle_bool_iff in E. split; [exists 0%Z; split; [reflexivity | lia] |].
    intros _ H. lra.
  - assert (0 < M) as Hpos.
    { apply Qnot_le_lt. intros H. apply Qle_bool_iff in H. congruence. }
    destruct (percent64 T M (conj HT0 HTM) Hpos) as (z & Ez & Hz & Hfull).
    rewrite Ez. split; [exists z; split; [reflexivity | exact Hz] |].
    intros Hall _.
    pose proof (sums_equal64 (s :: scores) Hrange Hall (Fin 0)) as Eq.
    rewrite HT, HM in Eq. injection Eq as Eq.
    rewrite (Hfull ltac:(rewrite Eq; reflexivity)). reflexivity.
Qed.

Lemma calculateOverallScore_percent_witness :
  Binary64.calculateOverallScore
    [Binary64.HeuristicScore.mk (Binary64.of_Z 1) "Visibility" (Binary64.of_Z 7) (Binary64.of_Z 10);
     Binary64.HeuristicScore.mk (Binary64.of_Z 2) "Match" (Binary64.of_Z 10) (Binary64.of_Z 10)]
  = Binary64.Fin (inject_Z 85).
Proof.
  destruct (calculateOverallScore_percent
              [Binary64.HeuristicScore.mk (Binary64.of_Z 1) "Visibility"
                 (Binary64.of_Z 7) (Binary64.of_Z 10);
               Binary64.HeuristicScore.mk (Binary64.of_Z 2) "Match"
                 (Binary64.of_Z 10) (Binary64.of_Z 10)] 20)
    as [(z & Ez & _) _].
  - repeat constructor; eexists; eexists;
      (split; [vm_compute; reflexivity | split; [vm_compute; reflexivity | split; discriminate]]).
  - vm_compute. reflexivity.
  - vm_compute. reflexivity.
Defined.
